(** * Binomial-tree option pricing: the pricing engine of [binomial.js]

    A shallow embedding of the Cox-Ross-Rubinstein pricing engine
    ([calculateCRRParams], [buildStockTree], [payoff], [priceEuropean],
    [priceAmerican], [calculateDelta], [calculateGamma],
    [getEarlyExerciseNodes], [priceBinomialTree]) and the properties of it
    that the specification states, followed by the form reader [getParams]
    and the layout of the renderer ([calculatePositions], [drawEdges]).

    Modelling choices.
    - Numbers.  The engine is written once, over an interface [Num] that lists
      the arithmetic the source uses ([+ - * /], unary minus, [Math.exp],
      [Math.sqrt], [Math.pow], [Math.max], [>]).  Everything that concerns
      the shape of the lattices, the order of the loops and which value is
      stored where is proved for every implementation of that interface.
      Facts about the order of the computed numbers, about infinities and
      about NaN are proved for IEEE binary64 ([Num_float]), the numbers of
      the JavaScript engine, from the specification of its operations in the
      Standard Library; [Math.exp] and [Math.pow], which the language leaves
      to the implementation, are parameters there.  The real numbers
      ([Num_R]) serve for requests whose arithmetic is exact in binary64 as
      well.
    - Arrays.  A JavaScript array is a list of optional cells: a hole reads
      as [undefined] ([None]), and an assignment past the end extends the
      array ([aset]).
    - Exceptions.  Reading or writing a property of [undefined] throws a
      [TypeError]; the engine is therefore written in the error monad [res].
    - The step count [N] is an integer ([Z]); loop counters start at 0 and are
      natural numbers. *)

From Stdlib Require Import ZArith Lia Reals Lra Floats String.
From stdpp Require Import base list sorting.

(** ** The arithmetic of the source *)

Class Num (F : Type) := {
  fzero : F;                 (* the literal 0 *)
  fone : F;                  (* the literal 1 *)
  fhalf : F;                 (* the literal 0.5 *)
  of_int : Z -> F;           (* an integer step count seen as a number *)
  fadd : F -> F -> F;
  fsub : F -> F -> F;
  fmul : F -> F -> F;
  fdiv : F -> F -> F;
  fneg : F -> F;             (* unary minus *)
  fexp : F -> F;             (* Math.exp *)
  fsqrt : F -> F;            (* Math.sqrt *)
  fpow : F -> nat -> F;      (* Math.pow at a loop counter *)
  fmax : F -> F -> F;        (* Math.max *)
  fgt : F -> F -> bool       (* x > y *)
}.

Declare Scope num_scope.
Delimit Scope num_scope with num.
Notation "x + y" := (fadd x y) : num_scope.
Notation "x - y" := (fsub x y) : num_scope.
Notation "x * y" := (fmul x y) : num_scope.
Notation "x / y" := (fdiv x y) : num_scope.
Notation "- x" := (fneg x) : num_scope.
Notation "x >? y" := (fgt x y) (at level 70, no associativity) : num_scope.

(** ** Exceptions *)

Inductive error :=
  | TypeError        (* a property of undefined was read or written: JS throws *)
  | UndefinedNumber. (* a hole was read where the code goes on to compute with
                        the value; JS would continue with NaN *)

Inductive res (A : Type) :=
  | Ok (a : A)
  | Err (e : error).
Arguments Ok {A} a.
Arguments Err {A} e.

#[global] Instance res_ret : MRet res := fun _ a => Ok a.
#[global] Instance res_bind : MBind res := fun _ _ f m =>
  match m with
  | Ok a => f a
  | Err e => Err e
  end.

(** ** JavaScript arrays *)

Abbreviation jsarray A := (list (option A)).
Abbreviation tree A := (list (option (list (option A)))).

(** [a[i]]: a hole and an index past the end both read as undefined. *)
Definition aget {A} (a : jsarray A) (i : nat) : option A :=
  match a !! i with
  | Some c => c
  | None => None
  end.

(** [a[i] = v]: inside the array the cell is replaced; past the end the array
    grows, and the cells skipped over are holes. *)
Definition aset {A} (a : jsarray A) (i : nat) (v : A) : jsarray A :=
  if decide (i < length a) then <[i := Some v]> a
  else a ++ replicate (i - length a) None ++ [Some v].

(** [t[i]] used as an object: [t[i][j]] throws when [t[i]] is undefined. *)
Definition row {A} (t : tree A) (i : nat) : res (jsarray A) :=
  match aget t i with
  | Some r => Ok r
  | None => Err TypeError
  end.

(** [t[i][j]] read as a number (or stored as a result). *)
Definition cell {A} (t : tree A) (i j : nat) : res A :=
  r ← row t i;
  match aget r j with
  | Some x => Ok x
  | None => Err UndefinedNumber
  end.

(** [t[i][j] = v]: the row object is updated in place, so [t[i]] sees it. *)
Definition store {A} (t : tree A) (i j : nat) (v : A) : res (tree A) :=
  r ← row t i;
  Ok (aset t i (aset r j v)).

(** ** Loops *)

(** Runs [body] for each counter of [l] in turn, threading the state. *)
Fixpoint forM {St} (l : list nat) (body : nat -> St -> res St) (s : St) : res St :=
  match l with
  | [] => Ok s
  | i :: l' => s' ← body i s; forM l' body s'
  end.

(** Counters of [for (let i = 0; i <= N; i++)]. *)
Definition upto (N : Z) : list nat := seq 0 (Z.to_nat (N + 1)).
(** Counters of [for (let i = 0; i < N; i++)]. *)
Definition below (N : Z) : list nat := seq 0 (Z.to_nat N).
(** Counters of [for (let i = N - 1; i >= 0; i--)]. *)
Definition downfrom (N : Z) : list nat := rev (seq 0 (Z.to_nat N)).

(** ** Data model *)

Section Engine.
Context {F : Type} `{Num F}.
Local Open Scope num_scope.

Record CRRParameters := {
  dt : F;
  u : F;
  d : F;
  p : F;
  discount : F
}.

(** The fields of a request carry a trailing underscore ([S] is the successor
    of [nat]); [customU] and [customD] may be undefined. *)
Record MarketParams := {
  S_ : F;
  K_ : F;
  r_ : F;
  sigma_ : F;
  T_ : F;
  N_ : Z;
  isCall_ : bool;
  isAmerican_ : bool;
  isCustomUD_ : bool;
  customU_ : option F;
  customD_ : option F
}.

Record EarlyExerciseRecord := {
  step : nat;
  state : nat;
  stockPrice : F;
  optionValue : F
}.

Record PricingResult := {
  crr : CRRParameters;
  stockTree : tree F;
  optionTree : tree F;
  earlyExercise : tree bool;
  price : F;
  delta : F;
  gamma : F;
  earlyExerciseNodes : list EarlyExerciseRecord
}.

(** ** The engine *)

Definition calculateCRRParams (S K r sigma T : F) (N : Z)
    (customU customD : option F) : CRRParameters :=
  let dt := T / of_int N in
  let '(u, d) :=
    match customU, customD with
    | Some cu, Some cd => (cu, cd)
    | _, _ => let u := fexp (sigma * fsqrt dt) in (u, fone / u)
    end in
  let p := (fexp (r * dt) - d) / (u - d) in
  {| dt := dt; u := u; d := d; p := p; discount := fexp (- r * dt) |}.

Definition buildStockTree (S u d : F) (N : Z) : res (tree F) :=
  forM (upto N) (fun i tree =>
    let tree := aset tree i [] in
    forM (seq 0 (i + 1)) (fun j tree =>
      store tree i j (S * fpow u j * fpow d (i - j))) tree) [].

Definition payoff (S K : F) (isCall : bool) : F :=
  if isCall then fmax (S - K) fzero else fmax (K - S) fzero.

Definition priceEuropean (stockTree : tree F) (K p discount : F)
    (isCall : bool) (N : Z) : res (tree F * tree bool) :=
  st ← forM (upto N) (fun i '(optionTree, earlyExercise) =>
    Ok (aset optionTree i [], aset earlyExercise i [])) ([], []);
  st ← forM (upto N) (fun j '(optionTree, earlyExercise) =>
    s ← cell stockTree (Z.to_nat N) j;
    optionTree ← store optionTree (Z.to_nat N) j (payoff s K isCall);
    earlyExercise ← store earlyExercise (Z.to_nat N) j false;
    Ok (optionTree, earlyExercise)) st;
  forM (downfrom N) (fun i st =>
    forM (seq 0 (i + 1)) (fun j '(optionTree, earlyExercise) =>
      vu ← cell optionTree (i + 1) (j + 1);
      vd ← cell optionTree (i + 1) j;
      let holdValue := discount * (p * vu + (fone - p) * vd) in
      optionTree ← store optionTree i j holdValue;
      earlyExercise ← store earlyExercise i j false;
      Ok (optionTree, earlyExercise)) st) st.

Definition priceAmerican (stockTree : tree F) (K p discount : F)
    (isCall : bool) (N : Z) : res (tree F * tree bool) :=
  st ← forM (upto N) (fun i '(optionTree, earlyExercise) =>
    Ok (aset optionTree i [], aset earlyExercise i [])) ([], []);
  st ← forM (upto N) (fun j '(optionTree, earlyExercise) =>
    s ← cell stockTree (Z.to_nat N) j;
    optionTree ← store optionTree (Z.to_nat N) j (payoff s K isCall);
    earlyExercise ← store earlyExercise (Z.to_nat N) j false;
    Ok (optionTree, earlyExercise)) st;
  forM (downfrom N) (fun i st =>
    forM (seq 0 (i + 1)) (fun j '(optionTree, earlyExercise) =>
      vu ← cell optionTree (i + 1) (j + 1);
      vd ← cell optionTree (i + 1) j;
      let holdValue := discount * (p * vu + (fone - p) * vd) in
      s ← cell stockTree i j;
      let exerciseValue := payoff s K isCall in
      if exerciseValue >? holdValue then
        optionTree ← store optionTree i j exerciseValue;
        earlyExercise ← store earlyExercise i j true;
        Ok (optionTree, earlyExercise)
      else
        optionTree ← store optionTree i j holdValue;
        earlyExercise ← store earlyExercise i j false;
        Ok (optionTree, earlyExercise)) st) st.

Definition calculateDelta (stockTree optionTree : tree F) : res F :=
  if decide (length stockTree < 2) then Ok fzero
  else
    Su ← cell stockTree 1 1;
    Sd ← cell stockTree 1 0;
    Vu ← cell optionTree 1 1;
    Vd ← cell optionTree 1 0;
    Ok ((Vu - Vd) / (Su - Sd)).

Definition calculateGamma (stockTree optionTree : tree F) : res F :=
  if decide (length stockTree < 3) then Ok fzero
  else
    Suu ← cell stockTree 2 2;
    Sud ← cell stockTree 2 1;
    Sdd ← cell stockTree 2 0;
    Vuu ← cell optionTree 2 2;
    Vud ← cell optionTree 2 1;
    Vdd ← cell optionTree 2 0;
    let deltaUp := (Vuu - Vud) / (Suu - Sud) in
    let deltaDown := (Vud - Vdd) / (Sud - Sdd) in
    let h := fhalf * (Suu - Sdd) in
    Ok ((deltaUp - deltaDown) / h).

(** [nodes.push(x)] appends, so the list is in the order of the pushes.  An
    undefined flag is falsy: nothing is pushed for it. *)
Definition getEarlyExerciseNodes (stockTree optionTree : tree F)
    (earlyExercise : tree bool) (N : Z) : res (list EarlyExerciseRecord) :=
  forM (below N) (fun i nodes =>
    forM (seq 0 (i + 1)) (fun j nodes =>
      flags ← row earlyExercise i;
      match aget flags j with
      | Some true =>
          s ← cell stockTree i j;
          v ← cell optionTree i j;
          Ok (nodes ++ [{| step := i; state := j; stockPrice := s; optionValue := v |}])
      | _ => Ok nodes
      end) nodes) [].

Definition priceBinomialTree (params : MarketParams) : res PricingResult :=
  let S := S_ params in
  let K := K_ params in
  let N := N_ params in
  let isCall := isCall_ params in
  let crr :=
    if isCustomUD_ params
    then calculateCRRParams S K (r_ params) (sigma_ params) (T_ params) N
           (customU_ params) (customD_ params)
    else calculateCRRParams S K (r_ params) (sigma_ params) (T_ params) N
           None None in
  stockTree ← buildStockTree S (u crr) (d crr) N;
  '(optionTree, earlyExercise) ←
    (if isAmerican_ params
     then priceAmerican stockTree K (p crr) (discount crr) isCall N
     else priceEuropean stockTree K (p crr) (discount crr) isCall N);
  delta ← calculateDelta stockTree optionTree;
  gamma ← calculateGamma stockTree optionTree;
  earlyExerciseNodes ←
    (if isAmerican_ params
     then getEarlyExerciseNodes stockTree optionTree earlyExercise N
     else Ok []);
  price ← cell optionTree 0 0;
  Ok {| crr := crr; stockTree := stockTree; optionTree := optionTree;
        earlyExercise := earlyExercise; price := price; delta := delta;
        gamma := gamma; earlyExerciseNodes := earlyExerciseNodes |}.

End Engine.

(** ** Two implementations of the arithmetic *)

(** The real numbers: the arithmetic the pricing model is stated in. *)
Definition Rgtb (x y : R) : bool := if Rgt_dec x y then true else false.

#[global] Instance Num_R : Num R := {|
  fzero := 0%R; fone := 1%R; fhalf := (1 / 2)%R; of_int := IZR;
  fadd := Rplus; fsub := Rminus; fmul := Rmult; fdiv := Rdiv; fneg := Ropp;
  fexp := Rtrigo_def.exp; fsqrt := R_sqrt.sqrt; fpow := Rpow_def.pow;
  fmax := Rmax; fgt := Rgtb
|}.

(** IEEE binary64, the numbers of the JavaScript engine.  The language leaves
    the results of [Math.exp] and [Math.pow] to the implementation, so they
    are parameters here. *)
Section Binary64.
Variable exp64 : float -> float.
Variable pow64 : float -> nat -> float.

(** [Math.max]: NaN if an argument is NaN, and +0 is larger than -0. *)
Definition max64 (x y : float) : float :=
  if (is_nan x || is_nan y)%bool then nan
  else if (x <? y)%float then y
  else if (y <? x)%float then x
  else if get_sign x then y else x.

Definition int64 (z : Z) : float := SF2Prim (binary_normalize prec emax z 0 false).

Definition Num_float : Num float := {|
  fzero := 0%float; fone := 1%float; fhalf := 0.5%float; of_int := int64;
  fadd := PrimFloat.add; fsub := PrimFloat.sub; fmul := PrimFloat.mul;
  fdiv := PrimFloat.div; fneg := PrimFloat.opp;
  fexp := exp64; fsqrt := PrimFloat.sqrt; fpow := pow64; fmax := max64;
  fgt := fun x y => (y <? x)%float
|}.
End Binary64.



(** ** The order of binary64 *)

(** The doubles that are not NaN are ordered like their ranks: the rank of a
    finite double is its value counted in units of [2 ^ -1074], the least
    positive double, and the rank of an infinity is [2 ^ 2098], one binade
    above the largest finite double. *)
Definition cap : Z := (2 ^ 2098)%Z.

Definition rank (x : spec_float) : Z :=
  match x with
  | S754_zero _ | S754_nan => 0
  | S754_infinity s => cond_Zopp s cap
  | S754_finite s m e => cond_Zopp s (Zpos m * 2 ^ (e + 1074))
  end%Z.

Definition finite64 (x : spec_float) : bool :=
  match x with
  | S754_zero _ | S754_finite _ _ _ => true
  | _ => false
  end.

(** Rounding to nearest, ties to even, as [binary_round_aux] of the Standard
    Library performs it on an exact mantissa.  [rne N sticky] rounds [N / 2],
    where [sticky] tells that something was dropped below [N]; [roundAt k M]
    rounds [M / 2 ^ k]; [roundRank k0 Y] is the rank of the double nearest to
    the value [Y] counted in units of [2 ^ (- 1074 - k0)]; [sround] is its
    extension to a negative [Y]. *)
Definition rne (N : Z) (sticky : bool) : Z :=
  (let m := N / 2 in
   if N mod 2 =? 0 then m
   else if sticky then m + 1
   else if Z.even m then m else m + 1)%Z.

Definition roundAt (k M : Z) : Z :=
  (if k <=? 0 then M
   else rne (2 * M / 2 ^ k) (negb (2 * M mod 2 ^ k =? 0)))%Z.

Definition roundRank (k0 Y : Z) : Z :=
  (let n := Z.max (Z.log2 Y - 52) k0 in
   Z.min cap (roundAt n Y * 2 ^ (n - k0)))%Z.

Definition sround (k0 Y : Z) : Z :=
  (if Y <? 0 then - roundRank k0 (- Y) else roundRank k0 Y)%Z.

(** The mantissa and the round bit of a shift record, as one number. *)
Definition halves (mrs : shr_record) : Z :=
  (2 * shr_m mrs + (if shr_r mrs then 1 else 0))%Z.

(** ** Lattices filled in index order *)

(** The array [[f 0, ..., f (len - 1)]], and the lattice whose row [i] holds
    the first [len i] values of [f i]: every state the loops of the engine go
    through has this form. *)
Definition cells {A} (f : nat -> A) (len : nat) : jsarray A :=
  (fun j => Some (f j)) <$> seq 0 len.

Definition rows {A} (f : nat -> nat -> A) (len : nat -> nat) (m : nat) : tree A :=
  (fun i => Some (cells (f i) (len i))) <$> seq 0 m.

(** The full triangle with levels [0..n]. *)
Definition triangle {A} (f : nat -> nat -> A) (n : nat) : tree A :=
  rows f (fun i => i + 1) (n + 1).

(** Number of cells of a lattice. *)
Definition nodeCount {A} (t : tree A) : nat :=
  sum_list_with (fun r => match r with Some c => length c | None => 0 end) t.

(** A lattice with exactly the levels [0..n], level [i] holding exactly
    [i + 1] defined cells. *)
Definition populated {A} (t : tree A) (n : nat) : Prop :=
  length t = n + 1 /\
  forall i, i <= n -> exists r, row t i = Ok r /\ length r = i + 1 /\
    forall j, j <= i -> exists v, aget r j = Some v.

(** Rows [< i] are empty, row [i] holds [j] cells, rows [> i] are full: the
    fill state of the option lattice while backward induction is at [(i, j)]. *)
Definition fill (i j : nat) : nat -> nat := fun k =>
  if decide (k < i) then 0 else if decide (k = i) then j else k + 1.

(** Rows [< i] are full and row [i] holds [j] cells: the fill state of the
    stock lattice while it is built. *)
Definition fillUp (i j : nat) : nat -> nat := fun k =>
  if decide (k = i) then j else k + 1.

(** ** What the loops compute *)

Section Values.
Context {F : Type} `{Num F}.
Local Open Scope num_scope.

(** The price the source stores at node [(i, j)]. *)
Definition stockAt (S u d : F) (i j : nat) : F :=
  S * fpow u j * fpow d (i - j).

(** The discounted expectation over the two children of a node. *)
Definition holdOf (p discount vu vd : F) : F :=
  discount * (p * vu + (fone - p) * vd).

Section Backward.
Variable s : nat -> nat -> F.
Variables K p discount : F.
Variable isCall : bool.

(** Option value at node [(i, j)] when [k] steps remain to the terminal
    level, European and American, and the American early-exercise flag. *)
Fixpoint europeanValue (k i j : nat) : F :=
  match k with
  | 0 => payoff (s i j) K isCall
  | S k' => holdOf p discount (europeanValue k' (i + 1) (j + 1))
                              (europeanValue k' (i + 1) j)
  end.

Fixpoint americanValue (k i j : nat) : F :=
  match k with
  | 0 => payoff (s i j) K isCall
  | S k' =>
      let h := holdOf p discount (americanValue k' (i + 1) (j + 1))
                                 (americanValue k' (i + 1) j) in
      let e := payoff (s i j) K isCall in
      if e >? h then e else h
  end.

Definition americanFlag (k i j : nat) : bool :=
  match k with
  | 0 => false
  | S k' =>
      payoff (s i j) K isCall >?
      holdOf p discount (americanValue k' (i + 1) (j + 1))
                        (americanValue k' (i + 1) j)
  end.

(** The same at node [(i, j)] of a lattice with [n] steps. *)
Definition europeanAt (n i j : nat) : F := europeanValue (n - i) i j.
Definition americanAt (n i j : nat) : F := americanValue (n - i) i j.
Definition americanFlagAt (n i j : nat) : bool := americanFlag (n - i) i j.

End Backward.

(** No node is flagged. *)
Definition noFlag (i j : nat) : bool := false.

Section Nodes.
Variables s V : nat -> nat -> F.
Variable Fl : nat -> nat -> bool.

(** The record pushed for node [(i, j)]. *)
Definition nodeRecord (i j : nat) : EarlyExerciseRecord :=
  {| step := i; state := j; stockPrice := s i j; optionValue := V i j |}.

(** The flagged nodes of row [i] among its first [m] states, and the flagged
    nodes of the first [m] rows, in the order of the two loops. *)
Definition flaggedInRow (i m : nat) : list EarlyExerciseRecord :=
  seq 0 m ≫= fun j => if Fl i j then [nodeRecord i j] else [].

Definition flaggedBelow (m : nat) : list EarlyExerciseRecord :=
  seq 0 m ≫= fun i => flaggedInRow i (i + 1)%nat.

End Nodes.

(** Order of the records: by step, then by state. *)
Definition nodeBefore (r1 r2 : @EarlyExerciseRecord F) : Prop :=
  step r1 < step r2 \/ (step r1 = step r2 /\ state r1 < state r2).

Definition nodeKey (r : @EarlyExerciseRecord F) : nat * nat :=
  (step r, state r).

Section Result.
Variable params : @MarketParams F.

(** The parameters [priceBinomialTree] derives. *)
Definition crrOf : CRRParameters :=
  if isCustomUD_ params
  then calculateCRRParams (S_ params) (K_ params) (r_ params) (sigma_ params)
         (T_ params) (N_ params) (customU_ params) (customD_ params)
  else calculateCRRParams (S_ params) (K_ params) (r_ params) (sigma_ params)
         (T_ params) (N_ params) None None.

Definition stockOf : nat -> nat -> F :=
  stockAt (S_ params) (u crrOf) (d crrOf).

Definition valueOf (n : nat) : nat -> nat -> F :=
  if isAmerican_ params
  then americanAt stockOf (K_ params) (p crrOf) (discount crrOf)
         (isCall_ params) n
  else europeanAt stockOf (K_ params) (p crrOf) (discount crrOf)
         (isCall_ params) n.

Definition flagOf (n : nat) : nat -> nat -> bool :=
  if isAmerican_ params
  then americanFlagAt stockOf (K_ params) (p crrOf) (discount crrOf)
         (isCall_ params) n
  else noFlag.

(** The result of the pipeline for the step count [n]. *)
Definition resultOf (n : nat) : PricingResult :=
  let s := stockOf in
  let V := valueOf n in
  {| crr := crrOf;
     stockTree := triangle s n;
     optionTree := triangle V n;
     earlyExercise := triangle (flagOf n) n;
     price := V 0 0;
     delta := if decide (n < 1) then fzero
              else (V 1 1 - V 1 0) / (s 1 1 - s 1 0);
     gamma := if decide (n < 2) then fzero
              else ((V 2 2 - V 2 1) / (s 2 2 - s 2 1)
                    - (V 2 1 - V 2 0) / (s 2 1 - s 2 0))
                   / (fhalf * (s 2 2 - s 2 0));
     earlyExerciseNodes :=
       if isAmerican_ params then flaggedBelow s V (flagOf n) n else [] |}.

(** The same request with the exercise style set. *)
Definition withStyle (american : bool) : @MarketParams F :=
  {| S_ := S_ params; K_ := K_ params; r_ := r_ params;
     sigma_ := sigma_ params; T_ := T_ params; N_ := N_ params;
     isCall_ := isCall_ params; isAmerican_ := american;
     isCustomUD_ := isCustomUD_ params;
     customU_ := customU_ params; customD_ := customD_ params |}.

End Result.
End Values.

(** ** Concrete requests *)

Local Open Scope R_scope.

(** A two-step call with custom factors [u = 1/2], [d = 1/4] and [r = 0]:
    the risk-neutral probability is 3. *)
Definition steepRequest (american : bool) : @MarketParams R :=
  {| S_ := 32; K_ := 3; r_ := 0; sigma_ := 1 / 5; T_ := 1; N_ := 2%Z;
     isCall_ := true; isAmerican_ := american; isCustomUD_ := true;
     customU_ := Some (1 / 2); customD_ := Some (1 / 4) |}.

(** A one-step at-the-money call with custom factors [u = 2], [d = 1/2]. *)
Definition oneStepRequest (american : bool) : @MarketParams R :=
  {| S_ := 100; K_ := 100; r_ := 0; sigma_ := 1 / 5; T_ := 1; N_ := 1%Z;
     isCall_ := true; isAmerican_ := american; isCustomUD_ := true;
     customU_ := Some 2; customD_ := Some (1 / 2) |}.

(** A request with the step count -1. *)
Definition negativeRequest : @MarketParams R :=
  {| S_ := 100; K_ := 100; r_ := 5 / 100; sigma_ := 1 / 5; T_ := 1;
     N_ := (-1)%Z; isCall_ := true; isAmerican_ := false;
     isCustomUD_ := false; customU_ := None; customD_ := None |}.

(** Three lattices in which every node is flagged, those of the last step
    included: node [(i, j)] holds the stock price [i] and the option value
    [j]. *)
Definition stepStock (i j : nat) : R := INR i.
Definition stepValue (i j : nat) : R := INR j.
Definition allFlagged (i j : nat) : bool := true.

Local Close Scope R_scope.

(** [Math.exp] returns 1 at [+0] and at [-0], and [Math.pow] returns 1 for the
    base 1, in every implementation.  A request with [r = 0] and custom
    factors equal to 1 calls them with no other argument, so that these two
    functions give its result in every JavaScript engine. *)
Definition expOfZero (x : float) : float := 1%float.
Definition powOfOne (x : float) (k : nat) : float := 1%float.

(** A one-step request in binary64 with equal custom factors. *)
Definition flatRequest : @MarketParams float :=
  {| S_ := 100%float; K_ := 100%float; r_ := 0%float; sigma_ := 0.25%float;
     T_ := 1%float; N_ := 1%Z; isCall_ := true; isAmerican_ := true;
     isCustomUD_ := true; customU_ := Some 1%float; customD_ := Some 1%float |}.

(** A one-step request in binary64 whose factors are derived from the
    volatility 0.25: [Math.exp] is called at [+0], at [-0] and at 0.25, where
    it returns the double nearest to e^(1/4). *)
Definition expQuarter : float := 0x1.48b5e3c3e8186p+0%float.

Definition expAtQuarter (x : float) : float :=
  if (x =? 0)%float then 1%float else expQuarter.

Definition quarterRequest : @MarketParams float :=
  {| S_ := 100%float; K_ := 100%float; r_ := 0%float; sigma_ := 0.25%float;
     T_ := 1%float; N_ := 1%Z; isCall_ := true; isAmerican_ := false;
     isCustomUD_ := false; customU_ := None; customD_ := None |}.

(** A four-step request in binary64 whose factors are derived from the
    volatility 0.5: [sqrt (1 / 4)] is 0.5 and [0.5 * 0.5] is 0.25, both
    exact, so that [Math.exp] is again called at [+0], at [-0] and at 0.25
    only. *)
Definition halfVolRequest : @MarketParams float :=
  {| S_ := 100%float; K_ := 100%float; r_ := 0%float; sigma_ := 0.5%float;
     T_ := 1%float; N_ := 4%Z; isCall_ := true; isAmerican_ := false;
     isCustomUD_ := false; customU_ := None; customD_ := None |}.

(** A two-step American put in binary64 with [r = 1/16] and the custom
    factors [u = 2], [d = 1/2].  [Math.exp] is called at [1/32] and at
    [-1/32] only, where it returns the doubles nearest to e^(1/32) and
    e^(-1/32); [Math.pow] is called with the bases 2 and 1/2 and exponents up
    to 2, where it returns the product of that many factors, which is
    exact. *)
Definition expAtThirtySecond (x : float) : float :=
  if (x =? 0.03125)%float then 0x1.08205601127edp+0%float
  else if (x =? -0.03125)%float then 0x1.f03f56a88b5d8p-1%float
  else 1%float.

Definition powByProduct (x : float) (k : nat) : float :=
  Nat.iter k (fun y => (y * x)%float) 1%float.

Definition putRequest (american : bool) : @MarketParams float :=
  {| S_ := 100%float; K_ := 110%float; r_ := 0.0625%float;
     sigma_ := 0.25%float; T_ := 1%float; N_ := 2%Z; isCall_ := false;
     isAmerican_ := american; isCustomUD_ := true;
     customU_ := Some 2%float; customD_ := Some 0.5%float |}.

(** The two-step call of [steepRequest] in binary64: [Math.exp] is called at
    [+0] and [-0] only, and every number of the request is a small multiple
    of a power of 2, so that no operation rounds. *)
Definition steepRequest64 (american : bool) : @MarketParams float :=
  {| S_ := 32%float; K_ := 3%float; r_ := 0%float; sigma_ := 0.25%float;
     T_ := 1%float; N_ := 2%Z; isCall_ := true; isAmerican_ := american;
     isCustomUD_ := true;
     customU_ := Some 0.5%float; customD_ := Some 0.25%float |}.

(** A one-step call in binary64 with the volatility 1000: [Math.exp] is
    called at [+0], at [-0] and at 1000, where it overflows to [Infinity] in
    every implementation; [Math.pow] is called with the bases [Infinity] and
    0 and the exponents 0 and 1. *)
Definition expOverflow (x : float) : float :=
  if (x =? 0)%float then 1%float else infinity.

Definition overflowRequest (american : bool) : @MarketParams float :=
  {| S_ := 100%float; K_ := 100%float; r_ := 0%float; sigma_ := 1000%float;
     T_ := 1%float; N_ := 1%Z; isCall_ := true; isAmerican_ := american;
     isCustomUD_ := false; customU_ := None; customD_ := None |}.

(** ** The caller and the renderer *)

(** What [getParams] needs of a number beyond the arithmetic of the engine:
    whether [x || d] takes the default (the number is 0 or NaN), and the two
    literals that are not integers. *)
Class FormNum (F : Type) := {
  falsy : F -> bool;
  onePointOne : F;        (* the literal 1.1 *)
  zeroPointNine : F       (* the literal 0.9 *)
}.

Definition Rzerob (x : R) : bool := if Req_dec_T x 0 then true else false.

#[global] Instance FormNum_R : FormNum R := {|
  falsy := Rzerob; onePointOne := (11 / 10)%R; zeroPointNine := (9 / 10)%R
|}.


Module Form.
Section Form.
Context {F : Type} `{Num F} `{FormNum F}.
Local Open Scope num_scope.

(** What the form holds when [getParams] reads it: the result of
    [parseFloat] or [parseInt] on each field ([None] is NaN), and the value of
    the checked radio button of each group ([None]: no button is checked, and
    reading [.value] of [null] throws). *)
Record FormValues := {
  spotPrice : option F;
  strikePrice : option F;
  riskFreeRate : option F;
  volatility : option F;
  timeToMaturity : option F;
  numSteps : option Z;
  optionType : option string;
  exerciseStyle : option string;
  crrMode : option string;
  crrUInput : option F;
  crrDInput : option F
}.

(** [parsed || dflt] *)
Definition orDefault (parsed : option F) (dflt : F) : F :=
  match parsed with
  | Some v => if falsy v then dflt else v
  | None => dflt
  end.

(** [parseInt(...) || dflt] *)
Definition orDefaultInt (parsed : option Z) (dflt : Z) : Z :=
  match parsed with
  | Some n => if (n =? 0)%Z then dflt else n
  | None => dflt
  end.

(** [document.querySelector('input[name=...]:checked').value] *)
Definition checkedValue (group : option string) : res string :=
  match group with
  | Some v => Ok v
  | None => Err TypeError
  end.

Definition getParams (form : FormValues) : res MarketParams :=
  let S := orDefault (spotPrice form) (of_int 100) in
  let K := orDefault (strikePrice form) (of_int 100) in
  let r := orDefault (riskFreeRate form) (of_int 5) / of_int 100 in
  let sigma := orDefault (volatility form) (of_int 20) / of_int 100 in
  let T := orDefault (timeToMaturity form) (of_int 1) in
  let N := orDefaultInt (numSteps form) 3 in
  kind ← checkedValue (optionType form);
  let isCall := String.eqb kind "call" in
  style ← checkedValue (exerciseStyle form);
  let isAmerican := String.eqb style "american" in
  mode ← checkedValue (crrMode form);
  let isCustomUD := String.eqb mode "custom" in
  let customU := orDefault (crrUInput form) onePointOne in
  let customD := orDefault (crrDInput form) zeroPointNine in
  Ok {| S_ := S; K_ := K; r_ := r; sigma_ := sigma; T_ := T;
        N_ := Z.min (Z.max N 1) 20;
        isCall_ := isCall; isAmerican_ := isAmerican;
        isCustomUD_ := isCustomUD;
        customU_ := Some customU; customD_ := Some customD |}.

End Form.
End Form.

Module Renderer.
Section Renderer.
Context {F : Type} `{Num F}.
Local Open Scope num_scope.

Record Padding := { top : F; right : F; bottom : F; left : F }.
Record Point := { x : F; y : F }.

(** The calls made on the canvas context, in the order they are made. *)
Inductive command :=
  | SetStrokeStyle (colour : string)
  | SetLineWidth (w : F)
  | BeginPath
  | MoveTo (px py : F)
  | LineTo (px py : F)
  | Stroke.

Definition calculatePositions (N : Z) (padding : Padding)
    (availableWidth availableHeight : F) : res (tree Point) :=
  let stepWidth := availableWidth / of_int N in
  forM (upto N) (fun i positions =>
    let positions := aset positions i [] in
    let numNodes := (i + 1)%nat in
    let stepHeight := availableHeight / (of_int N + fone) in
    let startY :=
      top padding + (of_int N - of_int (Z.of_nat i)) * stepHeight / of_int 2 in
    forM (seq 0 (i + 1)) (fun j positions =>
      let x := left padding + of_int (Z.of_nat i) * stepWidth in
      let y := startY + of_int (Z.of_nat j) * stepHeight in
      store positions i j {| x := x; y := y |}) positions) [].

(** [positions[i][j]] used as an object: reading [.x] of it throws when the
    row or the cell is undefined. *)
Definition point (positions : tree Point) (i j : nat) : res Point :=
  r ← row positions i;
  match aget r j with
  | Some pt => Ok pt
  | None => Err TypeError
  end.

(** [grid] is [this.colors.grid]; [ctx] is the log of the calls made so far,
    and the calls made before an exception are not kept. *)
Definition drawEdges (grid : string) (positions : tree Point) (N : Z)
    (ctx : list command) : res (list command) :=
  let ctx := ctx ++ [SetStrokeStyle grid] in
  let ctx := ctx ++ [SetLineWidth fone] in
  forM (below N) (fun i ctx =>
    forM (seq 0 (i + 1)) (fun j ctx =>
      from ← point positions i j;
      toUp ← point positions (i + 1) (j + 1);
      let ctx := ctx ++ [BeginPath; MoveTo (x from) (y from);
                         LineTo (x toUp) (y toUp); Stroke] in
      toDown ← point positions (i + 1) j;
      let ctx := ctx ++ [BeginPath; MoveTo (x from) (y from);
                         LineTo (x toDown) (y toDown); Stroke] in
      Ok ctx) ctx) ctx.

(** The position the layout gives to node [(i, j)]. *)
Definition positionAt (N : Z) (padding : Padding)
    (availableWidth availableHeight : F) (i j : nat) : Point :=
  {| x := left padding + of_int (Z.of_nat i) * (availableWidth / of_int N);
     y := top padding
          + (of_int N - of_int (Z.of_nat i))
            * (availableHeight / (of_int N + fone)) / of_int 2
          + of_int (Z.of_nat j) * (availableHeight / (of_int N + fone)) |}.

(** The line segments of a log: each [MoveTo] followed by a [LineTo]. *)
Fixpoint segments (ctx : list command) : list (Point * Point) :=
  match ctx with
  | MoveTo ax ay :: ((LineTo bx by_ :: _) as rest) =>
      ({| x := ax; y := ay |}, {| x := bx; y := by_ |}) :: segments rest
  | _ :: rest => segments rest
  | [] => []
  end.

(** The two segments that leave node [(i, j)], and those of a whole row and
    of the rows below [m], in drawing order. *)
Definition edgesOf (pos : nat -> nat -> Point) (i j : nat) : list (Point * Point) :=
  [(pos i j, pos (i + 1)%nat (j + 1)%nat); (pos i j, pos (i + 1)%nat j)].

Definition edgesBelow (pos : nat -> nat -> Point) (m : nat) : list (Point * Point) :=
  seq 0 m ≫= fun i => seq 0 (i + 1)%nat ≫= fun j => edgesOf pos i j.

(** The calls [drawEdges] makes for node [(i, j)], for the first [m] nodes
    of row [i], and for the rows below [m]. *)
Definition edgeCommands (pos : nat -> nat -> Point) (i j : nat) : list command :=
  [BeginPath; MoveTo (x (pos i j)) (y (pos i j));
   LineTo (x (pos (i + 1)%nat (j + 1)%nat)) (y (pos (i + 1)%nat (j + 1)%nat));
   Stroke;
   BeginPath; MoveTo (x (pos i j)) (y (pos i j));
   LineTo (x (pos (i + 1)%nat j)) (y (pos (i + 1)%nat j)); Stroke].

Definition commandsInRow (pos : nat -> nat -> Point) (i m : nat) : list command :=
  seq 0 m ≫= edgeCommands pos i.

Definition commandsBelow (pos : nat -> nat -> Point) (m : nat) : list command :=
  seq 0 m ≫= fun i => commandsInRow pos i (i + 1)%nat.

End Renderer.
End Renderer.

(** A form as the page shows it first, with the custom factors switched on. *)
Definition defaultForm : @Form.FormValues R :=
  {| Form.spotPrice := Some 100%R; Form.strikePrice := Some 100%R;
     Form.riskFreeRate := Some 5%R; Form.volatility := Some 20%R;
     Form.timeToMaturity := Some 1%R; Form.numSteps := Some 3%Z;
     Form.optionType := Some "call"%string;
     Form.exerciseStyle := Some "american"%string;
     Form.crrMode := Some "custom"%string;
     Form.crrUInput := Some 2%R; Form.crrDInput := Some (1 / 2)%R |}.


(** A two-step put whose factors are derived from the volatility. *)
Definition derivedRequest : @MarketParams R :=
  {| S_ := 100%R; K_ := 110%R; r_ := (5 / 100)%R; sigma_ := (3 / 10)%R;
     T_ := 1%R; N_ := 2%Z; isCall_ := false; isAmerican_ := true;
     isCustomUD_ := false; customU_ := None; customD_ := None |}.

(** * Proofs *)

(** ** The array and loop primitives on small inputs *)

Example aset_inside : aset [Some 1; Some 2] 0 9 = [Some 9; Some 2].
Proof. reflexivity. Qed.

Example aset_at_end : aset [Some 1] 1 9 = [Some 1; Some 9].
Proof. reflexivity. Qed.

Example aset_past_end : aset [Some 1] 3 9 = [Some 1; None; None; Some 9].
Proof. reflexivity. Qed.

Example aget_hole : aget [Some 1; None; Some 3] 1 = None.
Proof. reflexivity. Qed.

Example aget_past_end : aget [Some 1] 4 = None.
Proof. reflexivity. Qed.

Example store_in_missing_row : store ([Some []] : tree nat) 1 0 7 = Err TypeError.
Proof. reflexivity. Qed.

Example store_in_row : store ([Some []; Some []] : tree nat) 1 0 7 = Ok [Some []; Some [Some 7]].
Proof. reflexivity. Qed.

Example cell_of_hole : cell ([Some [Some 1]] : tree nat) 0 1 = Err UndefinedNumber.
Proof. reflexivity. Qed.

Example upto_two : upto 2 = [0; 1; 2].
Proof. reflexivity. Qed.

Example upto_negative : upto (-1) = [].
Proof. reflexivity. Qed.

Example below_two : below 2 = [0; 1].
Proof. reflexivity. Qed.

Example downfrom_three : downfrom 3 = [2; 1; 0].
Proof. reflexivity. Qed.

(** ** Arrays filled in index order *)

Section Arrays.
Context {A : Type}.
Implicit Types (f : nat -> A) (g : nat -> nat -> A) (len : nat -> nat).

Lemma length_cells f n : length (cells f n) = n.
Proof. unfold cells. by rewrite length_fmap, length_seq. Qed.

Lemma length_rows g len m : length (rows g len m) = m.
Proof. unfold rows. by rewrite length_fmap, length_seq. Qed.

Lemma lookup_cells f n j : j < n -> cells f n !! j = Some (Some (f j)).
Proof. intros. unfold cells. by rewrite list_lookup_fmap, lookup_seq_lt. Qed.

Lemma aget_cells f n j : j < n -> aget (cells f n) j = Some (f j).
Proof. intros. unfold aget. by rewrite lookup_cells. Qed.

Lemma aget_cells_ge f n j : n <= j -> aget (cells f n) j = None.
Proof.
  intros. unfold aget. rewrite lookup_ge_None_2; [done|].
  by rewrite length_cells.
Qed.

Lemma cells_ext f f' n :
  (forall j, j < n -> f j = f' j) -> cells f n = cells f' n.
Proof.
  intros Hf. apply list_eq. intros j. destruct (decide (j < n)).
  - rewrite !lookup_cells by done. by rewrite Hf.
  - rewrite !lookup_ge_None_2; [done| |]; rewrite length_cells; lia.
Qed.

Lemma cells_snoc f n : cells f (n + 1) = cells f n ++ [Some (f n)].
Proof. unfold cells. by rewrite Nat.add_1_r, seq_S, fmap_app. Qed.

(** Writing the next free cell appends it. *)
Lemma aset_cells f n : aset (cells f n) n (f n) = cells f (n + 1).
Proof.
  unfold aset. rewrite length_cells. case_decide; [lia|].
  by rewrite Nat.sub_diag, cells_snoc.
Qed.

Lemma lookup_rows g len m i :
  i < m -> rows g len m !! i = Some (Some (cells (g i) (len i))).
Proof. intros. unfold rows. by rewrite list_lookup_fmap, lookup_seq_lt. Qed.

Lemma aget_rows g len m i :
  i < m -> aget (rows g len m) i = Some (cells (g i) (len i)).
Proof. intros. unfold aget. by rewrite lookup_rows. Qed.

Lemma aget_rows_ge g len m i : m <= i -> aget (rows g len m) i = None.
Proof.
  intros. unfold aget. rewrite lookup_ge_None_2; [done|].
  by rewrite length_rows.
Qed.

Lemma rows_ext g g' len len' m :
  (forall i, i < m -> len i = len' i) ->
  (forall i j, i < m -> j < len i -> g i j = g' i j) ->
  rows g len m = rows g' len' m.
Proof.
  intros Hlen Hg. apply list_eq. intros i. destruct (decide (i < m)).
  - rewrite !lookup_rows by done. rewrite <- Hlen by done.
    do 2 f_equal. apply cells_ext. auto.
  - rewrite !lookup_ge_None_2; [done| |]; rewrite length_rows; lia.
Qed.

(** [t[m] = []] on a lattice of [m] rows adds an empty row. *)
Lemma aset_rows_new g len len' m :
  len' m = 0 -> (forall i, i < m -> len' i = len i) ->
  aset (rows g len m) m [] = rows g len' (m + 1).
Proof.
  intros H0 Hlen. unfold aset. rewrite length_rows. case_decide; [lia|].
  rewrite Nat.sub_diag. simpl. unfold rows at 2.
  rewrite Nat.add_1_r, seq_S, fmap_app. simpl. rewrite H0. f_equal.
  apply rows_ext; auto. intros. symmetry. auto.
Qed.

Lemma row_rows g len m i :
  i < m -> row (rows g len m) i = Ok (cells (g i) (len i)).
Proof. intros. unfold row. by rewrite aget_rows. Qed.

Lemma row_rows_ge g len m i : m <= i -> row (rows g len m) i = Err TypeError.
Proof. intros. unfold row. by rewrite aget_rows_ge. Qed.

Lemma cell_rows g len m i j :
  i < m -> j < len i -> cell (rows g len m) i j = Ok (g i j).
Proof.
  intros. unfold cell. rewrite row_rows by done. simpl.
  by rewrite aget_cells.
Qed.

(** [t[i][j] = g i j] at the next free cell of row [i] extends that row. *)
Lemma store_rows g len len' m i j :
  i < m -> len i = j -> len' i = j + 1 ->
  (forall k, k < m -> k <> i -> len' k = len k) ->
  store (rows g len m) i j (g i j) = Ok (rows g len' m).
Proof.
  intros Hi Hj Hj' Hlen. unfold store. rewrite row_rows by done. simpl.
  f_equal. rewrite Hj, aset_cells. unfold aset. rewrite length_rows.
  case_decide; [|lia]. apply list_eq. intros k.
  rewrite list_lookup_insert, length_rows. case_decide as Hk.
  - destruct Hk as [<- _]. rewrite lookup_rows by done. by rewrite Hj'.
  - destruct (decide (k < m)).
    + rewrite !lookup_rows by done. rewrite Hlen; [done..|]. naive_solver.
    + rewrite !lookup_ge_None_2; [done| |]; rewrite length_rows; lia.
Qed.

Lemma cell_triangle g n i j :
  j <= i <= n -> cell (triangle g n) i j = Ok (g i j).
Proof. intros. unfold triangle. by rewrite cell_rows by lia. Qed.

Lemma row_triangle g n i :
  i <= n -> row (triangle g n) i = Ok (cells (g i) (i + 1)).
Proof. intros. unfold triangle. by rewrite row_rows by lia. Qed.

Lemma length_triangle g n : length (triangle g n) = n + 1.
Proof. apply length_rows. Qed.

Lemma nodeCount_rows g len m :
  nodeCount (rows g len m) = sum_list_with len (seq 0 m).
Proof.
  unfold nodeCount, rows. generalize (seq 0 m) as l.
  induction l as [|i l IH]; [done|].
  rewrite fmap_cons. simpl. rewrite length_cells. f_equal. exact IH.
Qed.

Lemma nodeCount_triangle g n :
  2 * nodeCount (triangle g n) = (n + 1) * (n + 2).
Proof.
  unfold triangle. rewrite nodeCount_rows.
  induction n as [|n IH]; [done|].
  replace (S n + 1) with (S (n + 1)) by lia.
  rewrite seq_S, sum_list_with_app. simpl. lia.
Qed.

End Arrays.

(** ** Loops whose states are known in advance *)

Section Loops.
Context {St : Type}.
Implicit Types (body : nat -> St -> res St) (st : nat -> St).

Lemma forM_app l1 l2 body s :
  forM (l1 ++ l2) body s = (s' ← forM l1 body s; forM l2 body s').
Proof.
  revert s. induction l1 as [|i l1 IH]; intros s; [done|].
  simpl. destruct (body i s); simpl; auto.
Qed.

(** An upward loop that is in state [st k] before iteration [k]. *)
Lemma forM_seq body st lo n :
  (forall k, lo <= k < lo + n -> body k (st k) = Ok (st (k + 1))) ->
  forM (seq lo n) body (st lo) = Ok (st (lo + n)).
Proof.
  revert lo. induction n as [|n IH]; intros lo Hb; simpl.
  - by rewrite Nat.add_0_r.
  - rewrite Hb by lia. simpl. rewrite Nat.add_1_r, IH.
    + f_equal. f_equal. lia.
    + intros k Hk. rewrite <- Nat.add_1_r. apply Hb. lia.
Qed.

(** A downward loop that is in state [st (k + 1)] before iteration [k]. *)
Lemma forM_rev_seq body st n :
  (forall k, k < n -> body k (st (k + 1)) = Ok (st k)) ->
  forM (rev (seq 0 n)) body (st n) = Ok (st 0).
Proof.
  induction n as [|n IH]; intros Hb; [done|].
  rewrite seq_S, rev_app_distr. simpl.
  rewrite <- Nat.add_1_r, Hb by lia. simpl. apply IH.
  intros k Hk. apply Hb. lia.
Qed.

End Loops.

(** ** The loops of the engine *)

Ltac fill_lia := intros; unfold fill, fillUp in *; repeat case_decide; lia.

Lemma upto_nat n : upto (Z.of_nat n) = seq 0 (n + 1).
Proof. unfold upto. f_equal. lia. Qed.

Lemma below_nat n : below (Z.of_nat n) = seq 0 n.
Proof. unfold below. f_equal. lia. Qed.

Lemma downfrom_nat n : downfrom (Z.of_nat n) = rev (seq 0 n).
Proof. unfold downfrom. do 2 f_equal. lia. Qed.

Lemma upto_neg N : (N < 0)%Z -> upto N = [].
Proof. intros. unfold upto. by replace (Z.to_nat (N + 1)) with 0 by lia. Qed.

Lemma below_neg N : (N < 0)%Z -> below N = [].
Proof. intros. unfold below. by replace (Z.to_nat N) with 0 by lia. Qed.

Lemma downfrom_neg N : (N < 0)%Z -> downfrom N = [].
Proof. intros. unfold downfrom. by replace (Z.to_nat N) with 0 by lia. Qed.

Section Closed.
Context {F : Type} `{Num F}.

Lemma buildStockTree_nat S u d n :
  buildStockTree S u d (Z.of_nat n) = Ok (triangle (stockAt S u d) n).
Proof.
  unfold buildStockTree, triangle. rewrite upto_nat.
  set (g := stockAt S u d).
  change (@nil (option (jsarray F))) with (rows g (fun k => k + 1) 0).
  apply (forM_seq _ (fun i => rows g (fun k => k + 1) i) 0 (n + 1)).
  intros i _.
  rewrite (aset_rows_new g _ (fillUp i 0)) by fill_lia.
  rewrite (forM_seq _ (fun j => rows g (fillUp i j) (i + 1)) 0 (i + 1)).
  - f_equal. apply rows_ext; [fill_lia | done].
  - intros j Hj. apply (store_rows g); fill_lia.
Qed.

Lemma buildStockTree_neg S u d N :
  (N < 0)%Z -> buildStockTree S u d N = Ok [].
Proof. intros. unfold buildStockTree. by rewrite upto_neg. Qed.

End Closed.

Section Pricers.
Context {F : Type} `{Num F}.
Variable s : nat -> nat -> F.
Variables K p discount : F.
Variable isCall : bool.
Variable n : nat.

(** The stock lattice handed to the pricers has its nodes [(i, j)],
    [j <= i <= n], defined: [s i j] is the price stored there. *)
Variable stockTree : tree F.
Hypothesis stock_defined :
  forall i j, j <= i <= n -> cell stockTree i j = Ok (s i j).

(** The first loop of both pricers leaves [n + 1] empty rows in each
    lattice. *)
Lemma init_loop (V : nat -> nat -> F) (Fl : nat -> nat -> bool) :
  forM (seq 0 (n + 1)) (fun i '(optionTree, earlyExercise) =>
    Ok (aset optionTree i [], aset earlyExercise i []))
    (([] : tree F), ([] : tree bool)) =
  Ok (rows V (fill n 0) (n + 1), rows Fl (fill n 0) (n + 1)).
Proof.
  change (([] : tree F), ([] : tree bool))
    with ((fun i => (rows V (fun _ => 0) i, rows Fl (fun _ => 0) i)) 0).
  rewrite forM_seq with (st := fun i => (rows V (fun _ => 0) i, rows Fl (fun _ => 0) i)).
  - simpl. do 2 f_equal; apply rows_ext; solve [done | fill_lia].
  - intros i _.
    by rewrite (aset_rows_new V _ (fun _ => 0)), (aset_rows_new Fl _ (fun _ => 0)).
Qed.

(** The second loop fills the terminal row. *)
Lemma terminal_loop (V : nat -> nat -> F) (Fl : nat -> nat -> bool) :
  (forall j, V n j = payoff (s n j) K isCall) ->
  (forall j, Fl n j = false) ->
  forM (seq 0 (n + 1)) (fun j '(optionTree, earlyExercise) =>
    s ← cell stockTree n j;
    optionTree ← store optionTree n j (payoff s K isCall);
    earlyExercise ← store earlyExercise n j false;
    Ok (optionTree, earlyExercise))
    (rows V (fill n 0) (n + 1), rows Fl (fill n 0) (n + 1)) =
  Ok (rows V (fill n (n + 1)) (n + 1), rows Fl (fill n (n + 1)) (n + 1)).
Proof.
  intros HV HFl.
  apply (forM_seq _ (fun j => (rows V (fill n j) (n + 1), rows Fl (fill n j) (n + 1))) 0).
  intros j Hj. rewrite stock_defined by lia. simpl.
  rewrite <- HV, <- (HFl j).
  rewrite (store_rows V _ (fill n (j + 1))) by fill_lia. simpl.
  by rewrite (store_rows Fl _ (fill n (j + 1))) by fill_lia.
Qed.

Local Abbreviation EV := (europeanAt s K p discount isCall n).
Local Abbreviation AV := (americanAt s K p discount isCall n).
Local Abbreviation AF := (americanFlagAt s K p discount isCall n).

Lemma backward_european :
  forM (rev (seq 0 n)) (fun i st =>
    forM (seq 0 (i + 1)) (fun j '(optionTree, earlyExercise) =>
      vu ← cell optionTree (i + 1) (j + 1);
      vd ← cell optionTree (i + 1) j;
      let holdValue := (discount * (p * vu + (fone - p) * vd))%num in
      optionTree ← store optionTree i j holdValue;
      earlyExercise ← store earlyExercise i j false;
      Ok (optionTree, earlyExercise)) st)
    (rows EV (fill n (n + 1)) (n + 1), rows noFlag (fill n (n + 1)) (n + 1)) =
  Ok (triangle EV n, triangle noFlag n).
Proof.
  pose (st := fun i => (rows EV (fill i (i + 1)) (n + 1),
                        rows noFlag (fill i (i + 1)) (n + 1))).
  change (rows EV (fill n (n + 1)) (n + 1), rows noFlag (fill n (n + 1)) (n + 1))
    with (st n).
  rewrite forM_rev_seq with (st := st).
  - unfold st, triangle. do 2 f_equal; apply rows_ext; solve [done | fill_lia].
  - intros i Hi.
    assert (st (i + 1) = (rows EV (fill i 0) (n + 1), rows noFlag (fill i 0) (n + 1)))
      as -> by (unfold st; f_equal; apply rows_ext; solve [done | fill_lia]).
    apply (forM_seq _ (fun j => (rows EV (fill i j) (n + 1),
                                 rows noFlag (fill i j) (n + 1))) 0).
    intros j Hj.
    rewrite !cell_rows by fill_lia. simpl.
    assert (EV i j = holdOf p discount (EV (i + 1) (j + 1)) (EV (i + 1) j)) as Hv.
    { unfold europeanAt. by replace (n - i) with (S (n - (i + 1))) by lia. }
    unfold holdOf in Hv. rewrite <- Hv.
    rewrite (store_rows EV _ (fill i (j + 1))) by fill_lia. simpl.
    by rewrite (store_rows noFlag _ (fill i (j + 1)) _ i j) by fill_lia.
Qed.

Lemma backward_american :
  forM (rev (seq 0 n)) (fun i st =>
    forM (seq 0 (i + 1)) (fun j '(optionTree, earlyExercise) =>
      vu ← cell optionTree (i + 1) (j + 1);
      vd ← cell optionTree (i + 1) j;
      let holdValue := (discount * (p * vu + (fone - p) * vd))%num in
      s ← cell stockTree i j;
      let exerciseValue := payoff s K isCall in
      if (exerciseValue >? holdValue)%num then
        optionTree ← store optionTree i j exerciseValue;
        earlyExercise ← store earlyExercise i j true;
        Ok (optionTree, earlyExercise)
      else
        optionTree ← store optionTree i j holdValue;
        earlyExercise ← store earlyExercise i j false;
        Ok (optionTree, earlyExercise)) st)
    (rows AV (fill n (n + 1)) (n + 1), rows AF (fill n (n + 1)) (n + 1)) =
  Ok (triangle AV n, triangle AF n).
Proof.
  pose (st := fun i => (rows AV (fill i (i + 1)) (n + 1),
                        rows AF (fill i (i + 1)) (n + 1))).
  change (rows AV (fill n (n + 1)) (n + 1), rows AF (fill n (n + 1)) (n + 1))
    with (st n).
  rewrite forM_rev_seq with (st := st).
  - unfold st, triangle. do 2 f_equal; apply rows_ext; solve [done | fill_lia].
  - intros i Hi.
    assert (st (i + 1) = (rows AV (fill i 0) (n + 1), rows AF (fill i 0) (n + 1)))
      as -> by (unfold st; f_equal; apply rows_ext; solve [done | fill_lia]).
    apply (forM_seq _ (fun j => (rows AV (fill i j) (n + 1),
                                 rows AF (fill i j) (n + 1))) 0).
    intros j Hj.
    rewrite !cell_rows by fill_lia. simpl.
    rewrite stock_defined by lia. simpl.
    assert (AV i j =
            let h := holdOf p discount (AV (i + 1) (j + 1)) (AV (i + 1) j) in
            let e := payoff (s i j) K isCall in
            if (e >? h)%num then e else h) as Hv.
    { unfold americanAt. by replace (n - i) with (S (n - (i + 1))) by lia. }
    assert (AF i j =
            (payoff (s i j) K isCall >?
             holdOf p discount (AV (i + 1) (j + 1)) (AV (i + 1) j))%num) as Hf.
    { unfold americanFlagAt, americanAt. by replace (n - i) with (S (n - (i + 1))) by lia. }
    unfold holdOf in Hv, Hf. simpl in Hv.
    destruct (fgt _ _) eqn:Hgt; rewrite <- Hv, <- Hf.
    + rewrite (store_rows AV _ (fill i (j + 1))) by fill_lia. simpl.
      by rewrite (store_rows AF _ (fill i (j + 1)) _ i j) by fill_lia.
    + rewrite (store_rows AV _ (fill i (j + 1))) by fill_lia. simpl.
      by rewrite (store_rows AF _ (fill i (j + 1)) _ i j) by fill_lia.
Qed.

Lemma priceEuropean_nat :
  priceEuropean stockTree K p discount isCall (Z.of_nat n) =
  Ok (triangle EV n, triangle noFlag n).
Proof.
  unfold priceEuropean. rewrite upto_nat, downfrom_nat, Nat2Z.id.
  rewrite (init_loop EV noFlag). simpl.
  rewrite (terminal_loop EV noFlag); [simpl; apply backward_european| |done].
  intros j. unfold europeanAt. by rewrite Nat.sub_diag.
Qed.

Lemma priceAmerican_nat :
  priceAmerican stockTree K p discount isCall (Z.of_nat n) =
  Ok (triangle AV n, triangle AF n).
Proof.
  unfold priceAmerican. rewrite upto_nat, downfrom_nat, Nat2Z.id.
  rewrite (init_loop AV AF). simpl.
  rewrite (terminal_loop AV AF); [simpl; apply backward_american| |].
  - intros j. unfold americanAt. by rewrite Nat.sub_diag.
  - intros j. unfold americanFlagAt. by rewrite Nat.sub_diag.
Qed.

End Pricers.

(** A cell that reads as a value lies in a row that exists. *)
Lemma cell_Ok_row {A} (t : tree A) i j v :
  cell t i j = Ok v -> exists r, row t i = Ok r /\ aget r j = Some v.
Proof.
  unfold cell. destruct (row t i) as [r|e]; simpl; [|done].
  destruct (aget r j) as [x|] eqn:Hx; [|done]. intros [= ->]. eauto.
Qed.

Section Pipeline.
Context {F : Type} `{Num F}.

Lemma priceEuropean_neg stockTree K p discount isCall N :
  (N < 0)%Z -> priceEuropean stockTree K p discount isCall N = Ok ([], []).
Proof. intros. unfold priceEuropean. by rewrite upto_neg, downfrom_neg. Qed.

Lemma priceAmerican_neg stockTree K p discount isCall N :
  (N < 0)%Z -> priceAmerican stockTree K p discount isCall N = Ok ([], []).
Proof. intros. unfold priceAmerican. by rewrite upto_neg, downfrom_neg. Qed.

Variable s V : nat -> nat -> F.
Variable Fl : nat -> nat -> bool.
Variable n : nat.

Lemma calculateDelta_triangle :
  calculateDelta (triangle s n) (triangle V n) =
  Ok (if decide (n < 1) then fzero
      else ((V 1 1 - V 1 0) / (s 1 1 - s 1 0))%num).
Proof.
  unfold calculateDelta. rewrite length_triangle.
  repeat case_decide; try lia; [done|].
  by rewrite !cell_triangle by lia.
Qed.

Lemma calculateGamma_triangle :
  calculateGamma (triangle s n) (triangle V n) =
  Ok (if decide (n < 2) then fzero
      else (((V 2 2 - V 2 1) / (s 2 2 - s 2 1)
             - (V 2 1 - V 2 0) / (s 2 1 - s 2 0))
            / (fhalf * (s 2 2 - s 2 0)))%num).
Proof.
  unfold calculateGamma. rewrite length_triangle.
  repeat case_decide; try lia; [done|].
  by rewrite !cell_triangle by lia.
Qed.

Lemma flaggedInRow_succ i m :
  flaggedInRow s V Fl i (m + 1) =
  flaggedInRow s V Fl i m ++ (if Fl i m then [nodeRecord s V i m] else []).
Proof.
  unfold flaggedInRow. rewrite Nat.add_1_r, seq_S, bind_app. simpl.
  by rewrite app_nil_r.
Qed.

Lemma flaggedBelow_succ m :
  flaggedBelow s V Fl (m + 1) =
  flaggedBelow s V Fl m ++ flaggedInRow s V Fl m (m + 1).
Proof.
  unfold flaggedBelow. rewrite Nat.add_1_r at 1. rewrite seq_S, bind_app. simpl.
  by rewrite app_nil_r.
Qed.

Lemma getEarlyExerciseNodes_triangle :
  getEarlyExerciseNodes (triangle s n) (triangle V n) (triangle Fl n) (Z.of_nat n) =
  Ok (flaggedBelow s V Fl n).
Proof.
  unfold getEarlyExerciseNodes. rewrite below_nat.
  apply (forM_seq _ (flaggedBelow s V Fl) 0 n). intros i Hi.
  rewrite flaggedBelow_succ.
  pose (st := fun j => flaggedBelow s V Fl i ++ flaggedInRow s V Fl i j).
  assert (flaggedBelow s V Fl i = st 0) as Hst
    by (unfold st; simpl; by rewrite app_nil_r).
  rewrite Hst at 1. apply (forM_seq _ st 0 (i + 1)). intros j Hj.
  rewrite row_triangle by lia. simpl. rewrite aget_cells by lia.
  unfold st. rewrite flaggedInRow_succ, app_assoc.
  destruct (Fl i j).
  - by rewrite !cell_triangle by lia.
  - by rewrite app_nil_r.
Qed.

(** The collector reads the flags of the steps before [n] only, and the
    stock price and option value of the flagged nodes only. *)
Lemma getEarlyExerciseNodes_cells (stocks values : tree F) (flags : tree bool) :
  (forall i j, j <= i -> i < n -> cell flags i j = Ok (Fl i j)) ->
  (forall i j, j <= i -> i < n -> Fl i j = true ->
     cell stocks i j = Ok (s i j) /\ cell values i j = Ok (V i j)) ->
  getEarlyExerciseNodes stocks values flags (Z.of_nat n) =
  Ok (flaggedBelow s V Fl n).
Proof.
  intros Hflags Hcells. unfold getEarlyExerciseNodes. rewrite below_nat.
  apply (forM_seq _ (flaggedBelow s V Fl) 0 n). intros i Hi.
  rewrite flaggedBelow_succ.
  pose (st := fun j => flaggedBelow s V Fl i ++ flaggedInRow s V Fl i j).
  assert (flaggedBelow s V Fl i = st 0) as Hst
    by (unfold st; simpl; by rewrite app_nil_r).
  rewrite Hst at 1. apply (forM_seq _ st 0 (i + 1)). intros j Hj.
  destruct (cell_Ok_row _ _ _ _ (Hflags i j ltac:(lia) ltac:(lia)))
    as (r & -> & Hr).
  simpl. rewrite Hr. unfold st. rewrite flaggedInRow_succ, app_assoc.
  destruct (Fl i j) eqn:Hfl.
  - destruct (Hcells i j ltac:(lia) ltac:(lia) Hfl) as [-> ->]. done.
  - by rewrite app_nil_r.
Qed.

Lemma getEarlyExerciseNodes_neg stockTree optionTree earlyExercise N :
  (N < 0)%Z ->
  getEarlyExerciseNodes stockTree optionTree earlyExercise N =
  Ok ([] : list (@EarlyExerciseRecord F)).
Proof. intros. unfold getEarlyExerciseNodes. by rewrite below_neg. Qed.

End Pipeline.

(** ** The whole pipeline *)

Section Result.
Context {F : Type} `{Num F}.
Variable params : @MarketParams F.

(** For a step count [N >= 0] the pipeline returns, and its result is the
    three full triangles with the Greeks and records read off them. *)
Lemma priceBinomialTree_nat n :
  N_ params = Z.of_nat n -> priceBinomialTree params = Ok (resultOf params n).
Proof.
  intros HN. unfold priceBinomialTree. fold (crrOf params). rewrite HN.
  rewrite buildStockTree_nat. simpl. fold (stockOf params).
  unfold resultOf, valueOf, flagOf.
  destruct (isAmerican_ params).
  - rewrite (priceAmerican_nat (stockOf params))
      by (intros; by apply cell_triangle).
    simpl. rewrite calculateDelta_triangle. simpl.
    rewrite calculateGamma_triangle. simpl.
    rewrite getEarlyExerciseNodes_triangle. simpl.
    by rewrite cell_triangle by lia.
  - rewrite (priceEuropean_nat (stockOf params))
      by (intros; by apply cell_triangle).
    simpl. rewrite calculateDelta_triangle. simpl.
    rewrite calculateGamma_triangle. simpl.
    by rewrite cell_triangle by lia.
Qed.

(** For a negative step count no level is created, and reading
    [optionTree[0][0]] for the result throws. *)
Lemma priceBinomialTree_neg :
  (N_ params < 0)%Z -> priceBinomialTree params = Err TypeError.
Proof.
  intros HN. unfold priceBinomialTree.
  rewrite buildStockTree_neg by done. simpl.
  destruct (isAmerican_ params).
  - rewrite priceAmerican_neg by done. simpl.
    by rewrite getEarlyExerciseNodes_neg.
  - by rewrite priceEuropean_neg.
Qed.

End Result.

(** ** The list of early-exercise records *)

Section Records.
Context {F : Type}.
Variable s V : nat -> nat -> F.
Variable Fl : nat -> nat -> bool.

Lemma elem_of_flaggedInRow r i m :
  r ∈ flaggedInRow s V Fl i m <->
  exists j, j < m /\ Fl i j = true /\ r = nodeRecord s V i j.
Proof.
  unfold flaggedInRow. rewrite list_elem_of_bind. split.
  - intros (j & Hr & Hj). apply elem_of_seq in Hj. exists j.
    destruct (Fl i j); [|by apply elem_of_nil in Hr].
    apply list_elem_of_singleton in Hr. split_and!; [lia|done|done].
  - intros (j & Hj & Hfl & ->). exists j. rewrite Hfl, elem_of_seq.
    split; [by apply list_elem_of_singleton | lia].
Qed.

Lemma elem_of_flaggedBelow r m :
  r ∈ flaggedBelow s V Fl m <->
  exists i j, i < m /\ j <= i /\ Fl i j = true /\ r = nodeRecord s V i j.
Proof.
  unfold flaggedBelow. rewrite list_elem_of_bind. split.
  - intros (i & Hr & Hi). apply elem_of_seq in Hi.
    apply elem_of_flaggedInRow in Hr as (j & ? & ? & ?).
    exists i, j. split_and!; [lia|lia|done|done].
  - intros (i & j & ? & ? & ? & ?). exists i. rewrite elem_of_seq.
    split; [|lia]. apply elem_of_flaggedInRow. exists j.
    split_and!; [lia|done|done].
Qed.

Lemma flaggedInRow_sorted i m :
  StronglySorted nodeBefore (flaggedInRow s V Fl i m).
Proof.
  induction m as [|m IH]; [constructor|].
  rewrite <- Nat.add_1_r, flaggedInRow_succ. apply StronglySorted_app.
  split_and!; [|done|].
  - intros r1 r2 (j & ? & _ & ->)%elem_of_flaggedInRow Hr2.
    destruct (Fl i m); [|by apply elem_of_nil in Hr2].
    apply list_elem_of_singleton in Hr2 as ->. right. simpl. lia.
  - destruct (Fl i m); repeat constructor.
Qed.

Lemma flaggedBelow_sorted m :
  StronglySorted nodeBefore (flaggedBelow s V Fl m).
Proof.
  induction m as [|m IH]; [constructor|].
  rewrite <- Nat.add_1_r, flaggedBelow_succ. apply StronglySorted_app.
  split_and!; [|done|apply flaggedInRow_sorted].
  intros r1 r2 (i & j & ? & _ & _ & ->)%elem_of_flaggedBelow
               (j' & _ & _ & ->)%elem_of_flaggedInRow.
  left. simpl. lia.
Qed.

End Records.

Lemma nodeBefore_keys {F} (l : list (@EarlyExerciseRecord F)) :
  StronglySorted nodeBefore l -> NoDup (nodeKey <$> l).
Proof.
  induction 1 as [|r l _ IH Hall]; [constructor|].
  rewrite fmap_cons. constructor; [|done].
  intros (r' & Hk & Hr')%list_elem_of_fmap.
  rewrite Forall_forall in Hall. specialize (Hall r' Hr').
  unfold nodeKey in Hk. injection Hk as Hstep Hstate.
  unfold nodeBefore in Hall. lia.
Qed.

(** ** Shape of a full triangle *)

Lemma triangle_populated {A} (g : nat -> nat -> A) n :
  populated (triangle g n) n.
Proof.
  split; [apply length_triangle|]. intros i Hi.
  exists (cells (g i) (i + 1)). rewrite row_triangle by done.
  split_and!; [done|apply length_cells|].
  intros j Hj. exists (g i j). apply aget_cells. lia.
Qed.

Lemma triangle_flag_read (Fl : nat -> nat -> bool) n i j r b :
  row (triangle Fl n) i = Ok r -> aget r j = Some b -> b = Fl i j.
Proof.
  intros Hr Hb. destruct (decide (i <= n)).
  - rewrite row_triangle in Hr by done. injection Hr as <-.
    destruct (decide (j < i + 1)).
    + rewrite aget_cells in Hb by done. congruence.
    + rewrite aget_cells_ge in Hb by lia. done.
  - unfold triangle in Hr. rewrite row_rows_ge in Hr by lia. done.
Qed.

(** ** Backward induction in every arithmetic *)

Section Exercise.
Context {F : Type} `{Num F}.
Variable s : nat -> nat -> F.
Variables K p discount : F.
Variable isCall : bool.

Lemma americanValue_flagged k i j :
  americanFlag s K p discount isCall k i j = true ->
  americanValue s K p discount isCall k i j = payoff (s i j) K isCall.
Proof. destruct k; simpl; [done|]. by intros ->. Qed.

(** The payoff is never greater than the value stored by American pricing,
    in an arithmetic in which no number is greater than itself. *)
Lemma americanValue_not_exceeded k i j :
  (forall x : F, fgt x x = false) ->
  fgt (payoff (s i j) K isCall) (americanValue s K p discount isCall k i j) = false.
Proof.
  intros Hirr. destruct k; simpl; [apply Hirr|].
  set (e := payoff (s i j) K isCall). set (h := holdOf _ _ _ _).
  destruct (fgt e h) eqn:Hgt; [apply Hirr|done].
Qed.

End Exercise.

(** ** Real arithmetic *)

Lemma Rgtb_true x y : (x > y)%R -> Rgtb x y = true.
Proof. intros. unfold Rgtb. destruct (Rgt_dec x y); [done|lra]. Qed.

Lemma Rgtb_false x y : (x <= y)%R -> Rgtb x y = false.
Proof. intros. unfold Rgtb. destruct (Rgt_dec x y); [lra|done]. Qed.

Lemma Rgtb_irrefl x : Rgtb x x = false.
Proof. apply Rgtb_false. lra. Qed.

(** Evaluation of the maxima and comparisons of a goal whose numbers are
    literals. *)
Ltac eval_real :=
  repeat match goal with
  | |- context [Rmax ?a ?b] =>
      first [rewrite (Rmax_left a b) by lra | rewrite (Rmax_right a b) by lra]
  end;
  repeat match goal with
  | |- context [Rgtb ?a ?b] =>
      first [rewrite (Rgtb_true a b) by lra | rewrite (Rgtb_false a b) by lra]
  end.

(** ** Binary64 arithmetic *)



(** Comparisons of doubles: swapping the arguments, and a number against
    itself. *)
Lemma SFcompare_swap x y : SFcompare y x = CompOpp <$> SFcompare x y.
Proof.
  assert (forall m1 m2, PosDef.Pos.compare_cont Eq m2 m1 =
            CompOpp (PosDef.Pos.compare_cont Eq m1 m2)) as Hpos.
  { intros m1 m2. symmetry. apply (Pos.compare_cont_antisym m1 m2 Eq). }
  destruct x as [sx|sx| |sx mx ex], y as [sy|sy| |sy my ey]; simpl; try done;
    try (by destruct sx); try (by destruct sy); try (by destruct sx, sy).
  destruct sx, sy; simpl; try done.
  - rewrite (Z.compare_antisym ex ey), Hpos.
    destruct (ex ?= ey)%Z; simpl; rewrite ?CompOpp_involutive; done.
  - rewrite (Z.compare_antisym ex ey), Hpos.
    by destruct (ex ?= ey)%Z.
Qed.

Lemma SFcompare_refl x : x <> S754_nan -> SFcompare x x = Some Eq.
Proof.
  destruct x as [sx|sx| |sx mx ex]; simpl; try done; try (by destruct sx).
  intros _. rewrite Z.compare_refl.
  change (PosDef.Pos.compare_cont Eq mx mx) with (Pos.compare mx mx).
  rewrite Pos.compare_refl. by destruct sx.
Qed.

Lemma SFcompare_None x y :
  SFcompare x y = None -> x = S754_nan \/ y = S754_nan.
Proof.
  destruct x as [sx|sx| |sx mx ex], y as [sy|sy| |sy my ey]; simpl; auto;
    try done; try (by destruct sx); try (by destruct sy); by destruct sx, sy.
Qed.

Lemma is_nan_spec x :
  is_nan x = match Prim2SF x with S754_nan => true | _ => false end.
Proof.
  unfold is_nan. rewrite FloatAxioms.eqb_spec. unfold SFeqb.
  destruct (Prim2SF x) eqn:Hx; first [by rewrite SFcompare_refl | done].
Qed.

Lemma ltb_irrefl x : (x <? x)%float = false.
Proof.
  rewrite ltb_spec. unfold SFltb.
  destruct (Prim2SF x) eqn:Hx; first [by rewrite SFcompare_refl | done].
Qed.

Lemma leb_refl x : is_nan x = false -> (x <=? x)%float = true.
Proof.
  rewrite is_nan_spec, leb_spec. unfold SFleb.
  destruct (Prim2SF x) eqn:Hx; try done; intros _; by rewrite SFcompare_refl.
Qed.

(** Of two numbers, the one that is not less than the other is greater than
    or equal to it. *)
Lemma leb_of_not_ltb x y :
  is_nan x = false -> is_nan y = false ->
  (y <? x)%float = false -> (x <=? y)%float = true.
Proof.
  rewrite !is_nan_spec, ltb_spec, leb_spec. unfold SFltb, SFleb.
  rewrite (SFcompare_swap (Prim2SF x) (Prim2SF y)). intros Hx Hy.
  destruct (SFcompare (Prim2SF x) (Prim2SF y)) as [[]|] eqn:Hc; simpl; try done.
  apply SFcompare_None in Hc as [Hn|Hn]; rewrite Hn in *; done.
Qed.

(** ** The order of binary64

    The operations [*], [+] and [-] of binary64 round the exact result to
    the nearest double, so they are monotone wherever they do not produce
    NaN.  This is derived here from the specification of the operations in
    the Standard Library ([SFmul], [SFadd], [SFsub] over [binary_round_aux]),
    by way of the rank of a double.  The same analysis of [SFdiv] bounds the
    product of a double and its rounded inverse. *)

Section DoubleOrder.
Local Open Scope Z_scope.

(** *** Rounding to nearest, ties to even, on integers *)
Lemma digits2_pos_size m : digits2_pos m = Pos.size m.
Proof. induction m as [m IH|m IH|]; simpl; by rewrite ?IH. Qed.

Lemma Zdigits2_log2 m : Zdigits2 (Zpos m) = Z.log2 (Zpos m) + 1.
Proof.
  simpl. rewrite digits2_pos_size. destruct m as [m|m|]; simpl; try done; lia.
Qed.

Lemma log2_bounds M : 0 < M -> 2 ^ Z.log2 M <= M < 2 ^ (Z.log2 M + 1).
Proof. intros HM. apply Z.log2_spec in HM. by rewrite <- Z.add_1_r in HM. Qed.

Lemma rne_bounds N t : 0 <= N -> N / 2 <= rne N t <= (N + 1) / 2.
Proof.
  intros HN. unfold rne.
  destruct (Z.eqb_spec (N mod 2) 0) as [H0|H0]; [|destruct t; [|destruct (Z.even (N / 2))]];
    Z.div_mod_to_equations; lia.
Qed.

Lemma rne_mono N t N' t' :
  0 <= N -> N < N' \/ (N = N' /\ (t = true -> t' = true)) ->
  rne N t <= rne N' t'.
Proof.
  intros HN [Hlt|[<- Ht]].
  - pose proof (rne_bounds N' t' ltac:(lia)) as Hb'.
    assert ((N + 1) / 2 <= N' / 2) as Hh by (Z.div_mod_to_equations; lia).
    assert (rne N t <= (N + 1) / 2) as Hb by (apply rne_bounds; lia).
    lia.
  - unfold rne. destruct (Z.eqb_spec (N mod 2) 0) as [H0|H0]; [lia|].
    destruct t, t'; try (specialize (Ht eq_refl)); try done; try lia.
    destruct (Z.even (N / 2)); lia.
Qed.

Lemma pow2_pos k : 0 <= k -> 0 < 2 ^ k.
Proof. intros. by apply Z.pow_pos_nonneg. Qed.

Lemma roundAt_nonneg k M : 0 <= M -> 0 <= roundAt k M.
Proof.
  intros HM. unfold roundAt. destruct (Z.leb_spec k 0); [done|].
  pose proof (pow2_pos k ltac:(lia)) as HP.
  assert (0 <= 2 * M / 2 ^ k) as HN by (apply Z.div_pos; lia).
  pose proof (rne_bounds _ (negb (2 * M mod 2 ^ k =? 0)) HN) as Hb.
  assert (0 <= 2 * M / 2 ^ k / 2) by (apply Z.div_pos; lia). lia.
Qed.

Lemma roundAt_mono k M M' : 0 <= M <= M' -> roundAt k M <= roundAt k M'.
Proof.
  intros HM. unfold roundAt. destruct (Z.leb_spec k 0); [lia|].
  pose proof (pow2_pos k ltac:(lia)) as HP.
  assert (0 <= 2 * M / 2 ^ k) as HN by (apply Z.div_pos; lia).
  apply rne_mono; [done|].
  assert (2 * M / 2 ^ k <= 2 * M' / 2 ^ k) as Hle
    by (apply Z.div_le_mono; lia).
  destruct (Z.eq_dec (2 * M / 2 ^ k) (2 * M' / 2 ^ k)) as [Heq|Hne]; [right|left; lia].
  split; [done|].
  pose proof (Z.div_mod (2 * M) (2 ^ k) ltac:(lia)) as H1.
  pose proof (Z.div_mod (2 * M') (2 ^ k) ltac:(lia)) as H2.
  pose proof (Z.mod_pos_bound (2 * M) (2 ^ k) HP) as H3.
  pose proof (Z.mod_pos_bound (2 * M') (2 ^ k) HP) as H4.
  rewrite <- Heq in H2.
  destruct (Z.eqb_spec (2 * M mod 2 ^ k) 0), (Z.eqb_spec (2 * M' mod 2 ^ k) 0);
    simpl; try done. lia.
Qed.

Lemma roundAt_lower k M : 0 <= M -> 0 <= k -> M / 2 ^ k <= roundAt k M.
Proof.
  intros HM Hk. unfold roundAt. destruct (Z.leb_spec k 0).
  - assert (k = 0) as -> by lia. by rewrite Z.pow_0_r, Z.div_1_r.
  - pose proof (pow2_pos k ltac:(lia)) as HP.
    assert (0 <= 2 * M / 2 ^ k) as HN by (apply Z.div_pos; lia).
    pose proof (rne_bounds _ (negb (2 * M mod 2 ^ k =? 0)) HN) as Hb.
    rewrite Z.div_div in Hb by lia.
    rewrite (Z.mul_comm (2 ^ k) 2), Z.div_mul_cancel_l in Hb by lia. lia.
Qed.

Lemma roundAt_upper k M d :
  0 <= M < 2 ^ d -> 1 <= k <= d -> roundAt k M <= 2 ^ (d - k).
Proof.
  intros HM Hk. unfold roundAt. destruct (Z.leb_spec k 0); [lia|].
  pose proof (pow2_pos k ltac:(lia)) as HP.
  assert (0 <= 2 * M / 2 ^ k) as HN by (apply Z.div_pos; lia).
  pose proof (rne_bounds _ (negb (2 * M mod 2 ^ k =? 0)) HN) as Hb.
  assert (2 * M / 2 ^ k + 1 <= 2 * 2 ^ (d - k)) as Hlt.
  { assert (2 * M / 2 ^ k < 2 * 2 ^ (d - k)); [|lia].
    apply Z.div_lt_upper_bound; [done|].
    replace (2 ^ k * (2 * 2 ^ (d - k))) with (2 * (2 ^ k * 2 ^ (d - k))) by ring.
    rewrite <- Z.pow_add_r by lia. replace (k + (d - k)) with d by lia. lia. }
  assert ((2 * M / 2 ^ k + 1) / 2 <= 2 ^ (d - k)); [|lia].
  apply Z.div_le_upper_bound; lia.
Qed.

Lemma roundAt_small k M d :
  0 <= M < 2 ^ d -> 0 <= d < k -> roundAt k M = 0.
Proof.
  intros HM Hk. unfold roundAt. destruct (Z.leb_spec k 0); [lia|].
  assert (2 * M < 2 ^ k) as Hlt.
  { assert (2 ^ (d + 1) <= 2 ^ k) by (apply Z.pow_le_mono_r; lia).
    rewrite Z.pow_add_r, Z.pow_1_r in * by lia. lia. }
  rewrite Z.div_small by lia. done.
Qed.

Lemma rne_even X t : rne (2 * X) t = X.
Proof.
  unfold rne. rewrite (Z.mul_comm 2 X), Z.mod_mul, Z.div_mul by lia. done.
Qed.

Lemma roundAt_exact n M s :
  0 <= M -> 0 <= n <= s -> roundAt n (M * 2 ^ s) = M * 2 ^ (s - n).
Proof.
  intros HM Hn. unfold roundAt. destruct (Z.leb_spec n 0).
  - assert (n = 0) as -> by lia. by rewrite Z.sub_0_r.
  - pose proof (pow2_pos n ltac:(lia)) as HP.
    replace (2 * (M * 2 ^ s)) with (2 * (M * 2 ^ (s - n)) * 2 ^ n).
    + rewrite Z.div_mul, Z.mod_mul by lia. apply rne_even.
    + replace s with (s - n + n) at 2 by lia. rewrite Z.pow_add_r by lia. ring.
Qed.

Lemma roundAt_scale n M s :
  0 <= M -> 0 <= s < n -> roundAt n (M * 2 ^ s) = roundAt (n - s) M.
Proof.
  intros HM Hn. unfold roundAt.
  destruct (Z.leb_spec n 0); [lia|]. destruct (Z.leb_spec (n - s) 0); [lia|].
  pose proof (pow2_pos s ltac:(lia)) as HP.
  pose proof (pow2_pos (n - s) ltac:(lia)) as HP'.
  replace (2 ^ n) with (2 ^ (n - s) * 2 ^ s)
    by (rewrite <- Z.pow_add_r by lia; f_equal; lia).
  replace (2 * (M * 2 ^ s)) with (2 * M * 2 ^ s) by ring.
  rewrite Z.div_mul_cancel_r, Z.mul_mod_distr_r by lia.
  f_equal. f_equal.
  destruct (Z.eqb_spec (2 * M mod 2 ^ (n - s)) 0) as [->|Hne]; [done|].
  destruct (Z.eqb_spec (2 * M mod 2 ^ (n - s) * 2 ^ s) 0); [nia|done].
Qed.

Lemma cap_pos : 0 < cap.
Proof. by apply pow2_pos. Qed.

Lemma roundRank_range k0 Y : 0 <= k0 -> 0 <= Y -> 0 <= roundRank k0 Y <= cap.
Proof.
  intros Hk HY. unfold roundRank. pose proof cap_pos.
  set (n := Z.max _ _).
  pose proof (roundAt_nonneg n Y HY).
  pose proof (pow2_pos (n - k0) ltac:(lia)). nia.
Qed.

Lemma roundAt_0 k : roundAt k 0 = 0.
Proof. unfold roundAt. destruct (k <=? 0); [done|]. by rewrite Z.mul_0_r. Qed.

Lemma roundRank_0 k0 : roundRank k0 0 = 0.
Proof. unfold roundRank. rewrite roundAt_0. pose proof cap_pos. lia. Qed.

Lemma roundRank_mono k0 Y Y' :
  0 <= k0 -> 0 <= Y <= Y' -> roundRank k0 Y <= roundRank k0 Y'.
Proof.
  intros Hk [HY HYY'].
  destruct (Z.eq_dec Y 0) as [->|HY0].
  { rewrite roundRank_0. apply roundRank_range; lia. }
  unfold roundRank.
  pose proof (log2_bounds Y ltac:(lia)) as HL.
  pose proof (log2_bounds Y' ltac:(lia)) as HL'.
  pose proof (Z.log2_le_mono Y Y' HYY') as Hmono.
  pose proof (Z.log2_nonneg Y) as HL0.
  set (L := Z.log2 Y) in *. set (L' := Z.log2 Y') in *.
  set (n := Z.max (L - 52) k0). set (n' := Z.max (L' - 52) k0).
  apply Z.min_le_compat_l.
  destruct (Z.eq_dec n n') as [<-|Hn].
  { apply Z.mul_le_mono_nonneg_r; [apply Z.pow_nonneg; lia|].
    apply roundAt_mono; lia. }
  assert (n < n' /\ n' = L' - 52 /\ L + 1 <= L') as (Hnn & Hn' & HLL) by lia.
  transitivity (2 ^ (L' - k0)).
  - destruct (Z.le_gt_cases n (L + 1)) as [Hd|Hd].
    + destruct (Z.eq_dec n 0) as [Hn0|Hn0].
      * assert (k0 = 0) as -> by lia. rewrite Hn0. unfold roundAt. simpl.
        rewrite Z.mul_1_r, Z.sub_0_r.
        assert (2 ^ (L + 1) <= 2 ^ L') by (apply Z.pow_le_mono_r; lia). lia.
      * pose proof (roundAt_upper n Y (L + 1) ltac:(lia) ltac:(lia)) as Hu.
        pose proof (pow2_pos (n - k0) ltac:(lia)) as HP.
        assert (roundAt n Y * 2 ^ (n - k0) <= 2 ^ (L + 1 - n) * 2 ^ (n - k0)) as Hm
          by (apply Z.mul_le_mono_nonneg_r; lia).
        rewrite <- Z.pow_add_r in Hm by lia.
        replace (L + 1 - n + (n - k0)) with (L + 1 - k0) in Hm by lia.
        assert (2 ^ (L + 1 - k0) <= 2 ^ (L' - k0)) by (apply Z.pow_le_mono_r; lia).
        lia.
    + rewrite (roundAt_small n Y (L + 1)) by lia. simpl.
      apply Z.pow_nonneg. lia.
  - pose proof (roundAt_lower n' Y' ltac:(lia) ltac:(lia)) as Hlow.
    assert (2 ^ 52 <= Y' / 2 ^ n') as Hq.
    { apply Z.div_le_lower_bound; [apply pow2_pos; lia|].
      rewrite <- Z.pow_add_r by lia. replace (n' + 52) with L' by lia. lia. }
    replace (L' - k0) with (52 + (n' - k0)) by lia.
    rewrite Z.pow_add_r by lia.
    apply Z.mul_le_mono_nonneg_r; [apply Z.pow_nonneg; lia|lia].
Qed.

(** *** Right shifts of a mantissa *)


Lemma iter_pos_nat {A} (f : A -> A) p x :
  SpecFloat.iter_pos f p x = Nat.iter (Pos.to_nat p) f x.
Proof.
  revert x. induction p as [p IH|p IH|]; intros x;
    cbn [SpecFloat.iter_pos]; [| |done].
  - rewrite !IH, Pos2Nat.inj_xI.
    replace (Datatypes.S (2 * Pos.to_nat p))
      with (Pos.to_nat p + Datatypes.S (Pos.to_nat p))%nat by lia.
    rewrite Nat.iter_add. f_equal. by rewrite Nat.iter_succ_r.
  - rewrite !IH, Pos2Nat.inj_xO.
    replace (2 * Pos.to_nat p)%nat with (Pos.to_nat p + Pos.to_nat p)%nat by lia.
    by rewrite Nat.iter_add.
Qed.

Lemma shr_1_halves mrs :
  0 <= shr_m mrs ->
  0 <= shr_m (shr_1 mrs) /\
  halves (shr_1 mrs) = halves mrs / 2 /\
  shr_s (shr_1 mrs) = (shr_r mrs || shr_s mrs)%bool.
Proof.
  destruct mrs as [m r s]. unfold halves. simpl. intros Hm.
  assert (forall b : bool, (2 * m + (if b then 1 else 0)) / 2 = m) as Hdiv
    by (intros []; Z.div_mod_to_equations; lia).
  rewrite Hdiv. destruct m as [|[p|p|]|p]; simpl; try lia; split_and!; lia || done.
Qed.

Lemma shr_iter_halves k M :
  0 <= M ->
  let mrs := Nat.iter k shr_1 {| shr_m := M; shr_r := false; shr_s := false |} in
  0 <= shr_m mrs /\
  halves mrs = 2 * M / 2 ^ Z.of_nat k /\
  shr_s mrs = negb (2 * M mod 2 ^ Z.of_nat k =? 0).
Proof.
  intros HM. induction k as [|k IH].
  - simpl. unfold halves. simpl. rewrite Z.div_1_r, Z.mod_1_r. lia.
  - cbv zeta in *. rewrite Nat.iter_succ. set (mrs := Nat.iter k _ _) in *.
    destruct IH as (Hm & HN & Hs).
    destruct (shr_1_halves mrs Hm) as (Hm' & HN' & Hs').
    pose proof (pow2_pos (Z.of_nat k) ltac:(lia)) as HP.
    rewrite Nat2Z.inj_succ, Z.pow_succ_r by lia.
    split; [done|]. split.
    + rewrite HN', HN, Z.div_div by lia. f_equal. ring.
    + rewrite Hs', Hs.
      rewrite (Z.mul_comm 2 (2 ^ Z.of_nat k)), Z.rem_mul_r by lia.
      rewrite <- HN.
      pose proof (Z.mod_pos_bound (2 * M) (2 ^ Z.of_nat k) HP) as Hb.
      assert (halves mrs mod 2 = if shr_r mrs then 1 else 0) as ->.
      { unfold halves. destruct (shr_r mrs); Z.div_mod_to_equations; lia. }
      destruct (shr_r mrs), (Z.eqb_spec (2 * M mod 2 ^ Z.of_nat k) 0); simpl;
        symmetry; first [apply Z.eqb_neq; nia | apply Z.eqb_eq; nia | idtac].
      all: match goal with |- negb (?a =? 0) = _ => destruct (Z.eqb_spec a 0) end;
        simpl; try done; nia.
Qed.

Lemma round_nearest_even_rne mrs :
  0 <= shr_m mrs ->
  round_nearest_even (shr_m mrs) (loc_of_shr_record mrs) =
  rne (halves mrs) (shr_s mrs).
Proof.
  destruct mrs as [m r s]. unfold halves, rne. simpl. intros Hm.
  assert (forall b : bool, (2 * m + (if b then 1 else 0)) / 2 = m) as Hdiv
    by (intros []; Z.div_mod_to_equations; lia).
  assert (forall b : bool, (2 * m + (if b then 1 else 0)) mod 2 = if b then 1 else 0)
    as Hmod by (intros []; Z.div_mod_to_equations; lia).
  rewrite Hdiv, Hmod. by destruct r, s.
Qed.

(** [k > 0] right shifts of an exact mantissa, then rounding. *)
Lemma shr_round k M :
  0 <= M -> 0 < k ->
  let '(mrs, e) := shr {| shr_m := M; shr_r := false; shr_s := false |} 0 k in
  e = k /\ 0 <= shr_m mrs /\
  round_nearest_even (shr_m mrs) (loc_of_shr_record mrs) = roundAt k M.
Proof.
  intros HM Hk. destruct k as [|p|p]; try lia. unfold shr.
  rewrite iter_pos_nat.
  destruct (shr_iter_halves (Pos.to_nat p) M HM) as (Hm & HN & Hs).
  rewrite positive_nat_Z in HN, Hs.
  split; [done|]. split; [done|].
  rewrite round_nearest_even_rne, HN, Hs by done.
  unfold roundAt. by destruct (Z.leb_spec (Z.pos p) 0); [lia|].
Qed.

(** *** Rounding a mantissa to 53 bits *)

Lemma fexp64 e : SpecFloat.fexp prec emax e = Z.max (e - 53) (-1074).
Proof. reflexivity. Qed.

Lemma Zdigits2_pos m : 0 < m -> Zdigits2 m = Z.log2 m + 1.
Proof. destruct m as [|m|m]; try lia. intros _. apply Zdigits2_log2. Qed.

Lemma below_cap m t :
  0 <= m < 2 ^ 53 -> -1074 <= t <= 971 -> m * 2 ^ (t + 1074) < cap.
Proof.
  intros Hm Ht. pose proof (pow2_pos (t + 1074) ltac:(lia)) as HP.
  assert (2 ^ 53 * 2 ^ (t + 1074) <= cap) as Hc.
  { rewrite <- Z.pow_add_r by lia. apply Z.pow_le_mono_r; lia. }
  nia.
Qed.

Lemma above_cap m t :
  2 ^ 52 <= m -> 972 <= t -> cap <= m * 2 ^ (t + 1074).
Proof.
  intros Hm Ht. pose proof (pow2_pos (t + 1074) ltac:(lia)) as HP.
  assert (cap <= 2 ^ 52 * 2 ^ (t + 1074)) as Hc.
  { rewrite <- Z.pow_add_r by lia. apply Z.pow_le_mono_r; lia. }
  nia.
Qed.

Lemma shr_stage M E k :
  0 <= M -> 0 <= k ->
  exists mrs,
    shr {| shr_m := M; shr_r := false; shr_s := false |} E k = (mrs, E + k) /\
    0 <= shr_m mrs /\
    round_nearest_even (shr_m mrs) (loc_of_shr_record mrs) = roundAt k M.
Proof.
  intros HM Hk. destruct k as [|p|p]; try lia.
  - eexists. simpl. rewrite Z.add_0_r. split_and!; done.
  - unfold shr. eexists. split; [done|]. rewrite iter_pos_nat.
    destruct (shr_iter_halves (Pos.to_nat p) M HM) as (Hm & HN & Hs).
    rewrite positive_nat_Z in HN, Hs. split; [done|].
    rewrite round_nearest_even_rne, HN, Hs by done.
    unfold roundAt. by destruct (Z.leb_spec (Z.pos p) 0); [lia|].
Qed.

Lemma shr_noop mrs e k : k <= 0 -> shr mrs e k = (mrs, e).
Proof. by destruct k. Qed.

Lemma roundAt_le_pow53 M E :
  let t := Z.max (Z.log2 (Zpos M) + 1 + E - 53) (-1074) in
  E <= t ->
  0 <= roundAt (t - E) (Zpos M) <= 2 ^ 53 /\
  (-1074 < t -> 2 ^ 52 <= roundAt (t - E) (Zpos M)).
Proof.
  intros t Ht.
  pose proof (log2_bounds (Zpos M) ltac:(lia)) as HL.
  pose proof (Z.log2_nonneg (Zpos M)) as HL0.
  set (L := Z.log2 (Zpos M)) in *. set (k := t - E).
  assert (L + 1 - 53 <= k) as Hk by lia.
  split; [split; [apply roundAt_nonneg; lia|]|].
  - destruct (Z.eq_dec k 0) as [->|Hk0].
    + unfold roundAt. simpl.
      assert (2 ^ (L + 1) <= 2 ^ 53) by (apply Z.pow_le_mono_r; lia). lia.
    + destruct (Z.le_gt_cases k (L + 1)) as [Hd|Hd].
      * pose proof (roundAt_upper k (Zpos M) (L + 1) ltac:(lia) ltac:(lia)).
        assert (2 ^ (L + 1 - k) <= 2 ^ 53) by (apply Z.pow_le_mono_r; lia). lia.
      * rewrite (roundAt_small k (Zpos M) (L + 1)) by lia. lia.
  - intros Hnormal. assert (k = L - 52) as Hk' by lia.
    pose proof (roundAt_lower k (Zpos M) ltac:(lia) ltac:(lia)) as Hlow.
    assert (2 ^ 52 <= Zpos M / 2 ^ k); [|lia].
    apply Z.div_le_lower_bound; [apply pow2_pos; lia|].
    rewrite <- Z.pow_add_r by lia. replace (k + 52) with L by lia. lia.
Qed.

(** The second stage of [binary_round_aux]: a mantissa of at most 53 bits,
    or [2 ^ 53], is stored as it is, or as [2 ^ 52] one binade higher. *)
Lemma round_second_stage sx m1 t :
  0 <= m1 <= 2 ^ 53 -> -1074 <= t -> (971 < t -> 2 ^ 52 <= m1) ->
  let x :=
    let '(mrs, e) := shr_fexp prec emax m1 t loc_Exact in
    match shr_m mrs with
    | Z0 => S754_zero sx
    | Zpos m => if e <=? emax - prec then S754_finite sx m e else S754_infinity sx
    | Zneg _ => S754_nan
    end in
  x <> S754_nan /\ rank x = cond_Zopp sx (Z.min cap (m1 * 2 ^ (t + 1074))).
Proof.
  intros Hm1 Ht Hnormal. cbv zeta. unfold shr_fexp. rewrite fexp64.
  change (shr_record_of_loc m1 loc_Exact)
    with {| shr_m := m1; shr_r := false; shr_s := false |}.
  pose proof cap_pos as Hcap.
  destruct (Z.eq_dec m1 0) as [H0|H0].
  { rewrite H0. simpl Zdigits2. rewrite shr_noop by lia. simpl.
    split; [done|]. destruct sx; simpl; lia. }
  rewrite Zdigits2_pos by lia.
  pose proof (log2_bounds m1 ltac:(lia)) as HL1.
  destruct (Z.eq_dec m1 (2 ^ 53)) as [H53|H53].
  - rewrite H53. change (Z.log2 (2 ^ 53)) with 53.
    replace (Z.max (53 + 1 + t - 53) (-1074) - t) with 1 by lia.
    change (2 ^ 53) with 9007199254740992. simpl shr. cbv iota beta.
    simpl shr_m.
    change (emax - prec) with 971.
    destruct (Z.leb_spec (t + 1) 971).
    + split; [done|]. simpl rank. f_equal.
      replace (t + 1 + 1074) with (1 + (t + 1074)) by lia.
      rewrite Z.pow_add_r by lia.
      change 9007199254740992 with (2 ^ 53).
      change (Z.pos 4503599627370496) with (2 ^ 52).
      pose proof (pow2_pos (t + 1074) ltac:(lia)).
      change (2 ^ 1) with 2. change (2 ^ 53) with (2 * 2 ^ 52).
      assert (2 * 2 ^ 52 * 2 ^ (t + 1074) < cap).
      { rewrite <- (Z.pow_succ_r 2 52), <- Z.pow_add_r by lia.
        apply Z.pow_lt_mono_r; lia. }
      lia.
    + split; [done|]. simpl rank. f_equal.
      change 9007199254740992 with (2 ^ 53).
      assert (cap <= 2 ^ 53 * 2 ^ (t + 1074)).
      { rewrite <- Z.pow_add_r by lia. apply Z.pow_le_mono_r; lia. }
      lia.
  - assert (Z.log2 m1 <= 52) as Hlog.
    { destruct (Z.le_gt_cases (Z.log2 m1) 52); [done|].
      assert (2 ^ 53 <= 2 ^ Z.log2 m1) by (apply Z.pow_le_mono_r; lia). lia. }
    rewrite shr_noop by lia. simpl shr_m.
    destruct m1 as [|q|q]; try lia.
    change (emax - prec) with 971.
    destruct (Z.leb_spec t 971).
    + split; [done|]. simpl rank. f_equal.
      pose proof (below_cap (Zpos q) t ltac:(lia) ltac:(lia)). lia.
    + split; [done|]. simpl rank. f_equal.
      pose proof (above_cap (Zpos q) t ltac:(lia) ltac:(lia)). lia.
Qed.

Lemma binary_round_aux_rank (sx : bool) (M : positive) (E : Z) :
  let t := Z.max (Z.log2 (Zpos M) + 1 + E - 53) (-1074) in
  E <= t ->
  let x := binary_round_aux prec emax sx (Zpos M) E loc_Exact in
  x <> S754_nan /\
  rank x = cond_Zopp sx (Z.min cap (roundAt (t - E) (Zpos M) * 2 ^ (t + 1074))).
Proof.
  intros t Ht x. subst x.
  destruct (roundAt_le_pow53 M E Ht) as [Hm1 Hnormal]. fold t in Hm1, Hnormal.
  unfold binary_round_aux, shr_fexp.
  rewrite Zdigits2_log2, fexp64. fold t.
  change (shr_record_of_loc (Zpos M) loc_Exact)
    with {| shr_m := Zpos M; shr_r := false; shr_s := false |}.
  destruct (shr_stage (Zpos M) E (t - E) ltac:(lia) ltac:(lia)) as (mrs & -> & _ & ->).
  replace (E + (t - E)) with t by lia.
  exact (round_second_stage sx _ t Hm1 ltac:(lia) ltac:(lia)).
Qed.

(** *** The order of the doubles is the order of their ranks *)

Lemma valid_finite s m e :
  valid_binary (S754_finite s m e) = true ->
  -1074 <= e <= 971 /\ Z.log2 (Zpos m) <= 52 /\
  (e = -1074 \/ Z.log2 (Zpos m) = 52).
Proof.
  unfold SpecFloat.valid_binary, bounded, canonical_mantissa.
  rewrite andb_true_iff, Z.eqb_eq, Z.leb_le, fexp64.
  change (emax - prec) with 971.
  change (Zpos (digits2_pos m)) with (Zdigits2 (Zpos m)).
  rewrite Zdigits2_log2. lia.
Qed.

Lemma valid_mantissa s m e :
  valid_binary (S754_finite s m e) = true ->
  Zpos m < 2 ^ 53 /\ (-1074 < e -> 2 ^ 52 <= Zpos m).
Proof.
  intros (He & Hl & Hn)%valid_finite.
  pose proof (log2_bounds (Zpos m) ltac:(lia)) as HL.
  pose proof (Z.log2_nonneg (Zpos m)).
  split.
  - assert (2 ^ (Z.log2 (Zpos m) + 1) <= 2 ^ 53) by (apply Z.pow_le_mono_r; lia).
    lia.
  - intros Hnormal. destruct Hn as [|Hn]; [lia|]. rewrite Hn in HL. lia.
Qed.

Lemma rank_finite_range s m e :
  valid_binary (S754_finite s m e) = true ->
  0 < Zpos m * 2 ^ (e + 1074) < cap.
Proof.
  intros Hv. pose proof (valid_finite _ _ _ Hv) as (He & _ & _).
  pose proof (valid_mantissa _ _ _ Hv) as [Hm _].
  pose proof (pow2_pos (e + 1074) ltac:(lia)).
  split; [nia|]. apply below_cap; lia.
Qed.

Lemma rank_range x : valid_binary x = true -> - cap <= rank x <= cap.
Proof.
  pose proof cap_pos. destruct x as [s|s| |s m e]; simpl rank; try lia.
  - destruct s; simpl; lia.
  - intros Hv%rank_finite_range. destruct s; simpl; lia.
Qed.

Lemma canonical_lt s1 m1 e1 s2 m2 e2 :
  valid_binary (S754_finite s1 m1 e1) = true ->
  valid_binary (S754_finite s2 m2 e2) = true ->
  e1 < e2 ->
  Zpos m1 * 2 ^ (e1 + 1074) < Zpos m2 * 2 ^ (e2 + 1074).
Proof.
  intros Hv1 Hv2 He.
  pose proof (valid_finite _ _ _ Hv1) as (He1 & _ & _).
  pose proof (valid_finite _ _ _ Hv2) as (He2 & _ & _).
  pose proof (valid_mantissa _ _ _ Hv1) as [Hm1 _].
  pose proof (valid_mantissa _ _ _ Hv2) as [_ Hm2]. specialize (Hm2 ltac:(lia)).
  pose proof (pow2_pos (e1 + 1074) ltac:(lia)) as HP.
  assert (2 * 2 ^ (e1 + 1074) <= 2 ^ (e2 + 1074)) as Hpow.
  { rewrite <- Z.pow_succ_r by lia. apply Z.pow_le_mono_r; lia. }
  change (2 ^ 53) with (2 ^ 52 * 2) in Hm1. nia.
Qed.

Lemma compare_canonical sx mx ex sy my ey :
  valid_binary (S754_finite sx mx ex) = true ->
  valid_binary (S754_finite sy my ey) = true ->
  (Zpos mx * 2 ^ (ex + 1074) ?= Zpos my * 2 ^ (ey + 1074)) =
  match ex ?= ey with
  | Eq => PosDef.Pos.compare_cont Eq mx my
  | Lt => Lt
  | Gt => Gt
  end.
Proof.
  intros Hvx Hvy. destruct (ex ?= ey) eqn:Hc.
  - apply Z.compare_eq in Hc as <-.
    pose proof (valid_finite _ _ _ Hvx) as (He & _ & _).
    rewrite <- Zmult_compare_compat_r; [done|].
    apply Z.lt_gt, pow2_pos. lia.
  - apply Z.compare_lt_iff.
    apply (canonical_lt sx mx ex sy my ey); [done..|].
    by apply Z.compare_lt_iff.
  - apply Z.compare_gt_iff.
    apply (canonical_lt sy my ey sx mx ex); [done..|].
    apply Z.compare_gt_iff in Hc. lia.
Qed.

Lemma SFcompare_rank x y :
  valid_binary x = true -> valid_binary y = true ->
  x <> S754_nan -> y <> S754_nan ->
  SFcompare x y = Some (rank x ?= rank y).
Proof.
  pose proof cap_pos as Hcap.
  destruct x as [sx|sx| |sx mx ex], y as [sy|sy| |sy my ey];
    intros Hvx Hvy Hx Hy; try done; simpl SFcompare; simpl rank;
    try pose proof (rank_finite_range _ _ _ Hvx) as Hrx;
    try pose proof (rank_finite_range _ _ _ Hvy) as Hry;
    try pose proof (compare_canonical _ _ _ _ _ _ Hvx Hvy) as Hc.
  all: repeat match goal with s : bool |- _ => destruct s end;
    unfold cond_Zopp; f_equal; symmetry;
    try first [apply Z.compare_eq_iff; lia | apply Z.compare_lt_iff; lia
              | apply Z.compare_gt_iff; lia].
  - rewrite Z.compare_opp, Z.compare_antisym, Hc. by destruct (ex ?= ey).
  - done.
Qed.

(** *** Rounding of a signed value *)

Lemma sround_range k0 Y : 0 <= k0 -> - cap <= sround k0 Y <= cap.
Proof.
  intros Hk. unfold sround. destruct (Z.ltb_spec Y 0).
  - pose proof (roundRank_range k0 (- Y) Hk ltac:(lia)). lia.
  - pose proof (roundRank_range k0 Y Hk ltac:(lia)). lia.
Qed.

Lemma sround_nonneg k0 Y : 0 <= k0 -> 0 <= Y -> 0 <= sround k0 Y.
Proof.
  intros Hk HY. unfold sround. destruct (Z.ltb_spec Y 0); [lia|].
  apply roundRank_range; lia.
Qed.

Lemma sround_mono k0 Y Y' : 0 <= k0 -> Y <= Y' -> sround k0 Y <= sround k0 Y'.
Proof.
  intros Hk HY. unfold sround.
  destruct (Z.ltb_spec Y 0), (Z.ltb_spec Y' 0); try lia.
  - pose proof (roundRank_mono k0 (- Y') (- Y) Hk ltac:(lia)). lia.
  - pose proof (roundRank_range k0 (- Y) Hk ltac:(lia)).
    pose proof (roundRank_range k0 Y' Hk ltac:(lia)). lia.
  - apply roundRank_mono; lia.
Qed.

Lemma roundAt_shift n M s :
  0 <= M -> 0 <= s <= n -> roundAt n (M * 2 ^ s) = roundAt (n - s) M.
Proof.
  intros HM Hs. destruct (Z.eq_dec n s) as [->|Hne].
  - rewrite roundAt_exact, Z.sub_diag by lia. unfold roundAt. simpl. lia.
  - apply roundAt_scale; lia.
Qed.

(** The rank [binary_round_aux] computes, as a rounding of the value in
    units of [2 ^ (- 1074 - k0)]. *)
Lemma binary_round_aux_roundRank sx M E k0 :
  let t := Z.max (Z.log2 (Zpos M) + 1 + E - 53) (-1074) in
  E <= t -> 0 <= k0 -> 0 <= E + 1074 + k0 ->
  let x := binary_round_aux prec emax sx (Zpos M) E loc_Exact in
  x <> S754_nan /\
  rank x = cond_Zopp sx (roundRank k0 (Zpos M * 2 ^ (E + 1074 + k0))).
Proof.
  intros t Ht Hk Hs x.
  destruct (binary_round_aux_rank sx M E Ht) as [Hnan Hrank]. fold t in Hrank.
  split; [done|]. subst x. rewrite Hrank. f_equal. unfold roundRank.
  pose proof (Z.log2_nonneg (Zpos M)).
  rewrite Z.log2_mul_pow2 by lia.
  replace (Z.max (E + 1074 + k0 + Z.log2 (Z.pos M) - 52) k0)
    with (t + 1074 + k0) by lia.
  rewrite roundAt_shift by lia.
  replace (t + 1074 + k0 - (E + 1074 + k0)) with (t - E) by lia.
  by replace (t + 1074 + k0 - k0) with (t + 1074) by lia.
Qed.

(** *** Products *)

Lemma cond_Zopp_sround s k0 Y :
  0 < Y -> cond_Zopp s (roundRank k0 Y) = sround k0 (cond_Zopp s Y).
Proof.
  intros HY. unfold sround. destruct s; simpl.
  - destruct (Z.ltb_spec (- Y) 0); [|lia]. by rewrite Z.opp_involutive.
  - by destruct (Z.ltb_spec Y 0); [lia|].
Qed.

Lemma SFmul_rank x y :
  valid_binary x = true -> valid_binary y = true ->
  finite64 x = true -> finite64 y = true ->
  SF64mul x y <> S754_nan /\
  rank (SF64mul x y) = sround 1074 (rank x * rank y).
Proof.
  assert (sround 1074 0 = 0) as H0
    by (unfold sround; simpl; apply roundRank_0).
  destruct x as [sx|sx| |sx mx ex], y as [sy|sy| |sy my ey];
    intros Hvx Hvy Hx Hy; try done.
  all: try (split; [done|]; unfold SF64mul, SFmul; cbn [rank];
    rewrite ?Z.mul_0_l, ?Z.mul_0_r, H0; done).
  pose proof (valid_finite _ _ _ Hvx) as (Hex & Hlx & Hnx).
    pose proof (valid_finite _ _ _ Hvy) as (Hey & Hly & Hny).
    pose proof (Z.log2_nonneg (Zpos mx)).
    pose proof (Z.log2_nonneg (Zpos my)).
    pose proof (Z.log2_mul_below (Zpos mx) (Zpos my) ltac:(lia) ltac:(lia)) as Hlog.
    unfold SF64mul, SFmul.
    destruct (binary_round_aux_roundRank (xorb sx sy) (mx * my) (ex + ey) 1074)
      as [Hnan Hrank]; [change (Zpos (mx * my)) with (Zpos mx * Zpos my); lia|lia|lia|].
    split; [done|]. rewrite Hrank.
    pose proof (pow2_pos (ex + 1074) ltac:(lia)).
    pose proof (pow2_pos (ey + 1074) ltac:(lia)).
    rewrite cond_Zopp_sround
      by (change (Zpos (mx * my)) with (Zpos mx * Zpos my);
          apply Z.mul_pos_pos; [lia|apply pow2_pos; lia]).
    f_equal. simpl rank.
    replace (ex + ey + 1074 + 1074) with ((ex + 1074) + (ey + 1074)) by lia.
    rewrite Z.pow_add_r by lia.
    change (Zpos (mx * my)) with (Zpos mx * Zpos my).
    destruct sx, sy; simpl; ring.
Qed.

(** *** Sums and differences *)

Lemma Pos_iter_xO m d : Zpos (Pos.iter xO m d) = Zpos m * 2 ^ Zpos d.
Proof.
  induction d as [|d IH] using Pos.peano_ind.
  - simpl. lia.
  - rewrite Pos.iter_succ, Pos2Z.inj_succ, Z.pow_succ_r by lia.
    rewrite Pos2Z.inj_xO, IH. ring.
Qed.

Lemma shl_align_value m e e' :
  e' <= e ->
  exists mz, shl_align m e e' = (mz, e') /\ Zpos mz = Zpos m * 2 ^ (e - e').
Proof.
  intros He. unfold shl_align. destruct (e' - e) as [|d|d] eqn:Hd; try lia.
  - assert (e' = e) as -> by lia. exists m. rewrite Z.sub_diag. split; [done|lia].
  - eexists. split; [done|]. rewrite Pos_iter_xO. f_equal. f_equal. lia.
Qed.

Lemma shl_align_noop m e e' : e <= e' -> shl_align m e e' = (m, e).
Proof.
  intros He. unfold shl_align. destruct (e' - e) as [|d|d] eqn:Hd; try done. lia.
Qed.

Lemma binary_round_rank sx m e :
  -1074 <= e ->
  binary_round prec emax sx m e <> S754_nan /\
  rank (binary_round prec emax sx m e) =
  cond_Zopp sx (roundRank 0 (Zpos m * 2 ^ (e + 1074))).
Proof.
  intros He. unfold binary_round.
  change (Zpos (digits2_pos m)) with (Zdigits2 (Zpos m)).
  rewrite Zdigits2_log2, fexp64.
  pose proof (Z.log2_nonneg (Zpos m)) as HL.
  set (t := Z.max (Z.log2 (Zpos m) + 1 + e - 53) (-1074)).
  destruct (Z.le_gt_cases e t) as [Het|Het].
  - rewrite shl_align_noop by done.
    destruct (binary_round_aux_roundRank sx m e 0) as [Hnan Hrank]; [lia..|].
    by rewrite Z.add_0_r in Hrank.
  - destruct (shl_align_value m e t ltac:(lia)) as (mz & -> & Hmz).
    assert (Z.log2 (Zpos mz) = Z.log2 (Zpos m) + (e - t)) as Hlog
      by (rewrite Hmz, Z.log2_mul_pow2 by lia; lia).
    destruct (binary_round_aux_roundRank sx mz t 0) as [Hnan Hrank]; [lia..|].
    split; [done|]. rewrite Hrank, Hmz. f_equal. f_equal.
    rewrite <- Z.mul_assoc, <- Z.pow_add_r by lia. f_equal. f_equal. lia.
Qed.

Lemma binary_normalize_rank S e :
  -1074 <= e ->
  binary_normalize prec emax S e false <> S754_nan /\
  rank (binary_normalize prec emax S e false) = sround 0 (S * 2 ^ (e + 1074)).
Proof.
  intros He. pose proof (pow2_pos (e + 1074) ltac:(lia)) as HP.
  destruct S as [|m|m]; unfold binary_normalize.
  - split; [done|]. simpl. unfold sround. simpl. by rewrite roundRank_0.
  - destruct (binary_round_rank false m e He) as [Hnan ->]. split; [done|].
    rewrite cond_Zopp_sround by lia. done.
  - destruct (binary_round_rank true m e He) as [Hnan ->]. split; [done|].
    rewrite cond_Zopp_sround by lia. f_equal. unfold cond_Zopp.
    change (Zneg m) with (- Zpos m). ring.
Qed.

Lemma aligned_rank s m e ez :
  -1074 <= ez <= e ->
  cond_Zopp s (Zpos (fst (shl_align m e ez))) * 2 ^ (ez + 1074) =
  rank (S754_finite s m e).
Proof.
  intros He. destruct (shl_align_value m e ez ltac:(lia)) as (mz & -> & Hmz).
  simpl fst. rewrite Hmz. simpl rank.
  replace (e + 1074) with ((e - ez) + (ez + 1074)) by lia.
  rewrite (Z.pow_add_r 2 (e - ez) (ez + 1074)) by lia.
  destruct s; unfold cond_Zopp; ring.
Qed.

Lemma roundRank_valid s m e :
  valid_binary (S754_finite s m e) = true ->
  roundRank 0 (Zpos m * 2 ^ (e + 1074)) = Zpos m * 2 ^ (e + 1074).
Proof.
  intros Hv. pose proof (valid_finite _ _ _ Hv) as (He & Hl & Hn).
  pose proof (rank_finite_range _ _ _ Hv) as Hr.
  pose proof (Z.log2_nonneg (Zpos m)).
  unfold roundRank. rewrite Z.log2_mul_pow2 by lia.
  replace (Z.max (e + 1074 + Z.log2 (Z.pos m) - 52) 0) with (e + 1074) by lia.
  rewrite roundAt_exact, Z.sub_diag, Z.sub_0_r by lia.
  change (2 ^ 0) with 1. lia.
Qed.

Lemma sround_valid x :
  valid_binary x = true -> finite64 x = true -> sround 0 (rank x) = rank x.
Proof.
  destruct x as [s|s| |s m e]; intros Hv Hfin; try discriminate Hfin.
  - unfold sround. cbn [rank Z.ltb Z.compare]. apply roundRank_0.
  - pose proof (rank_finite_range _ _ _ Hv) as Hr. cbn [rank].
    rewrite <- cond_Zopp_sround by lia. by rewrite (roundRank_valid s).
Qed.

Lemma SFadd_rank x y :
  valid_binary x = true -> valid_binary y = true ->
  finite64 x = true -> finite64 y = true ->
  SF64add x y <> S754_nan /\
  rank (SF64add x y) = sround 0 (rank x + rank y).
Proof.
  destruct x as [sx|sx| |sx mx ex] eqn:Ex, y as [sy|sy| |sy my ey] eqn:Ey;
    intros Hvx Hvy Hx Hy; try discriminate Hx; try discriminate Hy.
  - split; [by destruct sx, sy|]. unfold sround. cbn [rank Z.add Z.ltb Z.compare].
    rewrite roundRank_0. by destruct sx, sy.
  - split; [done|]. unfold SF64add, SFadd.
    change (rank (S754_zero sx)) with 0. rewrite Z.add_0_l.
    by rewrite (sround_valid (S754_finite sy my ey)).
  - split; [done|]. unfold SF64add, SFadd.
    change (rank (S754_zero sy)) with 0. rewrite Z.add_0_r.
    by rewrite (sround_valid (S754_finite sx mx ex)).
  - pose proof (valid_finite _ _ _ Hvx) as (Hex & _ & _).
    pose proof (valid_finite _ _ _ Hvy) as (Hey & _ & _).
    unfold SF64add, SFadd. cbv zeta.
    destruct (binary_normalize_rank
      (cond_Zopp sx (Zpos (fst (shl_align mx ex (Z.min ex ey)))) +
       cond_Zopp sy (Zpos (fst (shl_align my ey (Z.min ex ey)))))
      (Z.min ex ey) ltac:(lia)) as [Hnan ->].
    split; [done|]. f_equal.
    rewrite Z.mul_add_distr_r, !aligned_rank by lia. done.
Qed.

Lemma SFsub_rank x y :
  valid_binary x = true -> valid_binary y = true ->
  finite64 x = true -> finite64 y = true ->
  SF64sub x y <> S754_nan /\
  rank (SF64sub x y) = sround 0 (rank x - rank y).
Proof.
  destruct x as [sx|sx| |sx mx ex] eqn:Ex, y as [sy|sy| |sy my ey] eqn:Ey;
    intros Hvx Hvy Hx Hy; try discriminate Hx; try discriminate Hy.
  - split; [by destruct sx, sy|]. unfold sround. cbn [rank Z.sub Z.add Z.opp Z.ltb Z.compare].
    rewrite roundRank_0. by destruct sx, sy.
  - split; [done|]. unfold SF64sub, SFsub.
    change (rank (S754_zero sx)) with 0. rewrite Z.sub_0_l.
    rewrite <- (sround_valid (S754_finite (negb sy) my ey)) by done.
    f_equal. cbn [rank]. destruct sy; unfold cond_Zopp; simpl negb; cbv iota; lia.
  - split; [done|]. unfold SF64sub, SFsub.
    change (rank (S754_zero sy)) with 0. rewrite Z.sub_0_r.
    by rewrite (sround_valid (S754_finite sx mx ex)).
  - pose proof (valid_finite _ _ _ Hvx) as (Hex & _ & _).
    pose proof (valid_finite _ _ _ Hvy) as (Hey & _ & _).
    unfold SF64sub, SFsub. cbv zeta.
    destruct (binary_normalize_rank
      (cond_Zopp sx (Zpos (fst (shl_align mx ex (Z.min ex ey)))) -
       cond_Zopp sy (Zpos (fst (shl_align my ey (Z.min ex ey)))))
      (Z.min ex ey) ltac:(lia)) as [Hnan ->].
    split; [done|]. f_equal.
    rewrite Z.mul_sub_distr_r, !aligned_rank by lia. done.
Qed.

(** *** Infinite operands *)

Lemma finite_rank x :
  valid_binary x = true -> x <> S754_nan ->
  (finite64 x = true <-> - cap < rank x < cap).
Proof.
  pose proof cap_pos.
  destruct x as [s|s| |s m e]; intros Hv Hx; try done; cbn [rank finite64];
    try pose proof (rank_finite_range _ _ _ Hv);
    split; intros Hr; try done; try discriminate Hr;
    destruct s; unfold cond_Zopp in *; lia.
Qed.

Lemma SFmul_nan x y :
  SF64mul x y <> S754_nan -> x <> S754_nan /\ y <> S754_nan.
Proof. destruct x, y; done. Qed.

Lemma SFadd_nan x y :
  SF64add x y <> S754_nan -> x <> S754_nan /\ y <> S754_nan.
Proof. destruct x, y; done. Qed.

Lemma SFmul_cases c a :
  valid_binary c = true -> valid_binary a = true ->
  SF64mul c a <> S754_nan -> 0 <= rank c ->
  (finite64 c = true /\ finite64 a = true /\
   rank (SF64mul c a) = sround 1074 (rank c * rank a)) \/
  (rank (SF64mul c a) = cap /\ 0 < rank a /\ (rank c = cap \/ rank a = cap)) \/
  (rank (SF64mul c a) = - cap /\ rank a < 0 /\ (rank c = cap \/ rank a = - cap)).
Proof.
  intros Hvc Hva Hnan Hc. pose proof cap_pos as Hcap.
  destruct (finite64 c) eqn:Hfc, (finite64 a) eqn:Hfa.
  { left. split_and!; [done..|]. by apply SFmul_rank. }
  all: right.
  all: destruct c as [sc|sc| |sc mc ec], a as [sa|sa| |sa ma ea];
    try discriminate Hfc; try discriminate Hfa; try done;
    try pose proof (rank_finite_range _ _ _ Hvc) as Hrc;
    try pose proof (rank_finite_range _ _ _ Hva) as Hra;
    unfold SF64mul, SFmul; cbn [rank] in *;
    destruct sc, sa; unfold cond_Zopp in *; simpl xorb; cbv iota; lia.
Qed.

Lemma SFadd_cases x y :
  valid_binary x = true -> valid_binary y = true ->
  SF64add x y <> S754_nan ->
  (finite64 x = true /\ finite64 y = true /\
   rank (SF64add x y) = sround 0 (rank x + rank y)) \/
  (rank (SF64add x y) = cap /\ (rank x = cap \/ rank y = cap) /\
   rank x <> - cap /\ rank y <> - cap) \/
  (rank (SF64add x y) = - cap /\ (rank x = - cap \/ rank y = - cap) /\
   rank x <> cap /\ rank y <> cap).
Proof.
  intros Hvx Hvy Hnan. pose proof cap_pos as Hcap.
  destruct (finite64 x) eqn:Hfx, (finite64 y) eqn:Hfy.
  { left. split_and!; [done..|]. by apply SFadd_rank. }
  all: right.
  all: destruct x as [sx|sx| |sx mx ex], y as [sy|sy| |sy my ey];
    try discriminate Hfx; try discriminate Hfy; try done;
    try pose proof (rank_finite_range _ _ _ Hvx) as Hrx;
    try pose proof (rank_finite_range _ _ _ Hvy) as Hry;
    unfold SF64add, SFadd in *; cbn [rank] in *;
    destruct sx, sy; unfold cond_Zopp in *; try congruence; cbn [rank];
    unfold cond_Zopp; lia.
Qed.

Lemma SFmul_mono c a b :
  valid_binary c = true -> valid_binary a = true -> valid_binary b = true ->
  SF64mul c a <> S754_nan -> SF64mul c b <> S754_nan ->
  0 <= rank c -> rank a <= rank b ->
  rank (SF64mul c a) <= rank (SF64mul c b).
Proof.
  intros Hvc Hva Hvb Hna Hnb Hc Hab. pose proof cap_pos as Hcap.
  destruct (SFmul_nan _ _ Hna) as [Hcn Han].
  destruct (SFmul_nan _ _ Hnb) as [_ Hbn].
  pose proof (finite_rank a Hva Han) as Hfa.
  pose proof (finite_rank b Hvb Hbn) as Hfb.
  pose proof (finite_rank c Hvc Hcn) as Hfc.
  pose proof (sround_range 1074 (rank c * rank a) ltac:(lia)).
  pose proof (sround_range 1074 (rank c * rank b) ltac:(lia)).
  pose proof (rank_range a Hva). pose proof (rank_range b Hvb).
  destruct (SFmul_cases c a Hvc Hva Hna Hc) as [(Hc1 & Ha1 & ->)|[(-> & ?)|(-> & ?)]],
           (SFmul_cases c b Hvc Hvb Hnb Hc) as [(Hc2 & Hb2 & ->)|[(-> & ?)|(-> & ?)]];
    try lia.
  - apply sround_mono; [lia|]. by apply Z.mul_le_mono_nonneg_l.
  - apply Hfc in Hc1. apply Hfa in Ha1. lia.
  - apply Hfc in Hc2. apply Hfb in Hb2. lia.
Qed.

Lemma SFadd_mono a b c d :
  valid_binary a = true -> valid_binary b = true ->
  valid_binary c = true -> valid_binary d = true ->
  SF64add a c <> S754_nan -> SF64add b d <> S754_nan ->
  rank a <= rank b -> rank c <= rank d ->
  rank (SF64add a c) <= rank (SF64add b d).
Proof.
  intros Hva Hvb Hvc Hvd Hn1 Hn2 Hab Hcd. pose proof cap_pos as Hcap.
  destruct (SFadd_nan _ _ Hn1) as [Han Hcn].
  destruct (SFadd_nan _ _ Hn2) as [Hbn Hdn].
  pose proof (finite_rank a Hva Han) as Hfa.
  pose proof (finite_rank b Hvb Hbn) as Hfb.
  pose proof (finite_rank c Hvc Hcn) as Hfc.
  pose proof (finite_rank d Hvd Hdn) as Hfd.
  pose proof (sround_range 0 (rank a + rank c) ltac:(lia)).
  pose proof (sround_range 0 (rank b + rank d) ltac:(lia)).
  pose proof (rank_range a Hva). pose proof (rank_range b Hvb).
  pose proof (rank_range c Hvc). pose proof (rank_range d Hvd).
  destruct (SFadd_cases a c Hva Hvc Hn1) as [(Ha1 & Hc1 & ->)|[(-> & ?)|(-> & ?)]],
           (SFadd_cases b d Hvb Hvd Hn2) as [(Hb2 & Hd2 & ->)|[(-> & ?)|(-> & ?)]];
    try lia.
  - apply sround_mono; lia.
  - apply Hfa in Ha1. apply Hfc in Hc1. lia.
  - apply Hfb in Hb2. apply Hfd in Hd2. lia.
Qed.

(** *** The operations of the engine are monotone *)

Lemma is_nan_false x : is_nan x = false <-> Prim2SF x <> S754_nan.
Proof. rewrite is_nan_spec. by destruct (Prim2SF x). Qed.

Lemma leb_rank x y :
  (x <=? y)%float = true <->
  is_nan x = false /\ is_nan y = false /\ rank (Prim2SF x) <= rank (Prim2SF y).
Proof.
  rewrite leb_spec, !is_nan_false. unfold SFleb.
  destruct (SFcompare (Prim2SF x) (Prim2SF y)) as [c|] eqn:Hc.
  - assert (Prim2SF x <> S754_nan /\ Prim2SF y <> S754_nan) as [Hx Hy].
    { destruct (Prim2SF x), (Prim2SF y); done. }
    rewrite SFcompare_rank in Hc by (done || apply Prim2SF_valid).
    injection Hc as <-. rewrite <- Z.compare_le_iff.
    destruct (rank (Prim2SF x) ?= rank (Prim2SF y)); split; try done;
      by intros (_ & _ & ?).
  - apply SFcompare_None in Hc. split; [done|]. tauto.
Qed.

Lemma ltb_rank x y :
  (x <? y)%float = true <->
  is_nan x = false /\ is_nan y = false /\ rank (Prim2SF x) < rank (Prim2SF y).
Proof.
  rewrite ltb_spec, !is_nan_false. unfold SFltb.
  destruct (SFcompare (Prim2SF x) (Prim2SF y)) as [c|] eqn:Hc.
  - assert (Prim2SF x <> S754_nan /\ Prim2SF y <> S754_nan) as [Hx Hy].
    { destruct (Prim2SF x), (Prim2SF y); done. }
    rewrite SFcompare_rank in Hc by (done || apply Prim2SF_valid).
    injection Hc as <-. rewrite <- Z.compare_lt_iff.
    destruct (rank (Prim2SF x) ?= rank (Prim2SF y)); split; try done;
      by intros (_ & _ & ?).
  - apply SFcompare_None in Hc. split; [done|]. tauto.
Qed.

Lemma leb_trans x y z :
  (x <=? y)%float = true -> (y <=? z)%float = true -> (x <=? z)%float = true.
Proof. rewrite !leb_rank. intros (? & ? & ?) (? & ? & ?). split_and!; [done..|lia]. Qed.

Lemma ltb_leb x y : (x <? y)%float = true -> (x <=? y)%float = true.
Proof. rewrite ltb_rank, leb_rank. intros (? & ? & ?). split_and!; [done..|lia]. Qed.

Lemma mul_is_nan x y :
  is_nan (x * y)%float = false -> is_nan x = false /\ is_nan y = false.
Proof. rewrite !is_nan_false, mul_spec. apply SFmul_nan. Qed.

Lemma add_is_nan x y :
  is_nan (x + y)%float = false -> is_nan x = false /\ is_nan y = false.
Proof. rewrite !is_nan_false, add_spec. apply SFadd_nan. Qed.

Lemma rank_zero : rank (Prim2SF 0%float) = 0.
Proof. reflexivity. Qed.

Lemma mul_leb_mono c a b :
  (0 <=? c)%float = true -> (a <=? b)%float = true ->
  is_nan (c * a)%float = false -> is_nan (c * b)%float = false ->
  (c * a <=? c * b)%float = true.
Proof.
  rewrite !leb_rank, rank_zero. intros (_ & Hc & Hc0) (Ha & Hb & Hab) Hna Hnb.
  split_and!; [done..|].
  rewrite is_nan_false in Hna, Hnb. rewrite !mul_spec in *.
  apply SFmul_mono; (done || apply Prim2SF_valid).
Qed.

Lemma add_leb_mono a b c d :
  (a <=? b)%float = true -> (c <=? d)%float = true ->
  is_nan (a + c)%float = false -> is_nan (b + d)%float = false ->
  (a + c <=? b + d)%float = true.
Proof.
  rewrite !leb_rank. intros (Ha & Hb & Hab) (Hc & Hd & Hcd) Hn1 Hn2.
  split_and!; [done..|].
  rewrite is_nan_false in Hn1, Hn2. rewrite !add_spec in *.
  apply SFadd_mono; (done || apply Prim2SF_valid).
Qed.

Lemma one_minus_nonneg p :
  (0 <=? p)%float = true -> (p <=? 1)%float = true ->
  (0 <=? 1 - p)%float = true.
Proof.
  rewrite !leb_rank, rank_zero. intros (_ & Hp & Hp0) (_ & _ & Hp1).
  rewrite is_nan_false in Hp.
  pose proof (Prim2SF_valid p) as Hvp. pose proof (Prim2SF_valid 1) as Hv1.
  assert (finite64 (Prim2SF 1) = true) as Hf1 by reflexivity.
  pose proof (proj1 (finite_rank _ Hv1 ltac:(done)) Hf1) as Hr1.
  assert (finite64 (Prim2SF p) = true) as Hfp by (apply finite_rank; [done..|lia]).
  destruct (SFsub_rank _ _ Hv1 Hvp Hf1 Hfp) as [Hnan Hrank].
  split; [reflexivity|]. rewrite is_nan_false, sub_spec. split; [done|].
  rewrite Hrank. apply sround_nonneg; lia.
Qed.

Lemma mul_nonneg c a :
  (0 <=? c)%float = true -> (0 <=? a)%float = true ->
  is_nan (c * a)%float = false -> (0 <=? c * a)%float = true.
Proof.
  rewrite !leb_rank, rank_zero. intros (_ & Hc & Hc0) (_ & Ha & Ha0) Hn.
  split; [reflexivity|]. split; [done|].
  rewrite is_nan_false in Hn. rewrite mul_spec in *.
  pose proof cap_pos.
  destruct (SFmul_cases _ _ (Prim2SF_valid c) (Prim2SF_valid a) Hn Hc0)
    as [(_ & _ & ->)|[(-> & _)|(_ & ? & _)]]; [|lia..].
  apply sround_nonneg; [lia|]. by apply Z.mul_nonneg_nonneg.
Qed.

Lemma add_nonneg a b :
  (0 <=? a)%float = true -> (0 <=? b)%float = true ->
  is_nan (a + b)%float = false -> (0 <=? a + b)%float = true.
Proof.
  rewrite !leb_rank, rank_zero. intros (_ & Ha & Ha0) (_ & Hb & Hb0) Hn.
  split; [reflexivity|]. split; [done|].
  rewrite is_nan_false in Hn. rewrite add_spec in *.
  pose proof cap_pos.
  destruct (SFadd_cases _ _ (Prim2SF_valid a) (Prim2SF_valid b) Hn)
    as [(_ & _ & ->)|[(-> & _)|(_ & ? & _)]]; [|lia..].
  apply sround_nonneg; lia.
Qed.

(** [Math.max (x, 0)] is NaN or at least 0. *)
Lemma max64_nonneg x :
  is_nan (max64 x 0) = false -> (0 <=? max64 x 0)%float = true.
Proof.
  unfold max64. destruct (is_nan x) eqn:Hx; [done|]. simpl.
  destruct (x <? 0)%float eqn:Hlt; [done|].
  assert ((0 <=? x)%float = true) as Hle by (by apply leb_of_not_ltb).
  by destruct (0 <? x)%float, (get_sign x).
Qed.

(** *** The quotient [1 / u] and the product [u * (1 / u)] *)

Lemma round_nearest_even_loc q l :
  round_nearest_even (shr_m (shr_record_of_loc q l))
    (loc_of_shr_record (shr_record_of_loc q l)) = round_nearest_even q l.
Proof. by destruct l as [|[]]. Qed.

Lemma round_nearest_even_bounds q l :
  q <= round_nearest_even q l <= q + 1.
Proof. destruct l as [|[]]; simpl; try destruct (Z.even q); lia. Qed.

(** A mantissa of exactly 53 bits with what was lost below it: only the
    last place changes. *)
Lemma binary_round_aux_inexact sx q e l :
  2 ^ 52 <= q < 2 ^ 53 -> -1074 <= e ->
  let x := binary_round_aux prec emax sx q e l in
  x <> S754_nan /\
  rank x = cond_Zopp sx (Z.min cap (round_nearest_even q l * 2 ^ (e + 1074))).
Proof.
  intros Hq He. cbv zeta. unfold binary_round_aux.
  assert (Z.log2 q = 52) as Hlog.
  { apply Z.log2_unique; [lia|]. change (2 ^ (52 + 1)) with (2 ^ 53). lia. }
  pose proof (round_nearest_even_bounds q l).
  pose proof (round_second_stage sx (round_nearest_even q l) e
                ltac:(lia) ltac:(lia) ltac:(lia)) as Hstage.
  cbv zeta in Hstage.
  unfold shr_fexp at 1 3. rewrite Zdigits2_pos, Hlog, fexp64 by lia.
  rewrite shr_noop by lia. rewrite round_nearest_even_loc. exact Hstage.
Qed.

(** The location of the remainder [r] of a division by [m]. *)
Lemma new_location_round m r q :
  0 <= r < m ->
  let m1 := round_nearest_even q (new_location m r) in
  (m1 = q /\ 2 * r <= m) \/ (m1 = q + 1 /\ m <= 2 * r).
Proof.
  intros Hr. cbv zeta. unfold new_location, new_location_even, new_location_odd.
  destruct (Z.even m) eqn:Hev.
  - destruct (Z.eqb_spec r 0) as [->|]; [left; simpl; lia|].
    destruct (Z.compare_spec (2 * r) m); simpl; try destruct (Z.even q); lia.
  - destruct (Z.eqb_spec r 0) as [->|]; [left; simpl; lia|].
    destruct (Z.compare_spec (2 * r + 1) m); simpl; lia.
Qed.

Lemma one64 : Prim2SF 1 = S754_finite false 4503599627370496 (-52).
Proof. reflexivity. Qed.

(** [1 / u] for a normal [u] below [2 ^ 1022]: the quotient of [2 ^ 105] by
    the mantissa of [u], to the nearest. *)
Lemma SFdiv_one_rank my ey :
  2 ^ 52 <= Zpos my < 2 ^ 53 -> -1074 <= ey <= 969 ->
  let x := SF64div (Prim2SF 1) (S754_finite false my ey) in
  x <> S754_nan /\
  exists m1,
    rank x = m1 * 2 ^ (969 - ey) /\
    2 ^ 106 - Zpos my <= 2 * Zpos my * m1 <= 2 ^ 106 + Zpos my.
Proof.
  intros Hmy Hey. cbv zeta. rewrite one64. unfold SF64div, SFdiv, SFdiv_core_binary.
  change (Zdigits2 (Zpos 4503599627370496)) with 53.
  assert (Z.log2 (Zpos my) = 52) as Hlog.
  { apply Z.log2_unique; [lia|]. change (2 ^ (52 + 1)) with (2 ^ 53). lia. }
  rewrite Zdigits2_log2, Hlog, fexp64.
  replace (Z.min (Z.max (53 + -52 - (52 + 1 + ey) - 53) (-1074)) (-52 - ey))
    with (-105 - ey) by lia.
  replace (-52 - ey - (-105 - ey)) with 53 by lia.
  change (Z.shiftl (Zpos 4503599627370496) 53) with (2 ^ 105).
  pose proof (Z_div_mod (2 ^ 105) (Zpos my) ltac:(lia)) as Hdiv.
  destruct (Z.div_eucl (2 ^ 105) (Zpos my)) as [q r]. destruct Hdiv as [Hqr Hr].
  simpl xorb.
  pose proof cap_pos as Hcap.
  pose proof (pow2_pos (969 - ey) ltac:(lia)) as HP.
  assert (2 ^ 53 * 2 ^ (969 - ey) < cap) as Hc.
  { rewrite <- Z.pow_add_r by lia. apply Z.pow_lt_mono_r; lia. }
  assert (2 ^ 52 <= q <= 2 ^ 53) as Hq.
  { change (2 ^ 105) with (2 ^ 52 * 2 ^ 53) in Hqr. nia. }
  destruct (Z.eq_dec q (2 ^ 53)) as [Hq53|Hq53].
  - assert (r = 0) as ->.
    { change (2 ^ 105) with (2 ^ 52 * 2 ^ 53) in Hqr. nia. }
    assert (Zpos my = 2 ^ 52) as Hmy52.
    { change (2 ^ 105) with (2 ^ 52 * 2 ^ 53) in Hqr. nia. }
    assert (new_location (Zpos my) 0 = loc_Exact) as ->.
    { unfold new_location, new_location_even, new_location_odd.
      by destruct (Z.even _). }
    subst q. change (2 ^ 53) with (Zpos 9007199254740992).
    destruct (binary_round_aux_rank false 9007199254740992 (-105 - ey))
      as [Hnan Hrank].
    { change (Z.log2 (Zpos 9007199254740992)) with 53. lia. }
    split; [done|]. exists (2 ^ 53). rewrite Hrank. split; [|lia].
    change (Z.log2 (Zpos 9007199254740992)) with 53.
    replace (Z.max (53 + 1 + (-105 - ey) - 53) (-1074)) with (-104 - ey) by lia.
    replace (-104 - ey - (-105 - ey)) with 1 by lia.
    change (roundAt 1 (Zpos 9007199254740992)) with (2 ^ 52).
    replace (-104 - ey + 1074) with (1 + (969 - ey)) by lia.
    rewrite Z.pow_add_r by lia. change (2 ^ 1) with 2.
    change (2 ^ 53) with (2 * 2 ^ 52) in *. unfold cond_Zopp. lia.
  - destruct (binary_round_aux_inexact false q (-105 - ey)
               (new_location (Zpos my) r)) as [Hnan Hrank]; [lia|lia|].
    split; [done|].
    exists (round_nearest_even q (new_location (Zpos my) r)).
    pose proof (round_nearest_even_bounds q (new_location (Zpos my) r)) as Hb.
    rewrite Hrank. replace (-105 - ey + 1074) with (969 - ey) by lia.
    split; [unfold cond_Zopp; nia|].
    destruct (new_location_round (Zpos my) r q Hr) as [[-> ?]|[-> ?]]; nia.
Qed.

(** The double [1 - 2 ^ -53], the one just below 1. *)
Lemma below_one64 :
  Prim2SF 0x1.fffffffffffffp-1 = S754_finite false 9007199254740991 (-53).
Proof. reflexivity. Qed.

Lemma eqb_rank x y :
  (x =? y)%float = true <->
  is_nan x = false /\ is_nan y = false /\ rank (Prim2SF x) = rank (Prim2SF y).
Proof.
  rewrite FloatAxioms.eqb_spec, !is_nan_false. unfold SFeqb.
  destruct (SFcompare (Prim2SF x) (Prim2SF y)) as [c|] eqn:Hc.
  - assert (Prim2SF x <> S754_nan /\ Prim2SF y <> S754_nan) as [Hx Hy].
    { destruct (Prim2SF x), (Prim2SF y); done. }
    rewrite SFcompare_rank in Hc by (done || apply Prim2SF_valid).
    injection Hc as <-. rewrite <- Z.compare_eq_iff.
    destruct (rank (Prim2SF x) ?= rank (Prim2SF y)); split; try done;
      by intros (_ & _ & ?).
  - apply SFcompare_None in Hc. split; [done|]. tauto.
Qed.

(** A normal double between [2 ^ -1022] and [2 ^ 1021]. *)
Lemma normal_range (u : float) :
  (0x1p-1022 <=? u)%float = true -> (u <=? 0x1p+1021)%float = true ->
  exists my ey,
    Prim2SF u = S754_finite false my ey /\
    2 ^ 52 <= Zpos my < 2 ^ 53 /\ -1074 <= ey <= 969.
Proof.
  rewrite !leb_rank. intros (_ & Hu & Hlo) (_ & _ & Hhi).
  apply is_nan_false in Hu.
  pose proof (Prim2SF_valid u) as Hv.
  change (rank (Prim2SF 0x1p-1022)) with (2 ^ 52) in Hlo.
  change (rank (Prim2SF 0x1p+1021)) with (2 ^ 2095) in Hhi.
  pose proof cap_pos as Hcap.
  assert (2 ^ 2095 < cap) as Hc by (apply Z.pow_lt_mono_r; lia).
  destruct (Prim2SF u) as [s|s| |s my ey]; cbn [rank] in Hlo, Hhi;
    [lia|destruct s; unfold cond_Zopp in *; lia|done|].
  pose proof (valid_finite _ _ _ Hv) as (Hey & Hl & Hn).
  pose proof (valid_mantissa _ _ _ Hv) as (Hm53 & Hm52).
  pose proof (pow2_pos (ey + 1074) ltac:(lia)) as HP.
  destruct s; unfold cond_Zopp in *; [lia|].
  exists my, ey. split; [done|].
  assert (2 ^ 52 <= Zpos my) as Hm.
  { destruct (Z.eq_dec ey (-1074)) as [->|]; [|lia].
    change (2 ^ (-1074 + 1074)) with 1 in *. lia. }
  split; [lia|]. split; [lia|].
  destruct (Z.le_gt_cases ey 969); [done|].
    assert (2 ^ 2044 <= 2 ^ (ey + 1074)) as Hbig by (apply Z.pow_le_mono_r; lia).
    rewrite (Z.pow_add_r 2 52 2043 ltac:(lia) ltac:(lia) : 2 ^ 2095 = _) in Hhi.
    rewrite (Z.pow_succ_r 2 2043 ltac:(lia) : 2 ^ 2044 = _) in Hbig.
    pose proof (pow2_pos 2043 ltac:(lia)) as HP3.
    set (P := 2 ^ 2043) in *. set (X := 2 ^ (ey + 1074)) in *.
    assert (2 ^ 52 * X <= Zpos my * X) by (apply Z.mul_le_mono_nonneg_r; lia).
    lia.
Qed.

(** The product of a normal double and its rounded inverse is 1 or the
    double just below 1. *)
Lemma mul_inverse (u : float) :
  (0x1p-1022 <=? u)%float = true -> (u <=? 0x1p+1021)%float = true ->
  (u * (1 / u) =? 1)%float = true \/
  (u * (1 / u) =? 0x1.fffffffffffffp-1)%float = true.
Proof.
  intros Hlo Hhi.
  destruct (normal_range u Hlo Hhi) as (my & ey & Hu & Hmy & Hey).
  pose proof (Prim2SF_valid u) as Hvu.
  pose proof (Prim2SF_valid (1 / u)) as Hvd.
  destruct (SFdiv_one_rank my ey Hmy Hey) as (Hnan & m1 & Hrank & Hm1).
  rewrite <- Hu, <- div_spec in Hnan, Hrank.
  pose proof cap_pos as Hcap.
  pose proof (pow2_pos (969 - ey) ltac:(lia)) as HP.
  pose proof (pow2_pos (ey + 1074) ltac:(lia)) as HP'.
  assert (2 ^ 52 <= m1 <= 2 ^ 53) as Hm1'.
  { change (2 ^ 106) with (2 ^ 53 * 2 ^ 53) in Hm1. nia. }
  assert (finite64 (Prim2SF (1 / u)) = true) as Hfd.
  { apply finite_rank; [done..|]. rewrite Hrank.
    assert (2 ^ 53 * 2 ^ (969 - ey) < cap).
    { rewrite <- Z.pow_add_r by lia. apply Z.pow_lt_mono_r; lia. }
    nia. }
  assert (finite64 (Prim2SF u) = true) as Hfu by (by rewrite Hu).
  destruct (SFmul_rank _ _ Hvu Hvd Hfu Hfd) as [Hmnan Hmrank].
  rewrite <- mul_spec in Hmnan, Hmrank.
  rewrite Hrank in Hmrank. rewrite Hu in Hmrank. cbn [rank cond_Zopp] in Hmrank.
  set (Y := Zpos my * 2 ^ (ey + 1074) * (m1 * 2 ^ (969 - ey))) in *.
  assert (Y = Zpos my * m1 * 2 ^ 2043) as HY.
  { unfold Y. replace 2043 with ((ey + 1074) + (969 - ey)) by lia.
    rewrite (Z.pow_add_r 2 (ey + 1074) (969 - ey)) by lia. ring. }
  pose proof (pow2_pos 2043 ltac:(lia)) as HP2.
  assert ((2 ^ 105 - 2 ^ 52) * 2 ^ 2043 <= Y <= (2 ^ 105 + 2 ^ 52) * 2 ^ 2043) as HYb.
  { rewrite HY. change (2 ^ 106) with (2 * 2 ^ 105) in Hm1.
    change (2 ^ 53) with (2 * 2 ^ 52) in Hmy. nia. }
  assert (sround 1074 ((2 ^ 105 - 2 ^ 52) * 2 ^ 2043) = 2 ^ 1074 - 2 ^ 1021) as Hl
    by (vm_compute; reflexivity).
  assert (sround 1074 ((2 ^ 105 + 2 ^ 52) * 2 ^ 2043) = 2 ^ 1074) as Hh
    by (vm_compute; reflexivity).
  pose proof (sround_mono 1074 _ _ ltac:(lia) (proj1 HYb)) as Hlow.
  pose proof (sround_mono 1074 _ _ ltac:(lia) (proj2 HYb)) as Hhigh.
  rewrite Hl in Hlow. rewrite Hh in Hhigh.
  (* the rank of the product is a multiple of 2 ^ 1021 *)
  assert (exists A, sround 1074 Y = A * 2 ^ 1021) as [A HA].
  { unfold sround. destruct (Z.ltb_spec Y 0); [lia|]. unfold roundRank.
    assert (2147 <= Z.log2 Y) as HlogY.
    { apply Z.log2_le_pow2; [lia|].
      change ((2 ^ 105 - 2 ^ 52) * 2 ^ 2043) with (2 ^ 2147 + (2 ^ 104 - 2 ^ 52) * 2 ^ 2043) in HYb.
      lia. }
    set (n := Z.max (Z.log2 Y - 52) 1074).
    unfold sround in Hhigh, Hlow. destruct (Z.ltb_spec Y 0); [lia|].
    unfold roundRank in Hhigh. fold n in Hhigh.
    assert (2 ^ 1074 < cap) by (apply Z.pow_lt_mono_r; lia).
    rewrite Z.min_r by lia.
    exists (roundAt n Y * 2 ^ (n - 1074 - 1021)).
    rewrite <- Z.mul_assoc, <- Z.pow_add_r by lia. do 2 f_equal. lia. }
  rewrite <- Hmrank in *.
  pose proof (pow2_pos 1021 ltac:(lia)) as HP3.
  change (2 ^ 1074) with (2 ^ 53 * 2 ^ 1021) in Hlow, Hhigh.
  assert (A = 2 ^ 53 \/ A = 2 ^ 53 - 1) as [HA'|HA'] by nia.
  - left. apply eqb_rank. rewrite is_nan_false. split; [done|]. split; [done|].
    rewrite HA, HA'. reflexivity.
  - right. apply eqb_rank. rewrite is_nan_false. split; [done|]. split; [done|].
    rewrite HA, HA'. reflexivity.
Qed.

End DoubleOrder.


(** * The claims of the specification *)

(** ** CRR parameter derivation *)

(** C4: [calculateCRRParams] computes [dt = T / N]; with both custom factors
    supplied it takes [u = customU] and [d = customD], and as soon as one of
    them is missing it takes [u = exp (sigma * sqrt dt)] and [d = 1 / u]; in
    every case [p = (exp (r * dt) - d) / (u - d)] and
    [discount = exp (- r * dt)].  This holds in every arithmetic. *)
Theorem crr_parameters {F} `{Num F} (S K r sigma T : F) (N : Z) (cu cd : F)
    (customU customD : option F) :
  let calc := calculateCRRParams S K r sigma T N in
  let derived c :=
    u c = fexp (sigma * fsqrt (T / of_int N))%num /\ d c = (fone / u c)%num in
  (u (calc (Some cu) (Some cd)) = cu /\ d (calc (Some cu) (Some cd)) = cd) /\
  derived (calc None customD) /\
  derived (calc customU None) /\
  let c := calc customU customD in
  dt c = (T / of_int N)%num /\
  p c = ((fexp (r * dt c) - d c) / (u c - d c))%num /\
  discount c = fexp (- r * dt c)%num.
Proof.
  unfold calculateCRRParams. simpl. split_and!; try done.
  - by destruct customU.
  - by destruct customU.
  - by destruct customU, customD.
  - by destruct customU, customD.
  - by destruct customU, customD.
Qed.

(** C8 fails as stated: in binary64, for the volatility 0.25 with [T = 1] and
    [N = 1], the derived factors are [u = 1.2840254166877414] and
    [d = 1 / u = 0.7788007830714049], and their product is
    [0.9999999999999999], which is not 1. *)
Lemma derived_product_rounds :
  exists c,
    c = @crrOf float (Num_float expAtQuarter powOfOne) quarterRequest /\
    u c = 0x1.48b5e3c3e8186p+0%float /\
    d c = 0x1.8ebef9eac820bp-1%float /\
    (u c * d c)%float = 0x1.fffffffffffffp-1%float /\
    (u c * d c =? 1)%float = false.
Proof. eexists. split; [reflexivity|]. split_and!; vm_compute; reflexivity. Qed.

(** The derived factors of the result, in every arithmetic. *)
Lemma derived_factors {F} `{Num F} (params : @MarketParams F) (n : nat) :
  N_ params = Z.of_nat n ->
  isCustomUD_ params = false \/ customU_ params = None \/ customD_ params = None ->
  exists res,
    priceBinomialTree params = Ok res /\
    u (crr res) =
      fexp (sigma_ params * fsqrt (T_ params / of_int (N_ params)))%num /\
    d (crr res) = (fone / u (crr res))%num.
Proof.
  intros HN Hderived. exists (resultOf params n).
  split; [by apply priceBinomialTree_nat|].
  unfold resultOf. cbn [crr]. unfold crrOf, calculateCRRParams.
  destruct (isCustomUD_ params), (customU_ params), (customD_ params);
    simpl; try done; destruct Hderived as [|[|]]; done.
Qed.

(** C8, as the code has it: in binary64, whatever [Math.exp] returns, when
    the factors are derived from the volatility (the request does not ask for
    custom factors, or one of them is missing), the result holds
    [u = exp (sigma * sqrt (T / N))] and the rounded quotient [d = 1 / u];
    and whenever [u] lies between [2 ^ -1022] and [2 ^ 1021] the product
    [u * d] is 1 or [1 - 2 ^ -53 = 0.9999999999999999], the double just below
    1. *)
Theorem derived_up_down_product (exp64 : float -> float)
    (pow64 : float -> nat -> float) (params : @MarketParams float) (n : nat) :
  N_ params = Z.of_nat n ->
  isCustomUD_ params = false \/ customU_ params = None \/ customD_ params = None ->
  exists res,
    @priceBinomialTree float (Num_float exp64 pow64) params = Ok res /\
    u (crr res) =
      exp64 (sigma_ params * PrimFloat.sqrt (T_ params / int64 (N_ params)))%float /\
    d (crr res) = (1 / u (crr res))%float /\
    ((0x1p-1022 <=? u (crr res))%float = true ->
     (u (crr res) <=? 0x1p+1021)%float = true ->
     (u (crr res) * d (crr res) =? 1)%float = true \/
     (u (crr res) * d (crr res) =? 0x1.fffffffffffffp-1)%float = true).
Proof.
  intros HN Hderived.
  destruct (@derived_factors float (Num_float exp64 pow64) params n HN Hderived)
    as (res & Hres & Hu & Hd).
  exists res. split_and!; [done..|].
  rewrite Hd. apply mul_inverse.
Qed.

(** The four-step request with the volatility 0.5 has [u] in that range, and
    its product is the double just below 1. *)
Example half_vol_product :
  let c := @crrOf float (Num_float expAtQuarter powOfOne) halfVolRequest in
  u c = expQuarter /\
  (0x1p-1022 <=? u c)%float = true /\ (u c <=? 0x1p+1021)%float = true /\
  (u c * d c)%float = 0x1.fffffffffffffp-1%float.
Proof. cbv zeta. split_and!; vm_compute; reflexivity. Qed.

(** ** Lattice construction *)

(** C5: for a step count [N = n >= 0] (in particular for every [N >= 1]) the
    stock lattice has exactly [N + 1] levels, level [i] has exactly [i + 1]
    nodes, indexed [j = 0..i], the lattice has [(N + 1)(N + 2) / 2] nodes in
    all, and the price stored at node [(i, j)] is the product
    [S * pow u j * pow d (i - j)] itself, as one expression of the source's
    arithmetic and not a value carried over from a neighbouring node. *)
Theorem stock_lattice_shape {F} `{Num F} (S u d : F) (n : nat) :
  exists t,
    buildStockTree S u d (Z.of_nat n) = Ok t /\
    length t = n + 1 /\
    (forall i, i <= n -> exists r,
       row t i = Ok r /\ length r = i + 1 /\
       forall j, j <= i ->
         aget r j = Some (S * fpow u j * fpow d (i - j))%num) /\
    nodeCount t = (n + 1) * (n + 2) / 2.
Proof.
  exists (triangle (stockAt S u d) n). split_and!.
  - apply buildStockTree_nat.
  - apply length_triangle.
  - intros i Hi. exists (cells (stockAt S u d i) (i + 1)).
    rewrite row_triangle by done. split_and!; [done|apply length_cells|].
    intros j Hj. by rewrite aget_cells by lia.
  - rewrite <- nodeCount_triangle with (g := stockAt S u d).
    by rewrite Nat.mul_comm, Nat.div_mul.
Qed.

(** ** Backward induction *)

(** C1: European pricing with step count [N = n].  The pipeline returns a
    result in which every node of step [N] holds the terminal payoff of its
    stock price, every earlier node [(i, j)], [0 <= j <= i <= N - 1], holds
    [discount * (p * value (i+1, j+1) + (1 - p) * value (i+1, j))], the
    returned price is the value at node [(0, 0)], and every early-exercise
    flag is false. *)
Theorem european_lattice {F} `{Num F} (params : @MarketParams F) (n : nat) :
  N_ params = Z.of_nat n ->
  isAmerican_ params = false ->
  exists res,
    priceBinomialTree params = Ok res /\
    (forall j, j <= n -> exists sN,
       cell (stockTree res) n j = Ok sN /\
       cell (optionTree res) n j = Ok (payoff sN (K_ params) (isCall_ params))) /\
    (forall i j, j <= i -> i < n -> exists vu vd,
       cell (optionTree res) (i + 1) (j + 1) = Ok vu /\
       cell (optionTree res) (i + 1) j = Ok vd /\
       cell (optionTree res) i j =
         Ok (discount (crr res) *
             (p (crr res) * vu + (fone - p (crr res)) * vd))%num) /\
    cell (optionTree res) 0 0 = Ok (price res) /\
    (forall i j, j <= i <= n -> cell (earlyExercise res) i j = Ok false) /\
    (forall i r j b,
       row (earlyExercise res) i = Ok r -> aget r j = Some b -> b = false).
Proof.
  intros HN Hstyle. exists (resultOf params n).
  split; [by apply priceBinomialTree_nat|].
  unfold resultOf, valueOf, flagOf. rewrite Hstyle. simpl. split_and!.
  - intros j Hj. exists (stockOf params n j).
    rewrite !cell_triangle by lia. unfold europeanAt.
    by rewrite Nat.sub_diag.
  - intros i j Hj Hi. eexists _, _. rewrite !cell_triangle by lia.
    split_and!; [done|done|]. unfold europeanAt.
    by replace (n - i) with (S (n - (i + 1))) by lia.
  - by rewrite cell_triangle by lia.
  - intros i j Hij. by rewrite cell_triangle by lia.
  - intros i r j b Hr Hb. by rewrite (triangle_flag_read _ _ _ _ _ _ Hr Hb).
Qed.

(** C2: American pricing over a stock lattice whose nodes are defined.  At
    every interior node ([i < N]) the stored value is the exercise payoff and
    the flag is true when the exercise value is greater than the hold value,
    and otherwise the stored value is the hold value and the flag is false;
    so a tie is resolved to holding (for every arithmetic in which no number
    is greater than itself).  Every node of step [N] holds the payoff with
    flag false. *)
Theorem american_exercise_rule {F} `{Num F} (stockTree : tree F)
    (s : nat -> nat -> F) (K p discount : F) (isCall : bool) (n : nat) :
  (forall x : F, fgt x x = false) ->
  (forall i j, j <= i <= n -> cell stockTree i j = Ok (s i j)) ->
  exists optionTree earlyExercise,
    priceAmerican stockTree K p discount isCall (Z.of_nat n) =
      Ok (optionTree, earlyExercise) /\
    (forall i j, j <= i -> i < n -> exists vu vd v b,
       cell optionTree (i + 1) (j + 1) = Ok vu /\
       cell optionTree (i + 1) j = Ok vd /\
       cell optionTree i j = Ok v /\
       cell earlyExercise i j = Ok b /\
       let holdValue := (discount * (p * vu + (fone - p) * vd))%num in
       let exerciseValue := payoff (s i j) K isCall in
       (fgt exerciseValue holdValue = true -> v = exerciseValue /\ b = true) /\
       (fgt exerciseValue holdValue = false -> v = holdValue /\ b = false) /\
       (exerciseValue = holdValue -> v = holdValue /\ b = false)) /\
    (forall j, j <= n ->
       cell optionTree n j = Ok (payoff (s n j) K isCall) /\
       cell earlyExercise n j = Ok false).
Proof.
  intros Hirr Hstock. eexists _, _.
  split; [by apply (priceAmerican_nat s)|]. split.
  - intros i j Hj Hi. eexists _, _, _, _. rewrite !cell_triangle by lia.
    do 4 (split; [done|]). cbv zeta. split_and!.
    + intros Hgt. unfold americanAt, americanFlagAt in *.
      replace (n - i) with (S (n - (i + 1))) by lia. simpl.
      unfold holdOf. by rewrite Hgt.
    + intros Hgt. unfold americanAt, americanFlagAt in *.
      replace (n - i) with (S (n - (i + 1))) by lia. simpl.
      unfold holdOf. by rewrite Hgt.
    + intros Htie. unfold americanAt, americanFlagAt in *.
      replace (n - i) with (S (n - (i + 1))) by lia. simpl.
      unfold holdOf. by rewrite Htie, Hirr.
  - intros j Hj. rewrite !cell_triangle by lia.
    unfold americanAt, americanFlagAt. by rewrite Nat.sub_diag.
Qed.

(** ** Early-exercise collection *)

(** On three lattices of two steps in which every node is flagged, the
    collector returns the three nodes of the steps 0 and 1, in this order, and
    none of the step 2. *)
Example collector_skips_last_step :
  getEarlyExerciseNodes (triangle stepStock 2) (triangle stepValue 2)
    (triangle allFlagged 2) 2 =
  Ok [nodeRecord stepStock stepValue 0 0;
      nodeRecord stepStock stepValue 1 0;
      nodeRecord stepStock stepValue 1 1].
Proof. reflexivity. Qed.

(** C6: the early-exercise records.  Over any three lattices with the levels
    [0..N], whatever flags they carry, [getEarlyExerciseNodes] returns
    exactly the records of the flagged nodes of the steps [< N], each with
    the stock price and the option value of its node: a flagged node of
    step [N] has no record.  The list is strictly increasing by step and
    then by state, so that no node has two records.  In the result of the
    pipeline, the list of an American request is what the collector returns
    on the lattices of the result, and the list of a European request is
    empty. *)
Theorem early_exercise_records {F} `{Num F} (params : @MarketParams F) (n : nat)
    (stocks values : tree F) (flags : tree bool)
    (s V : nat -> nat -> F) (Fl : nat -> nat -> bool) :
  N_ params = Z.of_nat n ->
  (forall i j, j <= i <= n ->
     cell stocks i j = Ok (s i j) /\ cell values i j = Ok (V i j) /\
     cell flags i j = Ok (Fl i j)) ->
  (exists nodes,
     getEarlyExerciseNodes stocks values flags (N_ params) = Ok nodes /\
     (forall r, r ∈ nodes <->
        exists i j, i < n /\ j <= i /\ Fl i j = true /\
          r = {| step := i; state := j;
                 stockPrice := s i j; optionValue := V i j |}) /\
     (forall r, r ∈ nodes -> step r <> n) /\
     StronglySorted nodeBefore nodes /\
     NoDup (nodeKey <$> nodes)) /\
  exists res,
    priceBinomialTree params = Ok res /\
    let nodes := earlyExerciseNodes res in
    (isAmerican_ params = false -> nodes = []) /\
    (isAmerican_ params = true ->
       getEarlyExerciseNodes (stockTree res) (optionTree res)
         (earlyExercise res) (N_ params) = Ok nodes /\
       (forall r, r ∈ nodes ->
          step r < n /\ state r <= step r /\
          cell (earlyExercise res) (step r) (state r) = Ok true /\
          cell (stockTree res) (step r) (state r) = Ok (stockPrice r) /\
          cell (optionTree res) (step r) (state r) = Ok (optionValue r)) /\
       (forall i j, i < n -> j <= i ->
          cell (earlyExercise res) i j = Ok true ->
          exists r, r ∈ nodes /\ step r = i /\ state r = j) /\
       StronglySorted nodeBefore nodes /\
       NoDup (nodeKey <$> nodes)).
Proof.
  intros HN Hcells. split.
  - exists (flaggedBelow s V Fl n). rewrite HN. split_and!.
    + apply getEarlyExerciseNodes_cells.
      * intros i j Hj Hi. apply Hcells. lia.
      * intros i j Hj Hi _. split; apply Hcells; lia.
    + intros r. apply elem_of_flaggedBelow.
    + intros r (i & j & Hi & _ & _ & ->)%elem_of_flaggedBelow. simpl. lia.
    + apply flaggedBelow_sorted.
    + apply nodeBefore_keys, flaggedBelow_sorted.
  - exists (resultOf params n).
    split; [by apply priceBinomialTree_nat|].
    unfold resultOf. simpl. split; [intros Hstyle; by rewrite Hstyle|].
    intros Hstyle. rewrite Hstyle, HN. split_and!.
    + apply getEarlyExerciseNodes_triangle.
    + intros r (i & j & Hi & Hj & Hfl & ->)%elem_of_flaggedBelow. simpl.
      rewrite !cell_triangle by lia. by rewrite Hfl.
    + intros i j Hi Hj Hfl. rewrite cell_triangle in Hfl by lia.
      injection Hfl as Hfl.
      exists (nodeRecord (stockOf params) (valueOf params n) i j).
      split; [|done]. apply elem_of_flaggedBelow. by exists i, j.
    + apply flaggedBelow_sorted.
    + apply nodeBefore_keys, flaggedBelow_sorted.
Qed.

(** ** Greeks *)

(** C7, as the code has it: for [N = 0] the Delta and the Gamma of the result
    are both 0; for [N = 1] the Gamma is 0 and the Delta is the difference
    quotient [(V(1,1) - V(1,0)) / (S(1,1) - S(1,0))] of the two nodes of
    step 1.  In both cases the pipeline returns. *)
Theorem greeks_degenerate {F} `{Num F} (params : @MarketParams F) :
  (N_ params = 0 \/ N_ params = 1)%Z ->
  exists res,
    priceBinomialTree params = Ok res /\
    gamma res = fzero /\
    (N_ params = 0%Z -> delta res = fzero) /\
    (N_ params = 1%Z -> exists Su Sd Vu Vd,
       cell (stockTree res) 1 1 = Ok Su /\
       cell (stockTree res) 1 0 = Ok Sd /\
       cell (optionTree res) 1 1 = Ok Vu /\
       cell (optionTree res) 1 0 = Ok Vd /\
       delta res = ((Vu - Vd) / (Su - Sd))%num).
Proof.
  intros [HN|HN].
  - exists (resultOf params 0). split; [by apply priceBinomialTree_nat|].
    split_and!; [done|done|]. intros HN'. rewrite HN in HN'. done.
  - exists (resultOf params 1). split; [by apply priceBinomialTree_nat|].
    split_and!; [done| |].
    + intros HN'. rewrite HN in HN'. done.
    + intros _. eexists _, _, _, _. unfold resultOf. simpl.
      rewrite !cell_triangle by lia. done.
Qed.

(** ** Claims in real arithmetic *)

Section RealClaims.
Local Open Scope R_scope.

(** *** The concrete requests, evaluated *)

Lemma steep_p b : p (crrOf (steepRequest b)) = 3.
Proof.
  unfold crrOf, calculateCRRParams. simpl.
  rewrite Rmult_0_l, exp_0. lra.
Qed.

Lemma steep_discount b : discount (crrOf (steepRequest b)) = 1.
Proof.
  unfold crrOf, calculateCRRParams. simpl.
  rewrite Ropp_0, Rmult_0_l, exp_0. lra.
Qed.

(** Unfolds the value at a node of a concrete request down to literals. *)
Ltac unfold_request :=
  unfold holdOf, payoff, stockOf, stockAt;
  cbn [fgt fmax fsub fmul fadd fdiv fone fzero fpow Num_R isCall_ K_ S_ u d
       crrOf steepRequest oneStepRequest isCustomUD_ calculateCRRParams
       customU_ customD_ Nat.sub Nat.add Rpow_def.pow].

Lemma steep_american_price : price (resultOf (steepRequest true) 2) = 29.
Proof.
  unfold resultOf, valueOf, americanAt. cbn [price isAmerican_ steepRequest].
  cbn [Nat.sub americanValue Nat.add].
  rewrite steep_p, steep_discount. unfold_request. eval_real. lra.
Qed.

Lemma steep_european_price : price (resultOf (steepRequest false) 2) = 33.
Proof.
  unfold resultOf, valueOf, europeanAt. cbn [price isAmerican_ steepRequest].
  cbn [Nat.sub europeanValue Nat.add].
  rewrite steep_p, steep_discount. unfold_request. eval_real. lra.
Qed.

Lemma oneStep_delta b : delta (resultOf (oneStepRequest b) 1) = 2 / 3.
Proof.
  unfold resultOf. cbn [delta]. case_decide; [lia|].
  unfold valueOf, americanAt, europeanAt.
  destruct b; cbn [isAmerican_ oneStepRequest Nat.sub americanValue europeanValue];
    unfold_request; eval_real; lra.
Qed.

(** C3 fails as stated: for the two-step call with [u = 1/2], [d = 1/4] and
    [r = 0] the risk-neutral probability is 3; the American price is 29 and
    the European price is 33. *)
Lemma optionality_fails :
  exists ra re,
    priceBinomialTree (steepRequest true) = Ok ra /\
    priceBinomialTree (steepRequest false) = Ok re /\
    price ra = 29 /\ price re = 33 /\ ~ (price re <= price ra).
Proof.
  exists (resultOf (steepRequest true) 2), (resultOf (steepRequest false) 2).
  rewrite steep_american_price, steep_european_price.
  split_and!; [by apply priceBinomialTree_nat..|done|done|lra].
Qed.

(** C7 fails as stated: for the one-step at-the-money call with [u = 2] and
    [d = 1/2] the Delta of the result is 2/3. *)
Lemma one_step_delta_nonzero :
  exists res,
    priceBinomialTree (oneStepRequest false) = Ok res /\
    N_ (oneStepRequest false) = 1%Z /\
    delta res = 2 / 3 /\ delta res <> 0.
Proof.
  exists (resultOf (oneStepRequest false) 1). rewrite oneStep_delta.
  split_and!; [by apply priceBinomialTree_nat|done|done|lra].
Qed.

End RealClaims.

(** ** American against European, in binary64 *)

Section Optionality.
Variable exp64 : float -> float.
Variable pow64 : float -> nat -> float.
Local Abbreviation holdOf64 := (@holdOf float (Num_float exp64 pow64)).
Local Abbreviation payoff64 := (@payoff float (Num_float exp64 pow64)).
Local Abbreviation europeanValue64 :=
  (@europeanValue float (Num_float exp64 pow64)).
Local Abbreviation americanValue64 :=
  (@americanValue float (Num_float exp64 pow64)).
Variable s : nat -> nat -> float.
Variables K p discount : float.
Variable isCall : bool.
Hypothesis p_nonneg : (0 <=? p)%float = true.
Hypothesis p_le_1 : (p <=? 1)%float = true.
Hypothesis discount_nonneg : (0 <=? discount)%float = true.

(** The hold value is monotone in the values of the two successors, where
    it is not NaN. *)
Lemma holdOf_leb_mono vu vd vu' vd' :
  (vu <=? vu')%float = true -> (vd <=? vd')%float = true ->
  is_nan (holdOf64 p discount vu vd) = false ->
  is_nan (holdOf64 p discount vu' vd') = false ->
  (holdOf64 p discount vu vd <=? holdOf64 p discount vu' vd')%float = true.
Proof.
  unfold holdOf. cbn [fmul fadd fsub fone Num_float].
  intros Hu Hd Hn Hn'.
  destruct (mul_is_nan _ _ Hn) as [_ Hs]. destruct (add_is_nan _ _ Hs) as [? ?].
  destruct (mul_is_nan _ _ Hn') as [_ Hs']. destruct (add_is_nan _ _ Hs') as [? ?].
  apply mul_leb_mono; [done| |done..].
  apply add_leb_mono; [| |done..]; apply mul_leb_mono; try done.
  all: by apply one_minus_nonneg.
Qed.

(** A hold value that is not NaN has successors that are not NaN. *)
Lemma holdOf_is_nan vu vd :
  is_nan (holdOf64 p discount vu vd) = false ->
  is_nan vu = false /\ is_nan vd = false.
Proof.
  unfold holdOf. cbn [fmul fadd fsub fone Num_float]. intros Hn.
  destruct (mul_is_nan _ _ Hn) as [_ Hs]. destruct (add_is_nan _ _ Hs) as [Hu Hd].
  apply mul_is_nan in Hu as [_ ?]. apply mul_is_nan in Hd as [_ ?]. done.
Qed.

Lemma european_leb_american k i j :
  is_nan (europeanValue64 s K p discount isCall k i j) = false ->
  is_nan (americanValue64 s K p discount isCall k i j) = false ->
  (europeanValue64 s K p discount isCall k i j <=?
   americanValue64 s K p discount isCall k i j)%float = true.
Proof.
  revert i j. induction k as [|k IH]; intros i j;
    cbn [europeanValue americanValue]; cbv zeta.
  { intros He _. by apply leb_refl. }
  cbn [fgt Num_float].
  set (he := holdOf64 p discount (europeanValue64 s K p discount isCall k (i + 1) (j + 1))
                               (europeanValue64 s K p discount isCall k (i + 1) j)).
  set (ha := holdOf64 p discount (americanValue64 s K p discount isCall k (i + 1) (j + 1))
                               (americanValue64 s K p discount isCall k (i + 1) j)).
  set (e := payoff64 (s i j) K isCall).
  intros He Ha.
  assert (is_nan ha = false) as Hha.
  { revert Ha. destruct (ha <? e)%float eqn:Hlt; [|done].
    intros _. apply ltb_rank in Hlt. tauto. }
  destruct (holdOf_is_nan _ _ He) as [Heu Hed].
  destruct (holdOf_is_nan _ _ Hha) as [Hau Had].
  assert ((he <=? ha)%float = true) as Hhold
    by (apply holdOf_leb_mono; [apply IH; done..|done|done]).
  destruct (ha <? e)%float eqn:Hlt; [|done].
  apply leb_trans with ha; [done|]. by apply ltb_leb.
Qed.

Lemma payoff_nonneg64 x :
  is_nan (payoff64 x K isCall) = false -> (0 <=? payoff64 x K isCall)%float = true.
Proof.
  unfold payoff. cbn [fmax fsub fzero Num_float].
  destruct isCall; apply max64_nonneg.
Qed.

Lemma holdOf_nonneg64 vu vd :
  (0 <=? vu)%float = true -> (0 <=? vd)%float = true ->
  is_nan (holdOf64 p discount vu vd) = false ->
  (0 <=? holdOf64 p discount vu vd)%float = true.
Proof.
  unfold holdOf. cbn [fmul fadd fsub fone Num_float]. intros Hu Hd Hn.
  destruct (mul_is_nan _ _ Hn) as [_ Hs]. destruct (add_is_nan _ _ Hs) as [? ?].
  apply mul_nonneg; [done| |done].
  apply add_nonneg; [| |done]; apply mul_nonneg; try done.
  by apply one_minus_nonneg.
Qed.

Lemma europeanValue_nonneg64 k i j :
  is_nan (europeanValue64 s K p discount isCall k i j) = false ->
  (0 <=? europeanValue64 s K p discount isCall k i j)%float = true.
Proof.
  revert i j. induction k as [|k IH]; intros i j; cbn [europeanValue].
  { apply payoff_nonneg64. }
  intros Hn. destruct (holdOf_is_nan _ _ Hn) as [Hu Hd].
  apply holdOf_nonneg64; [by apply IH..|done].
Qed.

Lemma americanValue_nonneg64 k i j :
  is_nan (americanValue64 s K p discount isCall k i j) = false ->
  (0 <=? americanValue64 s K p discount isCall k i j)%float = true.
Proof.
  revert i j. induction k as [|k IH]; intros i j;
    cbn [americanValue]; cbv zeta.
  { apply payoff_nonneg64. }
  destruct (fgt _ _); [apply payoff_nonneg64|].
  intros Hn. destruct (holdOf_is_nan _ _ Hn) as [Hu Hd].
  apply holdOf_nonneg64; [by apply IH..|done].
Qed.

End Optionality.

(** The two-step put in binary64: the American request exercises at node
    [(1, 0)] and is priced 39.688303306451445, the European one
    37.57090760096553. *)
Example put_request_prices :
  exists ra re,
    @priceBinomialTree float (Num_float expAtThirtySecond powByProduct)
      (putRequest true) = Ok ra /\
    @priceBinomialTree float (Num_float expAtThirtySecond powByProduct)
      (putRequest false) = Ok re /\
    price ra = 0x1.3d81a529f7804p+5%float /\
    price re = 0x1.2c913801197a7p+5%float /\
    (price re <? price ra)%float = true /\
    earlyExerciseNodes ra =
      [{| step := 1; state := 0; stockPrice := 50%float;
          optionValue := 60%float |}].
Proof. eexists _, _. split_and!; vm_compute; reflexivity. Qed.

(** The two-step call with [u = 1/2], [d = 1/4] and [r = 0] in binary64,
    where all its numbers are exact: [p = 3], and the prices are 29 and 33 as
    they are over the reals. *)
Example steep_request_prices :
  exists ra re,
    @priceBinomialTree float (Num_float expOfZero powByProduct)
      (steepRequest64 true) = Ok ra /\
    @priceBinomialTree float (Num_float expOfZero powByProduct)
      (steepRequest64 false) = Ok re /\
    p (crr ra) = 3%float /\ discount (crr ra) = 1%float /\
    price ra = 29%float /\ price re = 33%float /\
    (price re <=? price ra)%float = false.
Proof. eexists _, _. split_and!; vm_compute; reflexivity. Qed.

(** With [0 <= p <= 1] and [0 <= discount] a price can still be NaN, and NaN
    compares with nothing: for the volatility 1000 the factors are
    [u = Infinity] and [d = 0], the probability is 0, and both prices are
    NaN. *)
Example overflow_request_prices :
  exists ra re,
    @priceBinomialTree float (Num_float expOverflow powByProduct)
      (overflowRequest true) = Ok ra /\
    @priceBinomialTree float (Num_float expOverflow powByProduct)
      (overflowRequest false) = Ok re /\
    u (crr ra) = infinity /\ d (crr ra) = 0%float /\
    p (crr ra) = 0%float /\ discount (crr ra) = 1%float /\
    is_nan (price ra) = true /\ is_nan (price re) = true /\
    (price re <=? price ra)%float = false.
Proof. eexists _, _. split_and!; vm_compute; reflexivity. Qed.

(** C3, with what the code leaves unchecked made explicit.  In binary64, for
    every implementation of [Math.exp] and [Math.pow] and every step count
    [N = n], when the risk-neutral probability satisfies [0 <= p <= 1] and the
    discount factor [0 <= discount], the American and the European request
    with the same parameters both return, with the same parameters [crr], and
    the American price is greater than or equal to the European price
    whenever neither of the two prices is NaN. *)
Theorem american_ge_european (exp64 : float -> float)
    (pow64 : float -> nat -> float) (params : @MarketParams float) (n : nat) :
  let c := @crrOf float (Num_float exp64 pow64) params in
  N_ params = Z.of_nat n ->
  (0 <=? p c)%float = true -> (p c <=? 1)%float = true ->
  (0 <=? discount c)%float = true ->
  exists ra re,
    @priceBinomialTree float (Num_float exp64 pow64) (withStyle params true)
      = Ok ra /\
    @priceBinomialTree float (Num_float exp64 pow64) (withStyle params false)
      = Ok re /\
    crr ra = c /\ crr re = c /\
    (is_nan (price re) = false -> is_nan (price ra) = false ->
     (price re <=? price ra)%float = true).
Proof.
  intros c HN Hp0 Hp1 Hd.
  exists (@resultOf float (Num_float exp64 pow64) (withStyle params true) n),
         (@resultOf float (Num_float exp64 pow64) (withStyle params false) n).
  split_and!; [by apply priceBinomialTree_nat..|done|done|].
  unfold resultOf, valueOf. cbn [price isAmerican_ withStyle].
  by apply european_leb_american.
Qed.

(** ** The value of immediate exercise, in binary64 *)

(** C10 fails as stated: in the one-step request with the custom factors
    [u = d = 1] and [r = 0] the probability [p] is NaN, the hold value of the
    root is NaN, and the root stores NaN, which is greater than or equal to
    no number; the payoff of the root is 0. *)
Lemma nan_hold_value :
  exists res v,
    @priceBinomialTree float (Num_float expOfZero powOfOne) flatRequest = Ok res /\
    is_nan (p (crr res)) = true /\
    cell (stockTree res) 0 0 = Ok 100%float /\
    cell (optionTree res) 0 0 = Ok v /\
    is_nan v = true /\
    @payoff float (Num_float expOfZero powOfOne) 100%float (K_ flatRequest) true
      = 0%float /\
    (0 <=? v)%float = false.
Proof. eexists _, _. split_and!; vm_compute; reflexivity. Qed.

(** C10, as the code has it.  American pricing in binary64, over a stock
    lattice whose nodes are defined, for every [p] and [discount] (outside
    [0, 1], infinite or NaN as well).  At every node [(i, j)],
    [0 <= j <= i <= N], the payoff of immediate exercise is not greater than
    the stored value; the stored value is greater than or equal to that
    payoff whenever neither of the two is NaN; and the two are equal when
    the node is flagged or terminal. *)
Theorem american_dominates_payoff (exp64 : float -> float)
    (pow64 : float -> nat -> float) (stockTree : tree float)
    (s : nat -> nat -> float) (K p discount : float) (isCall : bool) (n : nat) :
  (forall i j, j <= i <= n -> cell stockTree i j = Ok (s i j)) ->
  exists optionTree earlyExercise,
    @priceAmerican float (Num_float exp64 pow64) stockTree K p discount isCall
      (Z.of_nat n) = Ok (optionTree, earlyExercise) /\
    forall i j, j <= i <= n -> exists v b,
      cell optionTree i j = Ok v /\
      cell earlyExercise i j = Ok b /\
      let exerciseValue :=
        @payoff float (Num_float exp64 pow64) (s i j) K isCall in
      (v <? exerciseValue)%float = false /\
      (is_nan v = false -> is_nan exerciseValue = false ->
       (exerciseValue <=? v)%float = true) /\
      (b = true \/ i = n -> v = exerciseValue).
Proof.
  intros Hstock. eexists _, _.
  split; [by apply (@priceAmerican_nat float (Num_float exp64 pow64) s)|].
  intros i j Hij. eexists _, _. rewrite !cell_triangle by lia.
  do 2 (split; [done|]). cbv zeta. split_and!.
  - apply (@americanValue_not_exceeded float (Num_float exp64 pow64)).
    intros x. apply ltb_irrefl.
  - intros Hv He. apply leb_of_not_ltb; [done..|].
    apply (@americanValue_not_exceeded float (Num_float exp64 pow64)).
    intros x. apply ltb_irrefl.
  - intros [Hfl| ->].
    + by apply americanValue_flagged.
    + unfold americanAt. by rewrite Nat.sub_diag.
Qed.

(** ** Totality *)


(** ** The theorems at concrete inputs *)

Section Witnesses.
Local Open Scope R_scope.

Lemma european_lattice_witness :
  N_ (oneStepRequest false) = Z.of_nat 1 /\
  isAmerican_ (oneStepRequest false) = false /\
  exists res,
    priceBinomialTree (oneStepRequest false) = Ok res /\
    (forall j, (j <= 1)%nat -> exists sN,
       cell (stockTree res) 1 j = Ok sN /\
       cell (optionTree res) 1 j = Ok (payoff sN 100 true)) /\
    (forall i j, (j <= i)%nat -> (i < 1)%nat -> exists vu vd,
       cell (optionTree res) (i + 1) (j + 1) = Ok vu /\
       cell (optionTree res) (i + 1) j = Ok vd /\
       cell (optionTree res) i j =
         Ok (discount (crr res) *
             (p (crr res) * vu + (1 - p (crr res)) * vd))) /\
    cell (optionTree res) 0 0 = Ok (price res) /\
    (forall i j, (j <= i <= 1)%nat -> cell (earlyExercise res) i j = Ok false) /\
    (forall i r j b,
       row (earlyExercise res) i = Ok r -> aget r j = Some b -> b = false).
Proof.
  split; [reflexivity|]. split; [reflexivity|].
  exact (european_lattice (oneStepRequest false) 1 eq_refl eq_refl).
Defined.

Lemma american_exercise_rule_witness :
  let stockTree := triangle (fun _ _ => 100) 1 in
  (forall x : R, fgt x x = false) /\
  (forall i j, (j <= i <= 1)%nat -> cell stockTree i j = Ok 100) /\
  exists optionTree earlyExercise,
    priceAmerican stockTree 100 (1 / 2) 1 true (Z.of_nat 1) =
      Ok (optionTree, earlyExercise) /\
    (forall i j, (j <= i)%nat -> (i < 1)%nat -> exists vu vd v b,
       cell optionTree (i + 1) (j + 1) = Ok vu /\
       cell optionTree (i + 1) j = Ok vd /\
       cell optionTree i j = Ok v /\
       cell earlyExercise i j = Ok b /\
       let holdValue := 1 * (1 / 2 * vu + (1 - 1 / 2) * vd) in
       let exerciseValue := payoff 100 100 true in
       (fgt exerciseValue holdValue = true -> v = exerciseValue /\ b = true) /\
       (fgt exerciseValue holdValue = false -> v = holdValue /\ b = false) /\
       (exerciseValue = holdValue -> v = holdValue /\ b = false)) /\
    (forall j, (j <= 1)%nat ->
       cell optionTree 1 j = Ok (payoff 100 100 true) /\
       cell earlyExercise 1 j = Ok false).
Proof.
  intros stockTree.
  assert (forall i j, (j <= i <= 1)%nat -> cell stockTree i j = Ok 100) as Hs
    by (intros i j Hij; apply (cell_triangle (fun _ _ => 100)); exact Hij).
  split; [exact Rgtb_irrefl|]. split; [exact Hs|].
  exact (american_exercise_rule stockTree (fun _ _ => 100) 100 (1 / 2) 1 true 1
           Rgtb_irrefl Hs).
Defined.

Lemma early_exercise_records_witness :
  let stocks := triangle stepStock 2 in
  let values := triangle stepValue 2 in
  let flags := triangle allFlagged 2 in
  N_ (steepRequest true) = Z.of_nat 2 /\
  (forall i j, (j <= i <= 2)%nat ->
     cell stocks i j = Ok (stepStock i j) /\
     cell values i j = Ok (stepValue i j) /\
     cell flags i j = Ok (allFlagged i j)) /\
  (exists nodes,
     getEarlyExerciseNodes stocks values flags (N_ (steepRequest true)) = Ok nodes /\
     (forall r, r ∈ nodes <->
        exists i j, (i < 2)%nat /\ (j <= i)%nat /\ allFlagged i j = true /\
          r = {| step := i; state := j;
                 stockPrice := stepStock i j; optionValue := stepValue i j |}) /\
     (forall r, r ∈ nodes -> step r <> 2%nat) /\
     StronglySorted nodeBefore nodes /\
     NoDup (nodeKey <$> nodes)) /\
  exists res,
    priceBinomialTree (steepRequest true) = Ok res /\
    let nodes := earlyExerciseNodes res in
    (isAmerican_ (steepRequest true) = false -> nodes = []) /\
    (isAmerican_ (steepRequest true) = true ->
       getEarlyExerciseNodes (stockTree res) (optionTree res)
         (earlyExercise res) (N_ (steepRequest true)) = Ok nodes /\
       (forall r, r ∈ nodes ->
          (step r < 2)%nat /\ (state r <= step r)%nat /\
          cell (earlyExercise res) (step r) (state r) = Ok true /\
          cell (stockTree res) (step r) (state r) = Ok (stockPrice r) /\
          cell (optionTree res) (step r) (state r) = Ok (optionValue r)) /\
       (forall i j, (i < 2)%nat -> (j <= i)%nat ->
          cell (earlyExercise res) i j = Ok true ->
          exists r, r ∈ nodes /\ step r = i /\ state r = j) /\
       StronglySorted nodeBefore nodes /\
       NoDup (nodeKey <$> nodes)).
Proof.
  intros stocks values flags.
  assert (forall i j, (j <= i <= 2)%nat ->
     cell stocks i j = Ok (stepStock i j) /\
     cell values i j = Ok (stepValue i j) /\
     cell flags i j = Ok (allFlagged i j)) as Hcells
    by (intros i j Hij; unfold stocks, values, flags;
        rewrite !cell_triangle by lia; auto).
  split; [reflexivity|]. split; [exact Hcells|].
  exact (early_exercise_records (steepRequest true) 2 stocks values flags
           stepStock stepValue allFlagged eq_refl Hcells).
Defined.

Lemma greeks_degenerate_witness :
  (N_ (oneStepRequest false) = 0 \/ N_ (oneStepRequest false) = 1)%Z /\
  exists res,
    priceBinomialTree (oneStepRequest false) = Ok res /\
    gamma res = 0 /\
    (N_ (oneStepRequest false) = 0%Z -> delta res = 0) /\
    (N_ (oneStepRequest false) = 1%Z -> exists Su Sd Vu Vd,
       cell (stockTree res) 1 1 = Ok Su /\
       cell (stockTree res) 1 0 = Ok Sd /\
       cell (optionTree res) 1 1 = Ok Vu /\
       cell (optionTree res) 1 0 = Ok Vd /\
       delta res = (Vu - Vd) / (Su - Sd)).
Proof.
  split; [right; reflexivity|].
  exact (greeks_degenerate (oneStepRequest false) (or_intror eq_refl)).
Defined.

End Witnesses.

Lemma derived_up_down_product_witness :
  N_ halfVolRequest = Z.of_nat 4 /\
  (isCustomUD_ halfVolRequest = false \/ customU_ halfVolRequest = None \/
   customD_ halfVolRequest = None) /\
  exists res,
    @priceBinomialTree float (Num_float expAtQuarter powOfOne) halfVolRequest
      = Ok res /\
    u (crr res) =
      expAtQuarter (sigma_ halfVolRequest *
        PrimFloat.sqrt (T_ halfVolRequest / int64 (N_ halfVolRequest)))%float /\
    d (crr res) = (1 / u (crr res))%float /\
    ((0x1p-1022 <=? u (crr res))%float = true ->
     (u (crr res) <=? 0x1p+1021)%float = true ->
     (u (crr res) * d (crr res) =? 1)%float = true \/
     (u (crr res) * d (crr res) =? 0x1.fffffffffffffp-1)%float = true).
Proof.
  split; [reflexivity|]. split; [left; reflexivity|].
  exact (derived_up_down_product expAtQuarter powOfOne halfVolRequest 4
           eq_refl (or_introl eq_refl)).
Defined.

Lemma american_ge_european_witness :
  let c := @crrOf float (Num_float expAtThirtySecond powByProduct)
             (putRequest true) in
  N_ (putRequest true) = Z.of_nat 2 /\
  (0 <=? p c)%float = true /\ (p c <=? 1)%float = true /\
  (0 <=? discount c)%float = true /\
  exists ra re,
    @priceBinomialTree float (Num_float expAtThirtySecond powByProduct)
      (withStyle (putRequest true) true) = Ok ra /\
    @priceBinomialTree float (Num_float expAtThirtySecond powByProduct)
      (withStyle (putRequest true) false) = Ok re /\
    crr ra = c /\ crr re = c /\
    (is_nan (price re) = false -> is_nan (price ra) = false ->
     (price re <=? price ra)%float = true).
Proof.
  intros c.
  assert ((0 <=? p c)%float = true) as Hp0 by (vm_compute; reflexivity).
  assert ((p c <=? 1)%float = true) as Hp1 by (vm_compute; reflexivity).
  assert ((0 <=? discount c)%float = true) as Hd by (vm_compute; reflexivity).
  split; [reflexivity|]. split; [exact Hp0|]. split; [exact Hp1|].
  split; [exact Hd|].
  exact (american_ge_european expAtThirtySecond powByProduct (putRequest true) 2
           eq_refl Hp0 Hp1 Hd).
Defined.

Lemma american_dominates_payoff_witness :
  let stockTree := triangle (fun _ _ => 100%float) 1 in
  (forall i j, j <= i <= 1 -> cell stockTree i j = Ok 100%float) /\
  exists optionTree earlyExercise,
    @priceAmerican float (Num_float expOfZero powOfOne) stockTree 90%float 2%float
      1%float false (Z.of_nat 1) = Ok (optionTree, earlyExercise) /\
    forall i j, j <= i <= 1 -> exists v b,
      cell optionTree i j = Ok v /\
      cell earlyExercise i j = Ok b /\
      let exerciseValue :=
        @payoff float (Num_float expOfZero powOfOne) 100%float 90%float false in
      (v <? exerciseValue)%float = false /\
      (is_nan v = false -> is_nan exerciseValue = false ->
       (exerciseValue <=? v)%float = true) /\
      (b = true \/ i = 1 -> v = exerciseValue).
Proof.
  intros stockTree.
  assert (forall i j, j <= i <= 1 -> cell stockTree i j = Ok 100%float) as Hs
    by (intros i j Hij; apply (cell_triangle (fun _ _ => 100%float)); exact Hij).
  split; [exact Hs|].
  exact (american_dominates_payoff expOfZero powOfOne stockTree
           (fun _ _ => 100%float) 90%float 2%float 1%float false 1 Hs).
Defined.


(** * Further properties of the code *)

Section EngineReal.
Local Open Scope R_scope.

(** X1: the payoff is never negative, and the payoff of a call minus the
    payoff of a put with the same strike is [S - K]. *)
Theorem payoff_parity (S K : R) (isCall : bool) :
  0 <= payoff S K isCall /\
  payoff S K true - payoff S K false = S - K.
Proof.
  split.
  - unfold payoff. destruct isCall; apply Rmax_r.
  - unfold payoff. simpl. unfold Rmax.
    destruct (Rle_dec (S - K) 0), (Rle_dec (K - S) 0); lra.
Qed.

End EngineReal.

(** ** Edge behaviour of the engine, in every arithmetic *)

Section EngineEdges.
Context {F : Type} `{Num F}.

(** X10: a negative step count.  For every [N < 0] the stock lattice and the
    two lattices of either pricer are empty, both Greeks of the empty
    lattices are 0, no record is collected, and the pipeline throws a
    [TypeError]. *)
Theorem negative_step_count (params : @MarketParams F) (K p discount : F)
    (isCall : bool) (stockTree optionTree : tree F) (earlyExercise : tree bool) :
  (N_ params < 0)%Z ->
  buildStockTree (S_ params) (u (crrOf params)) (d (crrOf params)) (N_ params)
    = Ok [] /\
  priceEuropean stockTree K p discount isCall (N_ params) = Ok ([], []) /\
  priceAmerican stockTree K p discount isCall (N_ params) = Ok ([], []) /\
  calculateDelta ([] : tree F) [] = Ok fzero /\
  calculateGamma ([] : tree F) [] = Ok fzero /\
  getEarlyExerciseNodes stockTree optionTree earlyExercise (N_ params) = Ok [] /\
  priceBinomialTree params = Err TypeError.
Proof.
  intros HN. split_and!.
  - by apply buildStockTree_neg.
  - by apply priceEuropean_neg.
  - by apply priceAmerican_neg.
  - done.
  - done.
  - by apply getEarlyExerciseNodes_neg.
  - by apply priceBinomialTree_neg.
Qed.

Lemma length_flaggedInRow (s V : nat -> nat -> F) Fl i m :
  length (flaggedInRow s V Fl i m) <= m.
Proof.
  induction m as [|m IH]; [done|].
  replace (Datatypes.S m) with (m + 1) by lia.
  rewrite flaggedInRow_succ, length_app.
  destruct (Fl i m); simpl; lia.
Qed.

Lemma length_flaggedBelow (s V : nat -> nat -> F) Fl m :
  2 * length (flaggedBelow s V Fl m) <= m * (m + 1).
Proof.
  induction m as [|m IH]; [simpl; lia|].
  replace (Datatypes.S m) with (m + 1) by lia.
  rewrite flaggedBelow_succ, length_app.
  pose proof (length_flaggedInRow s V Fl m (m + 1)). nia.
Qed.

(** X11: the number of early-exercise records is at most the number of
    nodes of the steps before the last, [N (N + 1) / 2]. *)
Theorem early_exercise_count (params : @MarketParams F) (n : nat) :
  N_ params = Z.of_nat n ->
  exists res,
    priceBinomialTree params = Ok res /\
    length (earlyExerciseNodes res) <= n * (n + 1) / 2.
Proof.
  intros HN. exists (resultOf params n).
  split; [by apply priceBinomialTree_nat|].
  unfold resultOf. cbn [earlyExerciseNodes].
  apply Nat.div_le_lower_bound; [done|].
  destruct (isAmerican_ params); [apply length_flaggedBelow|simpl; lia].
Qed.

(** Without a flagged node, backward induction stores the hold value
    everywhere, as European pricing does. *)
Lemma americanValue_unflagged (s : nat -> nat -> F) (K p discount : F)
    (isCall : bool) (n k i j : nat) :
  (forall i j, j <= i -> i < n ->
     americanFlagAt s K p discount isCall n i j = false) ->
  i + k = n -> j <= i ->
  americanValue s K p discount isCall k i j =
  europeanValue s K p discount isCall k i j.
Proof.
  intros Hflags. revert i j. induction k as [|k IH]; intros i j Hk Hj; [done|].
  specialize (Hflags i j Hj ltac:(lia)). unfold americanFlagAt in Hflags.
  replace (n - i) with (Datatypes.S k) in Hflags by lia.
  cbn [americanFlag] in Hflags. cbn [americanValue europeanValue]. cbv zeta.
  rewrite Hflags. by rewrite !IH by lia.
Qed.

(** X7: the American price differs from the European price through early
    exercise only.  For a step count [N = n], the American request returns
    no early-exercise record exactly when no node of a step [< N] is
    flagged, and then its option lattice, price, Delta and Gamma are those of
    the European request with the same parameters. *)
Theorem american_unflagged_is_european (params : @MarketParams F) (n : nat) :
  N_ params = Z.of_nat n ->
  exists ra re,
    priceBinomialTree (withStyle params true) = Ok ra /\
    priceBinomialTree (withStyle params false) = Ok re /\
    (earlyExerciseNodes ra = [] <->
     forall i j, j <= i -> i < n -> cell (earlyExercise ra) i j = Ok false) /\
    (earlyExerciseNodes ra = [] ->
     optionTree ra = optionTree re /\ price ra = price re /\
     delta ra = delta re /\ gamma ra = gamma re).
Proof.
  intros HN.
  exists (resultOf (withStyle params true) n), (resultOf (withStyle params false) n).
  split_and!; [by apply priceBinomialTree_nat..| |].
  all: unfold resultOf; cbn [earlyExerciseNodes earlyExercise optionTree price
                             delta gamma isAmerican_ withStyle].
  all: set (s := stockOf (withStyle params true));
    set (V := valueOf (withStyle params true) n);
    set (Fl := flagOf (withStyle params true) n).
  - split.
    + intros Hnil i j Hj Hi. rewrite cell_triangle by lia. f_equal.
      destruct (Fl i j) eqn:Hfl; [|done].
      assert (nodeRecord s V i j ∈ flaggedBelow s V Fl n) as Hin
        by (apply elem_of_flaggedBelow; by exists i, j).
      rewrite Hnil in Hin. by apply elem_of_nil in Hin.
    + intros Hflags. apply elem_of_nil_inv.
      intros r (i & j & Hi & Hj & Hfl & _)%elem_of_flaggedBelow.
      specialize (Hflags i j Hj Hi). rewrite cell_triangle in Hflags by lia.
      congruence.
  - intros Hnil.
    assert (forall i j, j <= i <= n ->
      V i j = valueOf (withStyle params false) n i j) as Hsame.
    { intros i j Hij. unfold V, valueOf, americanAt, europeanAt.
      cbn [isAmerican_ withStyle].
      apply (americanValue_unflagged _ _ _ _ _ n); [|lia..].
      intros i' j' Hj' Hi'. destruct (Fl i' j') eqn:Hfl; [|done].
      assert (nodeRecord s V i' j' ∈ flaggedBelow s V Fl n) as Hin
        by (apply elem_of_flaggedBelow; by exists i', j').
      rewrite Hnil in Hin. by apply elem_of_nil in Hin. }
    change (stockOf (withStyle params false)) with s.
    split_and!.
    + unfold triangle. apply rows_ext; [done|].
      intros i j Hi Hj. apply Hsame. lia.
    + apply Hsame. lia.
    + case_decide; [done|]. by rewrite !Hsame by lia.
    + case_decide; [done|]. by rewrite !Hsame by lia.
Qed.

End EngineEdges.

(** ** Option values in binary64 *)

(** X6: no option value is negative.  In binary64, for every implementation
    of [Math.exp] and [Math.pow] and every step count [N = n], when the
    risk-neutral probability satisfies [0 <= p <= 1] and the discount factor
    [0 <= discount], every value of the option lattice that is not NaN is
    greater than or equal to 0, and so is the price, for either exercise style
    and either option kind. *)
Theorem option_values_nonnegative (exp64 : float -> float)
    (pow64 : float -> nat -> float) (params : @MarketParams float) (n : nat) :
  let c := @crrOf float (Num_float exp64 pow64) params in
  N_ params = Z.of_nat n ->
  (0 <=? p c)%float = true -> (p c <=? 1)%float = true ->
  (0 <=? discount c)%float = true ->
  exists res,
    @priceBinomialTree float (Num_float exp64 pow64) params = Ok res /\
    (is_nan (price res) = false -> (0 <=? price res)%float = true) /\
    forall i j, j <= i <= n -> exists v,
      cell (optionTree res) i j = Ok v /\
      (is_nan v = false -> (0 <=? v)%float = true).
Proof.
  intros c HN Hp0 Hp1 Hd.
  exists (@resultOf float (Num_float exp64 pow64) params n).
  split; [by apply priceBinomialTree_nat|].
  assert (forall i j,
    is_nan (@valueOf float (Num_float exp64 pow64) params n i j) = false ->
    (0 <=? @valueOf float (Num_float exp64 pow64) params n i j)%float = true)
    as Hpos.
  { intros i j. unfold valueOf, americanAt, europeanAt.
    destruct (isAmerican_ params);
      [by apply americanValue_nonneg64 | by apply europeanValue_nonneg64]. }
  split; [apply Hpos|].
  intros i j Hij. eexists. unfold resultOf. cbn [optionTree].
  rewrite cell_triangle by lia. split; [done|apply Hpos].
Qed.

(** ** The caller: reading the form *)

Section FormProperties.
Context {F : Type} `{Num F} `{FormNum F}.
Import Form.

(** X12: [getParams] returns exactly when each of the three radio groups has
    a checked button, and throws a [TypeError] otherwise.  When it returns,
    the step count lies in [1, 20]: it is the number typed in when that lies
    in [1, 20], and 3 when the field does not parse or holds 0; and both
    custom factors are defined, whatever the mode. *)
Theorem getParams_contract (form : FormValues) :
  match getParams form with
  | Ok params =>
      is_Some (optionType form) /\ is_Some (exerciseStyle form) /\
      is_Some (crrMode form) /\
      (1 <= N_ params <= 20)%Z /\
      (forall k, numSteps form = Some k -> (1 <= k <= 20)%Z -> N_ params = k) /\
      (numSteps form = None \/ numSteps form = Some 0%Z -> N_ params = 3%Z) /\
      is_Some (customU_ params) /\ is_Some (customD_ params)
  | Err e =>
      e = TypeError /\
      (optionType form = None \/ exerciseStyle form = None \/ crrMode form = None)
  end.
Proof.
  unfold getParams.
  destruct (optionType form) as [kind|]; simpl; [|by auto].
  destruct (exerciseStyle form) as [style|]; simpl; [|by auto].
  destruct (crrMode form) as [mode|]; simpl; [|by auto].
  split_and!; try (by eexists).
  - lia.
  - lia.
  - intros k -> Hk. unfold orDefaultInt.
    destruct (Z.eqb_spec k 0); lia.
  - intros [-> | ->]; reflexivity.
Qed.

(** X13: pricing what the form holds never fails.  When the three radio
    groups have a checked button, [getParams] returns a request whose pricing
    returns a result: each lattice has the levels [0..N] with every node
    defined, for a step count [1 <= N <= 20], so no lattice has more than
    231 nodes; and in the custom mode the factors of the result are the ones
    read from the form, 1.1 and 0.9 standing in for a blank or zero field. *)
Theorem form_is_priced (form : FormValues) :
  is_Some (optionType form) ->
  is_Some (exerciseStyle form) ->
  is_Some (crrMode form) ->
  exists params res,
    getParams form = Ok params /\
    priceBinomialTree params = Ok res /\
    (1 <= N_ params <= 20)%Z /\
    populated (stockTree res) (Z.to_nat (N_ params)) /\
    populated (optionTree res) (Z.to_nat (N_ params)) /\
    populated (earlyExercise res) (Z.to_nat (N_ params)) /\
    nodeCount (stockTree res) <= 231 /\
    (crrMode form = Some "custom"%string ->
       u (crr res) = orDefault (crrUInput form) onePointOne /\
       d (crr res) = orDefault (crrDInput form) zeroPointNine).
Proof.
  intros [kind Hkind] [style Hstyle] [mode Hmode].
  unfold getParams. rewrite Hkind, Hstyle, Hmode. simpl.
  eexists _, (resultOf _ (Z.to_nat (Z.min (Z.max (orDefaultInt (numSteps form) 3) 1) 20))).
  split; [done|]. split; [apply priceBinomialTree_nat; simpl; lia|].
  split; [simpl; lia|]. cbn [N_].
  split_and!; [apply triangle_populated..| |].
  - unfold resultOf. cbn [stockTree].
    set (n := Z.to_nat _). assert (n <= 20) as Hn by (unfold n; lia).
    pose proof (nodeCount_triangle (stockOf
      {| S_ := orDefault (spotPrice form) (of_int 100);
         K_ := orDefault (strikePrice form) (of_int 100);
         r_ := (orDefault (riskFreeRate form) (of_int 5) / of_int 100)%num;
         sigma_ := (orDefault (volatility form) (of_int 20) / of_int 100)%num;
         T_ := orDefault (timeToMaturity form) (of_int 1);
         N_ := Z.min (Z.max (orDefaultInt (numSteps form) 3) 1) 20;
         isCall_ := String.eqb kind "call";
         isAmerican_ := String.eqb style "american";
         isCustomUD_ := String.eqb mode "custom";
         customU_ := Some (orDefault (crrUInput form) onePointOne);
         customD_ := Some (orDefault (crrDInput form) zeroPointNine) |}) n) as Hc.
    nia.
  - intros [= ->]. by unfold resultOf, crrOf, calculateCRRParams.
Qed.

End FormProperties.

Section FormDefaults.
Context {F : Type} `{Num F} `{FormNum F}.
Import Form.




End FormDefaults.

(** ** The renderer: layout and edges *)

Section RendererClosed.
Context {F : Type} `{Num F}.
Import Renderer.
Implicit Types (pos : nat -> nat -> @Point F) (ctx rest : list (@command F)).

Lemma calculatePositions_nat n padding W Ht :
  calculatePositions (Z.of_nat n) padding W Ht =
  Ok (triangle (positionAt (Z.of_nat n) padding W Ht) n).
Proof.
  unfold calculatePositions, triangle. rewrite upto_nat.
  set (g := positionAt (Z.of_nat n) padding W Ht).
  change (@nil (option (jsarray Point))) with (rows g (fun k => k + 1) 0).
  apply (forM_seq _ (fun i => rows g (fun k => k + 1) i) 0 (n + 1)).
  intros i _. cbv zeta.
  rewrite (aset_rows_new g _ (fillUp i 0)) by fill_lia.
  rewrite (forM_seq _ (fun j => rows g (fillUp i j) (i + 1)) 0 (i + 1)).
  - f_equal. apply rows_ext; [fill_lia | done].
  - intros j Hj. apply (store_rows g); fill_lia.
Qed.

Lemma calculatePositions_neg N padding W Ht :
  (N < 0)%Z -> calculatePositions N padding W Ht = Ok [].
Proof. intros. unfold calculatePositions. by rewrite upto_neg. Qed.

Lemma point_triangle (g : nat -> nat -> @Point F) n i j :
  j <= i <= n -> point (triangle g n) i j = Ok (g i j).
Proof.
  intros. unfold point. rewrite row_triangle by lia. simpl.
  by rewrite aget_cells by lia.
Qed.

Lemma commandsInRow_succ pos i m :
  commandsInRow pos i (m + 1) = commandsInRow pos i m ++ edgeCommands pos i m.
Proof.
  unfold commandsInRow. rewrite Nat.add_1_r, seq_S, bind_app. reflexivity.
Qed.

Lemma commandsBelow_succ pos m :
  commandsBelow pos (m + 1) = commandsBelow pos m ++ commandsInRow pos m (m + 1).
Proof.
  unfold commandsBelow. rewrite Nat.add_1_r at 1. rewrite seq_S, bind_app. simpl.
  by rewrite app_nil_r.
Qed.

Lemma drawEdges_triangle grid pos n ctx :
  drawEdges grid (triangle pos n) (Z.of_nat n) ctx =
  Ok (ctx ++ [SetStrokeStyle grid; SetLineWidth fone] ++ commandsBelow pos n).
Proof.
  unfold drawEdges. rewrite below_nat. rewrite <- app_assoc. simpl.
  set (ctx0 := ctx ++ [SetStrokeStyle grid; SetLineWidth fone]).
  replace (ctx ++ SetStrokeStyle grid :: SetLineWidth fone :: commandsBelow pos n)
    with (ctx0 ++ commandsBelow pos n) by (unfold ctx0; by rewrite <- app_assoc).
  pose (st := fun i => ctx0 ++ commandsBelow pos i).
  assert (ctx0 = st 0) as Hst by (unfold st; simpl; by rewrite app_nil_r).
  rewrite Hst at 1. apply (forM_seq _ st 0 n). intros i Hi.
  unfold st at 2. rewrite commandsBelow_succ, app_assoc. fold (st i).
  pose (sti := fun j => st i ++ commandsInRow pos i j).
  assert (st i = sti 0) as Hsti by (unfold sti; simpl; by rewrite app_nil_r).
  rewrite Hsti at 1. apply (forM_seq _ sti 0 (i + 1)). intros j Hj.
  rewrite !point_triangle by lia. simpl.
  unfold sti. rewrite commandsInRow_succ. unfold edgeCommands.
  rewrite <- !app_assoc. reflexivity.
Qed.

Lemma segments_edgeCommands pos i j rest :
  segments (edgeCommands pos i j ++ rest) = edgesOf pos i j ++ segments rest.
Proof.
  unfold edgeCommands, edgesOf. simpl.
  by destruct (pos i j), (pos (i + 1) (j + 1)), (pos (i + 1) j).
Qed.

Lemma bind_seq_succ {A} (f : nat -> list A) m :
  seq 0 (m + 1) ≫= f = (seq 0 m ≫= f) ++ f m.
Proof.
  rewrite Nat.add_1_r, seq_S, bind_app. simpl. by rewrite app_nil_r.
Qed.

Lemma segments_commandsInRow pos i m rest :
  segments (commandsInRow pos i m ++ rest) =
  (seq 0 m ≫= edgesOf pos i) ++ segments rest.
Proof.
  revert rest. induction m as [|m IH]; intros rest; [done|].
  replace (Datatypes.S m) with (m + 1) by lia.
  rewrite commandsInRow_succ, <- app_assoc, IH, segments_edgeCommands.
  by rewrite bind_seq_succ, <- app_assoc.
Qed.

Lemma edgesBelow_succ pos m :
  edgesBelow pos (m + 1) = edgesBelow pos m ++ (seq 0 (m + 1) ≫= edgesOf pos m).
Proof.
  unfold edgesBelow.
  exact (bind_seq_succ (fun i => seq 0 (i + 1) ≫= fun j => edgesOf pos i j) m).
Qed.

Lemma segments_commandsBelow pos m rest :
  segments (commandsBelow pos m ++ rest) = edgesBelow pos m ++ segments rest.
Proof.
  revert rest. induction m as [|m IH]; intros rest; [done|].
  replace (Datatypes.S m) with (m + 1) by lia.
  rewrite commandsBelow_succ, <- app_assoc, IH, segments_commandsInRow.
  by rewrite edgesBelow_succ, <- app_assoc.
Qed.

Lemma length_edgesBelow pos m : length (edgesBelow pos m) = m * (m + 1).
Proof.
  assert (forall i k, length (seq 0 k ≫= edgesOf pos i) = 2 * k) as Hrow.
  { intros i k. induction k as [|k IH]; [done|].
    replace (Datatypes.S k) with (k + 1) by lia.
    rewrite bind_seq_succ, length_app, IH. simpl. lia. }
  induction m as [|m IH]; [done|].
  replace (Datatypes.S m) with (m + 1) by lia.
  rewrite edgesBelow_succ, length_app, IH, Hrow. lia.
Qed.

End RendererClosed.

Section RendererProperties.
Context {F : Type} `{Num F}.
Import Renderer.

(** X15: the layout has the shape of the lattice.  For [N = n >= 0] the
    positions have exactly the levels [0..N], level [i] holding exactly
    [i + 1] points, and the points of one level share their [x]; for a
    negative [N] there is no level. *)
Theorem layout_shape (padding : Padding) (W Ht : F) (n : nat) :
  exists positions,
    calculatePositions (Z.of_nat n) padding W Ht = Ok positions /\
    populated positions n /\
    (forall i j j', j <= i -> j' <= i -> i <= n -> exists pt pt',
       point positions i j = Ok pt /\ point positions i j' = Ok pt' /\
       x pt = x pt') /\
    (forall N, (N < 0)%Z -> calculatePositions N padding W Ht = Ok []).
Proof.
  eexists. split; [apply calculatePositions_nat|].
  split; [apply triangle_populated|]. split.
  - intros i j j' Hj Hj' Hi. eexists _, _.
    rewrite !point_triangle by lia. done.
  - intros N HN. by apply calculatePositions_neg.
Qed.

(** X16: the edges drawn over a layout.  [drawEdges] appends its calls to
    the log; the segments it draws are exactly the pairs of a node of a step
    [i < N] and one of its two successors, [N (N + 1)] in all.  On an empty
    layout with [N >= 1] it throws a [TypeError]. *)
Theorem edges_drawn (grid : string) (padding : Padding) (W Ht : F) (n : nat)
    (ctx : list command) :
  exists positions added,
    calculatePositions (Z.of_nat n) padding W Ht = Ok positions /\
    drawEdges grid positions (Z.of_nat n) ctx = Ok (ctx ++ added) /\
    length (segments added) = n * (n + 1) /\
    (forall a b, (a, b) ∈ segments added <->
       exists i j, j <= i /\ i < n /\ point positions i j = Ok a /\
         (point positions (i + 1) (j + 1) = Ok b \/
          point positions (i + 1) j = Ok b)) /\
    (forall N, (1 <= N)%Z -> drawEdges grid [] N ctx = Err TypeError).
Proof.
  set (pos := positionAt (Z.of_nat n) padding W Ht).
  exists (triangle pos n),
    ([SetStrokeStyle grid; SetLineWidth fone] ++ commandsBelow pos n).
  assert (segments ([SetStrokeStyle grid; SetLineWidth fone] ++ commandsBelow pos n)
          = edgesBelow pos n) as Hseg.
  { simpl. rewrite <- (app_nil_r (commandsBelow pos n)).
    rewrite segments_commandsBelow. simpl. by rewrite app_nil_r. }
  split; [apply calculatePositions_nat|].
  split; [apply drawEdges_triangle|]. rewrite Hseg.
  split; [apply length_edgesBelow|]. split.
  - intros a b. unfold edgesBelow. rewrite list_elem_of_bind. split.
    + intros (i & Hab & Hi). apply elem_of_seq in Hi.
      apply list_elem_of_bind in Hab as (j & Hab & Hj). apply elem_of_seq in Hj.
      exists i, j. rewrite !point_triangle by lia.
      unfold edgesOf in Hab. rewrite !elem_of_cons, elem_of_nil in Hab.
      destruct Hab as [[= -> ->]|[[= -> ->]|[]]]; split_and!; try lia; auto.
    + intros (i & j & Hj & Hi & Ha & Hb). exists i.
      rewrite point_triangle in Ha by lia. injection Ha as <-.
      split; [|apply elem_of_seq; lia].
      apply list_elem_of_bind. exists j. split; [|apply elem_of_seq; lia].
      unfold edgesOf. rewrite !elem_of_cons.
      rewrite !point_triangle in Hb by lia.
      destruct Hb as [[= <-]|[= <-]]; auto.
  - intros N HN. unfold drawEdges, below.
    destruct (Z.to_nat N) as [|k] eqn:Hk; [lia|]. reflexivity.
Qed.

End RendererProperties.

(** ** The further properties at concrete inputs *)

Section FurtherWitnesses.
Local Open Scope R_scope.

Lemma negative_step_count_witness :
  (N_ negativeRequest < 0)%Z /\
  buildStockTree (S_ negativeRequest) (u (crrOf negativeRequest))
    (d (crrOf negativeRequest)) (N_ negativeRequest) = Ok [] /\
  priceEuropean [] 100 (1 / 2) 1 true (N_ negativeRequest) = Ok ([], []) /\
  priceAmerican [] 100 (1 / 2) 1 true (N_ negativeRequest) = Ok ([], []) /\
  calculateDelta ([] : tree R) [] = Ok 0 /\
  calculateGamma ([] : tree R) [] = Ok 0 /\
  getEarlyExerciseNodes ([] : tree R) [] [] (N_ negativeRequest) = Ok [] /\
  priceBinomialTree negativeRequest = Err TypeError.
Proof.
  assert (N_ negativeRequest < 0)%Z as HN by reflexivity.
  split; [exact HN|].
  exact (negative_step_count negativeRequest 100 (1 / 2) 1 true [] [] [] HN).
Defined.

Lemma early_exercise_count_witness :
  N_ derivedRequest = Z.of_nat 2 /\
  exists res,
    priceBinomialTree derivedRequest = Ok res /\
    (length (earlyExerciseNodes res) <= 2 * (2 + 1) / 2)%nat.
Proof.
  split; [reflexivity|].
  exact (early_exercise_count derivedRequest 2 eq_refl).
Defined.

Lemma form_is_priced_witness :
  is_Some (Form.optionType defaultForm) /\
  is_Some (Form.exerciseStyle defaultForm) /\
  is_Some (Form.crrMode defaultForm) /\
  exists params res,
    Form.getParams defaultForm = Ok params /\
    priceBinomialTree params = Ok res /\
    (1 <= N_ params <= 20)%Z /\
    populated (stockTree res) (Z.to_nat (N_ params)) /\
    populated (optionTree res) (Z.to_nat (N_ params)) /\
    populated (earlyExercise res) (Z.to_nat (N_ params)) /\
    (nodeCount (stockTree res) <= 231)%nat /\
    (Form.crrMode defaultForm = Some "custom"%string ->
       u (crr res) = Form.orDefault (Form.crrUInput defaultForm) onePointOne /\
       d (crr res) = Form.orDefault (Form.crrDInput defaultForm) zeroPointNine).
Proof.
  assert (is_Some (Form.optionType defaultForm)) as H1 by (eexists; reflexivity).
  assert (is_Some (Form.exerciseStyle defaultForm)) as H2 by (eexists; reflexivity).
  assert (is_Some (Form.crrMode defaultForm)) as H3 by (eexists; reflexivity).
  split; [exact H1|]. split; [exact H2|]. split; [exact H3|].
  exact (form_is_priced defaultForm H1 H2 H3).
Defined.


End FurtherWitnesses.

Lemma option_values_nonnegative_witness :
  let c := @crrOf float (Num_float expAtThirtySecond powByProduct)
             (putRequest true) in
  N_ (putRequest true) = Z.of_nat 2 /\
  (0 <=? p c)%float = true /\ (p c <=? 1)%float = true /\
  (0 <=? discount c)%float = true /\
  exists res,
    @priceBinomialTree float (Num_float expAtThirtySecond powByProduct)
      (putRequest true) = Ok res /\
    (is_nan (price res) = false -> (0 <=? price res)%float = true) /\
    forall i j, j <= i <= 2 -> exists v,
      cell (optionTree res) i j = Ok v /\
      (is_nan v = false -> (0 <=? v)%float = true).
Proof.
  intros c.
  assert ((0 <=? p c)%float = true) as Hp0 by (vm_compute; reflexivity).
  assert ((p c <=? 1)%float = true) as Hp1 by (vm_compute; reflexivity).
  assert ((0 <=? discount c)%float = true) as Hd by (vm_compute; reflexivity).
  split; [reflexivity|]. split; [exact Hp0|]. split; [exact Hp1|].
  split; [exact Hd|].
  exact (option_values_nonnegative expAtThirtySecond powByProduct
           (putRequest true) 2 eq_refl Hp0 Hp1 Hd).
Defined.

Lemma american_unflagged_is_european_witness :
  N_ (putRequest true) = Z.of_nat 2 /\
  exists ra re,
    @priceBinomialTree float (Num_float expAtThirtySecond powByProduct)
      (withStyle (putRequest true) true) = Ok ra /\
    @priceBinomialTree float (Num_float expAtThirtySecond powByProduct)
      (withStyle (putRequest true) false) = Ok re /\
    (earlyExerciseNodes ra = [] <->
     forall i j, j <= i -> i < 2 -> cell (earlyExercise ra) i j = Ok false) /\
    (earlyExerciseNodes ra = [] ->
     optionTree ra = optionTree re /\ price ra = price re /\
     delta ra = delta re /\ gamma ra = gamma re).
Proof.
  split; [reflexivity|].
  exact (@american_unflagged_is_european float
           (Num_float expAtThirtySecond powByProduct) (putRequest true) 2 eq_refl).
Defined.
